(** * The aardvark retriever runner

    A shallow embedding of [aardvark/retrievers/runner.py]: the class
    [RetrieverRunner] with its three worker loops (ARN lookup, retriever,
    results), the account seeding functions and the [run] coroutine.

    - Python dictionaries with string keys are [gmap string value].
    - [asyncio.Queue] is a FIFO list of items with the counter
      [_unfinished_tasks].
    - Methods of [RetrieverRunner] are computations in a state and
      exception monad [M] over the object's mutable attributes; a Python
      [try]/[except] keeps the state changes made before the exception.
    - The collaborators (SWAG, the IAM enumeration calls, the persistence
      plugin, the retriever plugins) are parameters of the development.
    - Strings are byte strings: [\d] is read as an ASCII digit. *)

From Stdlib Require Import Ascii String.
From Equations Require Import Equations.
From stdpp Require Import gmap strings list fin_maps pretty.

(** ** Python values, exceptions, results *)

#[local] Set Warnings "-register-all".

Inductive value : Type :=
  | VNone
  | VInt (z : Z)
  | VStr (s : string)
  | VDict (d : gmap string value).

(** [Dict[str, Any]]: the data passed between retrievers, and the SWAG
    configuration. *)
Abbreviation record := (gmap string value).

(** Truth value of a Python object, as tested by [if x:]. *)
Definition truthy (v : value) : bool :=
  match v with
  | VNone => false
  | VInt z => negb (Z.eqb z 0)
  | VStr s => negb (String.eqb s "")
  | VDict d => negb (Nat.eqb (size d) 0)
  end.

(** The exceptions the runner can meet; all are subclasses of
    [Exception].  [raise X from e] records [e] as the cause of [X]. *)
Inductive exn : Type :=
  | KeyError (key : string)
  | TypeError (msg : string)
  | ValueError (msg : string)
  | InvalidSWAGDataException
  | ClientError (code : string)
  | RetrieverException (msg : string) (cause : option exn)
  | OtherException (name : string).

Inductive result (A : Type) : Type :=
  | Ok (a : A)
  | Raise (e : exn).
Arguments Ok {A} a.
Arguments Raise {A} e.

(** [d[k]] *)
Definition getitem (d : record) (k : string) : result value :=
  match d !! k with
  | Some v => Ok v
  | None => Raise (KeyError k)
  end.

(** The one-entry dict display [{k: v}]; the key has to be hashable. *)
Definition role_data : Type := list (value * value).

Definition dict1 (k v : value) : result role_data :=
  match k with
  | VDict _ => Raise (TypeError "unhashable type: 'dict'")
  | _ => Ok [(k, v)]
  end.

(** ** asyncio.Queue *)

Record Queue (A : Type) : Type := mkQueue {
  items : list A;            (* [_queue] *)
  unfinished_tasks : nat     (* [_unfinished_tasks] *)
}.
Arguments mkQueue {A} items unfinished_tasks.
Arguments items {A} q.
Arguments unfinished_tasks {A} q.

Module Queue.
(** [asyncio.Queue()] *)
Definition new {A} : Queue A := mkQueue [] 0.

(** [put]/[put_nowait] on an unbounded queue: never blocks. *)
Definition put {A} (x : A) (q : Queue A) : Queue A :=
  mkQueue (items q ++ [x]) (S (unfinished_tasks q)).

(** [get_nowait]; [get] suspends the caller while this is [None]. *)
Definition get {A} (q : Queue A) : option (A * Queue A) :=
  match items q with
  | [] => None
  | x :: rest => Some (x, mkQueue rest (unfinished_tasks q))
  end.

Definition task_done {A} (q : Queue A) : result (Queue A) :=
  match unfinished_tasks q with
  | 0 => Raise (ValueError "task_done() called too many times")
  | S n => Ok (mkQueue (items q) n)
  end.

(** Items that were taken by [get] and not yet acknowledged. *)
Definition in_flight {A} (q : Queue A) : nat :=
  unfinished_tasks q - length (items q).

(** [join] returns when this holds. *)
Definition drained {A} (q : Queue A) : Prop :=
  items q = [] ∧ unfinished_tasks q = 0.

Definition joinable {A} (q : Queue A) : bool :=
  Nat.eqb (unfinished_tasks q) 0.
End Queue.

(** ** The runner object *)

(** A retriever plugin: its name and its [run(arn, data)] method. *)
Record RetrieverPlugin : Type := mkPlugin {
  plugin_name : string;
  run_plugin : string → record → result record
}.

(** A SWAG account entry.  [id] and [schemaVersion] are read with
    [account[...]], [name] and the alias lists with [account.get(...)]. *)
Record Account : Type := mkAccount {
  id : string;
  name : option string;
  schemaVersion : string;
  aliases : option (list string);
  alias : option (list string)
}.

Inductive qname : Type := AccountQ | ArnQ | ResultsQ | FailureQ.

(** What travels on the queues: account numbers and ARNs are strings,
    results are dictionaries; the failure queue receives both. *)
Inductive item : Type :=
  | IStr (s : string)
  | IDict (d : record).

Inductive call : Type :=
  | CRetriever (plugin arn : string)
  | CConn (account : string)
  | CListRoles (account : string)
  | CListUsers (account : string)
  | CListPolicies (account : string)
  | CListGroups (account : string)
  | CSwagGetAll (filter : value)
  | CSwagServiceEnabled (service : value)
  | CStoreRoleData (m : role_data).

Inductive log_record : Type :=
  | LogRetrieverFailed (plugin arn : string)      (* line 79 *)
  | LogRetrieverLoop (arn : string) (e : exn)     (* line 93 *)
  | LogResultsLoop (e : exn)                      (* line 113 *)
  | LogArnLookup (e : exn)                        (* line 156 *)
  | LogSwag (e : exn)                             (* line 173 *)
  | LogFailure (x : item).                        (* line 280 *)

(** The observable history of a run: queue operations, calls made to
    the collaborators, error-level log records, task management. *)
Inductive event : Type :=
  | EPut (q : qname) (x : item)
  | EGet (q : qname) (x : item)
  | ETaskDone (q : qname)
  | ECall (c : call)
  | ELog (r : log_record)
  | ECreateTask (task : string)
  | ECancel (task : string).

(** The five steps of [_get_arns_for_account], one per awaited call. *)
Inductive phase : Type := PConn | PRoles | PUsers | PPolicies | PGroups.

(** Where a worker coroutine is suspended. *)
Inductive pos : Type :=
  | LookupGet                                  (* line 151 *)
  | LookupPhase (account : string) (p : phase) (* lines 126-144 *)
  | RetrieverGet                               (* line 88 *)
  | RetrieverRun (arn : string)                (* line 91 *)
  | ResultsGet                                 (* line 106 *)
  | ResultsStore (data : record) (m : role_data). (* line 109 *)

Inductive status : Type :=
  | Pending                 (* the coroutine has not finished *)
  | Cancelled               (* finished with [CancelledError] *)
  | Failed (e : exn).       (* finished with an exception *)

Record Task : Type := mkTask {
  task_name : string;
  task_pos : pos;
  must_cancel : bool;
  task_status : status
}.

Record Runner : Type := mkRunner {
  retrievers : list RetrieverPlugin;
  account_queue : Queue string;
  arn_queue : Queue string;
  results_queue : Queue record;
  failure_queue : Queue item;
  failed_arns : list string;
  tasks : list Task;
  history : list event
}.

(** [__init__] *)
Definition init : Runner :=
  mkRunner [] Queue.new Queue.new Queue.new Queue.new [] [] [].

Definition set_retrievers (f : list RetrieverPlugin → list RetrieverPlugin) (s : Runner) : Runner :=
  mkRunner (f (retrievers s)) (account_queue s) (arn_queue s) (results_queue s)
           (failure_queue s) (failed_arns s) (tasks s) (history s).
Definition set_account_queue (f : Queue string → Queue string) (s : Runner) : Runner :=
  mkRunner (retrievers s) (f (account_queue s)) (arn_queue s) (results_queue s)
           (failure_queue s) (failed_arns s) (tasks s) (history s).
Definition set_arn_queue (f : Queue string → Queue string) (s : Runner) : Runner :=
  mkRunner (retrievers s) (account_queue s) (f (arn_queue s)) (results_queue s)
           (failure_queue s) (failed_arns s) (tasks s) (history s).
Definition set_results_queue (f : Queue record → Queue record) (s : Runner) : Runner :=
  mkRunner (retrievers s) (account_queue s) (arn_queue s) (f (results_queue s))
           (failure_queue s) (failed_arns s) (tasks s) (history s).
Definition set_failure_queue (f : Queue item → Queue item) (s : Runner) : Runner :=
  mkRunner (retrievers s) (account_queue s) (arn_queue s) (results_queue s)
           (f (failure_queue s)) (failed_arns s) (tasks s) (history s).
Definition set_failed_arns (f : list string → list string) (s : Runner) : Runner :=
  mkRunner (retrievers s) (account_queue s) (arn_queue s) (results_queue s)
           (failure_queue s) (f (failed_arns s)) (tasks s) (history s).
Definition set_tasks (f : list Task → list Task) (s : Runner) : Runner :=
  mkRunner (retrievers s) (account_queue s) (arn_queue s) (results_queue s)
           (failure_queue s) (failed_arns s) (f (tasks s)) (history s).
Definition set_history (f : list event → list event) (s : Runner) : Runner :=
  mkRunner (retrievers s) (account_queue s) (arn_queue s) (results_queue s)
           (failure_queue s) (failed_arns s) (tasks s) (f (history s)).

(** ** The monad of methods *)

Definition M (A : Type) : Type := Runner → result A * Runner.

Definition ret {A} (a : A) : M A := λ s, (Ok a, s).

Definition bind {A B} (m : M A) (k : A → M B) : M B :=
  λ s, match m s with
       | (Ok a, s') => k a s'
       | (Raise e, s') => (Raise e, s')
       end.

Definition raise {A} (e : exn) : M A := λ s, (Raise e, s).

(** [try: m  except Exception as e: h e] *)
Definition try_except {A} (m : M A) (h : exn → M A) : M A :=
  λ s, match m s with
       | (Ok a, s') => (Ok a, s')
       | (Raise e, s') => h e s'
       end.

Definition lift {A} (r : result A) : M A := λ s, (r, s).
Definition gets {A} (f : Runner → A) : M A := λ s, (Ok (f s), s).
Definition modify (f : Runner → Runner) : M unit := λ s, (Ok tt, f s).

Notation "x <- m ;; k" := (bind m (λ x, k))
  (at level 100, m at next level, right associativity).
Notation "m ;; k" := (bind m (λ _, k))
  (at level 100, right associativity).

(** [for x in l: body x] *)
Fixpoint for_ {A} (l : list A) (body : A → M unit) : M unit :=
  match l with
  | [] => ret tt
  | x :: l' => body x ;; for_ l' body
  end.

(** [for x in l: acc = body acc x] *)
Fixpoint fold_ {A B} (l : list A) (body : B → A → M B) (acc : B) : M B :=
  match l with
  | [] => ret acc
  | x :: l' => acc' <- body acc x ;; fold_ l' body acc'
  end.

Definition emit (e : event) : M unit := modify (set_history (λ h, h ++ [e])).
Definition log_error (r : log_record) : M unit := emit (ELog r).

(** Queue operations on the runner's four queues. *)
Definition account_queue_put (x : string) : M unit :=
  modify (set_account_queue (Queue.put x)) ;; emit (EPut AccountQ (IStr x)).
Definition arn_queue_put (x : string) : M unit :=
  modify (set_arn_queue (Queue.put x)) ;; emit (EPut ArnQ (IStr x)).
Definition results_queue_put (x : record) : M unit :=
  modify (set_results_queue (Queue.put x)) ;; emit (EPut ResultsQ (IDict x)).
Definition failure_queue_put (x : item) : M unit :=
  modify (set_failure_queue (Queue.put x)) ;; emit (EPut FailureQ x).

Definition account_queue_task_done : M unit :=
  q <- gets account_queue ;; q' <- lift (Queue.task_done q) ;;
  modify (set_account_queue (λ _, q')) ;; emit (ETaskDone AccountQ).
Definition arn_queue_task_done : M unit :=
  q <- gets arn_queue ;; q' <- lift (Queue.task_done q) ;;
  modify (set_arn_queue (λ _, q')) ;; emit (ETaskDone ArnQ).
Definition results_queue_task_done : M unit :=
  q <- gets results_queue ;; q' <- lift (Queue.task_done q) ;;
  modify (set_results_queue (λ _, q')) ;; emit (ETaskDone ResultsQ).

(** ** Account seeding helpers *)

(** [re_account_id = re.compile(r"\d{12}")], used with [match]: the
    pattern is anchored at the start of the string only. *)
Definition is_digit (c : ascii) : bool :=
  let n := nat_of_ascii c in (48 <=? n) && (n <=? 57).

Definition re_account_id_match (s : string) : bool :=
  let cs := take 12 (list_ascii_of_string s) in
  (length cs =? 12) && forallb is_digit cs.

(** [l.remove(x)]: drops the first occurrence of [x]. *)
Fixpoint list_remove (x : string) (l : list string) : list string :=
  match l with
  | [] => []
  | y :: l' => if decide (x = y) then l' else y :: list_remove x l'
  end.

Lemma length_list_remove x l : length (list_remove x l) ≤ length l.
Proof. induction l as [|y l IH]; simpl; [lia|]. case_decide; simpl; lia. Qed.

Definition inspect {A} (a : A) : {b | a = b} := exist _ a eq_refl.

(** Lines 198-201: [for account in accounts] over the list that the body
    shrinks.  The list iterator holds an index [i]; each round reads
    [accounts[i]] and then moves to [i + 1], whatever happened to the
    list in between. *)
Equations? queue_account_ids (i : nat) (accounts : list string) : M (list string)
  by wf (length accounts - i) lt :=
queue_account_ids i accounts with inspect (accounts !! i) := {
  | exist _ (Some account) _ =>
      if re_account_id_match account
      then account_queue_put account ;;
           queue_account_ids (S i) (list_remove account accounts)
      else queue_account_ids (S i) accounts
  | exist _ None _ => ret accounts }.
Proof.
  all: match goal with H : _ !! _ = Some _ |- _ => apply lookup_lt_Some in H end.
  - pose proof (length_list_remove account accounts). lia.
  - lia.
Qed.

(** [account.get(alias_key, [])] with the key chosen at line 213. *)
Definition account_aliases (account : Account) : list string :=
  let field := if String.eqb (schemaVersion account) "2"
               then aliases account else alias account in
  default [] field.

(** [account.get("name") in accounts] *)
Definition name_in (account : Account) (accounts : list string) : bool :=
  match name account with
  | Some n => bool_decide (n ∈ accounts)
  | None => false
  end.

(** [except (KeyError, InvalidSWAGDataException, ClientError)] *)
Definition is_swag_failure (e : exn) : bool :=
  match e with
  | KeyError _ | InvalidSWAGDataException | ClientError _ => true
  | _ => false
  end.

(** [if xs:] for an optional list argument. *)
Definition given (xs : option (list string)) : list string := default [] xs.
Definition is_given (xs : option (list string)) : bool :=
  match given xs with [] => false | _ => true end.

(** The collaborators of the runner and its configuration.  Enumeration
    entries are given by their ["Arn"]; a paginator is given by the pages
    it yields and the exception that ends the iteration, if any. *)
Record Env : Type := mkEnv {
  (* configuration, read at construction *)
  num_workers : nat;
  swag_config : record;
  (* the SWAG manager *)
  swag_get_all : value → result (list Account);
  swag_get_service_enabled : value → list Account → result (list Account);
  (* IAM enumeration *)
  boto3_cached_conn : string → result unit;
  list_roles : string → result (list string);
  list_users : string → result (list string);
  list_policies : string → list (list string) * option exn;
  list_groups : string → list (list string) * option exn;
  (* the persistence plugin *)
  store_role_data : role_data → result unit;
  (* the retriever that [run] registers *)
  AccessAdvisorRetriever : RetrieverPlugin
}.

Section runner.
Context (env : Env).

Definition register_retriever (r : RetrieverPlugin) : M unit :=
  modify (set_retrievers (λ rs, rs ++ [r])).

(** *** Retrievers (lines 63-100) *)

Definition call_retriever (arn : string) (data : record) (r : RetrieverPlugin) : M record :=
  try_except
    (emit (ECall (CRetriever (plugin_name r) arn)) ;;
     lift (run_plugin r arn data))
    (λ e, log_error (LogRetrieverFailed (plugin_name r) arn) ;;
          raise (RetrieverException "" (Some e))).

Definition _run_retrievers (arn : string) : M record :=
  rs <- gets retrievers ;;
  fold_ rs (call_retriever arn) {["arn" := VStr arn]}.

(** One round of [_retriever_loop], after [arn] was taken from the
    queue. *)
Definition _retriever_loop_body (arn : string) : M unit :=
  r <- try_except
         (data <- _run_retrievers arn ;; ret (Some data))
         (λ e, log_error (LogRetrieverLoop arn e) ;;
               modify (set_failed_arns (λ l, l ++ [arn])) ;;
               failure_queue_put (IStr arn) ;;
               arn_queue_task_done ;;
               ret None) ;;
  match r with
  | None => ret tt
  | Some data => results_queue_put data ;; arn_queue_task_done
  end.

(** *** Results (lines 102-115) *)

Definition results_prepare (data : record) : M role_data :=
  k <- lift (getitem data "arn") ;;
  v <- lift (getitem data "access_advisor") ;;
  lift (dict1 k v).

Definition results_store (m : role_data) : M unit :=
  emit (ECall (CStoreRoleData m)) ;;
  lift (store_role_data env m).

Definition results_except (data : record) (e : exn) : M unit :=
  log_error (LogResultsLoop e) ;;
  failure_queue_put (IDict data).

(** One round of [_results_loop], after [data] was taken from the
    queue.  Line 107 reads [data['arn']] before the [try]. *)
Definition _results_loop_body (data : record) : M unit :=
  _ <- lift (getitem data "arn") ;;
  try_except
    (m <- results_prepare data ;; results_store m)
    (results_except data) ;;
  results_queue_task_done.

(** *** ARN lookup (lines 117-158) *)

Definition connect (account : string) : M unit :=
  emit (ECall (CConn account)) ;;
  lift (boto3_cached_conn env account).

Definition put_roles (account : string) : M unit :=
  emit (ECall (CListRoles account)) ;;
  roles <- lift (list_roles env account) ;;
  for_ roles arn_queue_put.

Definition put_users (account : string) : M unit :=
  emit (ECall (CListUsers account)) ;;
  users <- lift (list_users env account) ;;
  for_ users arn_queue_put.

Definition put_pages (pages : list (list string) * option exn) : M unit :=
  for_ (fst pages) (λ page, for_ page arn_queue_put) ;;
  match snd pages with
  | Some e => raise e
  | None => ret tt
  end.

Definition put_policies (account : string) : M unit :=
  emit (ECall (CListPolicies account)) ;;
  put_pages (list_policies env account).

Definition put_groups (account : string) : M unit :=
  emit (ECall (CListGroups account)) ;;
  put_pages (list_groups env account).

Definition _get_arns_for_account (account : string) : M unit :=
  connect account ;;
  put_roles account ;;
  put_users account ;;
  put_policies account ;;
  put_groups account.

Definition arn_lookup_except (account : string) (e : exn) : M unit :=
  log_error (LogArnLookup e) ;;
  failure_queue_put (IStr account).

(** One round of [_arn_lookup_loop], after [account] was taken from
    the queue. *)
Definition _arn_lookup_loop_body (account : string) : M unit :=
  try_except (_get_arns_for_account account) (arn_lookup_except account) ;;
  account_queue_task_done.

(** *** Seeding (lines 160-217) *)

Definition _get_swag_accounts : M (list Account) :=
  try_except
    (filter <- lift (getitem (swag_config env) "filter") ;;
     emit (ECall (CSwagGetAll filter)) ;;
     all_accounts <- lift (swag_get_all env filter) ;;
     swag_service <- lift (getitem (swag_config env) "service_enabled_requirement") ;;
     if truthy swag_service
     then emit (ECall (CSwagServiceEnabled swag_service)) ;;
          lift (swag_get_service_enabled env swag_service all_accounts)
     else filter <- lift (getitem (swag_config env) "filter") ;;
          emit (ECall (CSwagGetAll filter)) ;;
          lift (swag_get_all env filter))
    (λ e, if is_swag_failure e
          then log_error (LogSwag e) ;;
               raise (RetrieverException "could not retrieve SWAG data" (Some e))
          else raise e).

Definition _queue_all_accounts : M unit :=
  all_accounts <- _get_swag_accounts ;;
  for_ all_accounts (λ account, account_queue_put (id account)).

Definition _queue_arns (arns : list string) : M unit :=
  for_ arns arn_queue_put.

Definition _queue_accounts (account_names : list string) : M unit :=
  accounts <- queue_account_ids 0 account_names ;;
  all_accounts <- _get_swag_accounts ;;
  for_ all_accounts (λ account,
    if name_in account accounts
    then account_queue_put (id account)
    else for_ (account_aliases account) (λ alias,
           if bool_decide (alias ∈ accounts)
           then account_queue_put (id account)
           else ret tt)).

(** *** Tasks (lines 219-269) *)

Definition create_task (name : string) (p : pos) : M unit :=
  modify (set_tasks (λ ts, ts ++ [mkTask name p false Pending])) ;;
  emit (ECreateTask name).

Definition create_workers (prefix : string) (p : pos) : M unit :=
  for_ (seq 0 (num_workers env)) (λ i, create_task (prefix +:+ pretty i) p).

(** [run] up to its first [join]: lines 236-269. *)
Definition run_start (accounts arns : option (list string)) : M unit :=
  register_retriever (AccessAdvisorRetriever env) ;;
  modify (set_arn_queue (λ _, Queue.new)) ;;
  modify (set_account_queue (λ _, Queue.new)) ;;
  modify (set_results_queue (λ _, Queue.new)) ;;
  modify (set_failure_queue (λ _, Queue.new)) ;;
  lookup_accounts <- (if is_given arns
                      then _queue_arns (given arns) ;; ret false
                      else ret true) ;;
  (if lookup_accounts : bool
   then (if is_given accounts
         then _queue_accounts (given accounts)
         else _queue_all_accounts) ;;
        create_workers "arn-lookup-worker-" LookupGet
   else ret tt) ;;
  create_workers "retriever-worker-" RetrieverGet ;;
  create_workers "results-worker-" ResultsGet.

(** [cancel]: a finished task ignores the request. *)
Definition request_cancel (t : Task) : Task :=
  match task_status t with
  | Pending => mkTask (task_name t) (task_pos t) true Pending
  | _ => t
  end.

Definition cancel : M unit :=
  ts <- gets tasks ;;
  modify (set_tasks (map request_cancel)) ;;
  for_ ts (λ task, emit (ECancel (task_name task))).

(** Lines 278-280: nothing is put on the failure queue while this loop
    runs, so it takes the items present at its start, one by one. *)
Definition report_failures : M unit :=
  q <- gets failure_queue ;;
  for_ (items q) (λ failure,
    modify (set_failure_queue (λ q, mkQueue (tail (items q)) (unfinished_tasks q))) ;;
    emit (EGet FailureQ failure) ;;
    log_error (LogFailure failure)).

(** Lines 276-280, executed without suspension. *)
Definition clean_up : M unit :=
  cancel ;; report_failures.

(** *** The worker coroutines, from one suspension point to the next *)

Definition account_queue_get (s : Runner) : option (string * Runner) :=
  match Queue.get (account_queue s) with
  | Some (x, q) =>
      Some (x, set_history (λ h, h ++ [EGet AccountQ (IStr x)])
                 (set_account_queue (λ _, q) s))
  | None => None
  end.

Definition arn_queue_get (s : Runner) : option (string * Runner) :=
  match Queue.get (arn_queue s) with
  | Some (x, q) =>
      Some (x, set_history (λ h, h ++ [EGet ArnQ (IStr x)])
                 (set_arn_queue (λ _, q) s))
  | None => None
  end.

Definition results_queue_get (s : Runner) : option (record * Runner) :=
  match Queue.get (results_queue s) with
  | Some (x, q) =>
      Some (x, set_history (λ h, h ++ [EGet ResultsQ (IDict x)])
                 (set_results_queue (λ _, q) s))
  | None => None
  end.

Definition run_phase (p : phase) (account : string) : M unit :=
  match p with
  | PConn => connect account
  | PRoles => put_roles account
  | PUsers => put_users account
  | PPolicies => put_policies account
  | PGroups => put_groups account
  end.

Definition next_phase (p : phase) : option phase :=
  match p with
  | PConn => Some PRoles
  | PRoles => Some PUsers
  | PUsers => Some PPolicies
  | PPolicies => Some PGroups
  | PGroups => None
  end.

(** [_arn_lookup_loop] resumed inside [_get_arns_for_account]: the
    awaited call returns or raises, the ARNs are queued, and the
    coroutine runs to its next [await]. *)
Definition lookup_resume (account : string) (p : phase) : M pos :=
  failed <- try_except (run_phase p account ;; ret false)
                       (λ e, arn_lookup_except account e ;; ret true) ;;
  match next_phase p, failed with
  | Some p', false => ret (LookupPhase account p')
  | _, _ => account_queue_task_done ;; ret LookupGet
  end.

Definition retriever_resume (arn : string) : M pos :=
  _retriever_loop_body arn ;; ret RetrieverGet.

(** [_results_loop] from [get] to the awaited [store_role_data]: the
    argument is built before the call is awaited. *)
Definition results_begin (data : record) : M pos :=
  _ <- lift (getitem data "arn") ;;
  r <- try_except (m <- results_prepare data ;; ret (Some m))
                  (λ e, results_except data e ;; ret None) ;;
  match r with
  | Some m => ret (ResultsStore data m)
  | None => results_queue_task_done ;; ret ResultsGet
  end.

Definition results_resume (data : record) (m : role_data) : M pos :=
  try_except (results_store m) (results_except data) ;;
  results_queue_task_done ;;
  ret ResultsGet.

(** A coroutine suspended at [p] runs to its next suspension point;
    [None] when it waits on an empty queue. *)
Definition resume (p : pos) (s : Runner) : option (result pos * Runner) :=
  match p with
  | LookupGet =>
      match account_queue_get s with
      | Some (account, s') => Some (Ok (LookupPhase account PConn), s')
      | None => None
      end
  | LookupPhase account ph => Some (lookup_resume account ph s)
  | RetrieverGet =>
      match arn_queue_get s with
      | Some (arn, s') => Some (Ok (RetrieverRun arn), s')
      | None => None
      end
  | RetrieverRun arn => Some (retriever_resume arn s)
  | ResultsGet =>
      match results_queue_get s with
      | Some (data, s') => Some (results_begin data s')
      | None => None
      end
  | ResultsStore data m => Some (results_resume data m s)
  end.

(** The event loop runs task [i].  A task with a pending cancellation
    request gets [CancelledError] at its [await]; it is not an
    [Exception], so no handler of the loops catches it.  An exception
    that leaves the loop ends the task. *)
Definition task_step (i : nat) (s : Runner) : option Runner :=
  match tasks s !! i with
  | Some t =>
      match task_status t with
      | Pending =>
          if must_cancel t
          then Some (set_tasks (<[i := mkTask (task_name t) (task_pos t) true Cancelled]>) s)
          else match resume (task_pos t) s with
               | Some (Ok p, s') =>
                   Some (set_tasks (<[i := mkTask (task_name t) p false Pending]>) s')
               | Some (Raise e, s') =>
                   Some (set_tasks (<[i := mkTask (task_name t) (task_pos t) false (Failed e)]>) s')
               | None => None
               end
      | _ => None
      end
  | None => None
  end.

End runner.

(** ** The [run] coroutine after its workers are created (lines 271-282) *)

Inductive main_pc : Type :=
  | JoinAccounts    (* line 271: await self.account_queue.join() *)
  | JoinArns        (* line 272 *)
  | JoinResults     (* line 273 *)
  | CleanUp         (* lines 276-280 *)
  | Gather          (* line 282 *)
  | Returned.

Record System : Type := mkSystem {
  runner : Runner;
  main : main_pc
}.

Definition task_finished (t : Task) : bool :=
  match task_status t with Pending => false | _ => true end.

Definition main_step (sys : System) : option System :=
  let s := runner sys in
  match main sys with
  | JoinAccounts =>
      if Queue.joinable (account_queue s) then Some (mkSystem s JoinArns) else None
  | JoinArns =>
      if Queue.joinable (arn_queue s) then Some (mkSystem s JoinResults) else None
  | JoinResults =>
      if Queue.joinable (results_queue s) then Some (mkSystem s CleanUp) else None
  | CleanUp =>
      Some (mkSystem (clean_up s).2 Gather)
  | Gather =>
      if forallb task_finished (tasks s) then Some (mkSystem s Returned) else None
  | Returned => None
  end.

(** One turn of the event loop: a worker task or [run] itself moves to
    its next suspension point. *)
Inductive step (env : Env) : System → System → Prop :=
  | step_task i sys s' :
      task_step env i (runner sys) = Some s' →
      step env sys (mkSystem s' (main sys))
  | step_main sys sys' :
      main_step sys = Some sys' →
      step env sys sys'.

(** [run(accounts, arns)] on a fresh runner: either the seeding raises,
    or the workers are created and [run] reaches its first [join]. *)
Inductive outcome : Type :=
  | RunRaised (e : exn) (s : Runner)
  | RunStarted (sys : System).

(** The plugins in [registered] were registered before [run] is
    called. *)
Definition start (env : Env) (registered : list RetrieverPlugin)
    (accounts arns : option (list string)) : outcome :=
  match run_start env accounts arns (set_retrievers (λ _, registered) init) with
  | (Ok _, s) => RunStarted (mkSystem s JoinAccounts)
  | (Raise e, s) => RunRaised e s
  end.

(** ** Vocabulary of the statements *)

(** The retriever chain as a left fold over the registered plugins. *)
Definition chain_step (arn : string) (acc : result record) (r : RetrieverPlugin) : result record :=
  match acc with
  | Ok data => run_plugin r arn data
  | Raise e => Raise e
  end.

Definition chain (arn : string) (rs : list RetrieverPlugin) (data : record) : result record :=
  fold_left (chain_step arn) rs (Ok data).

(** The calls and log records the chain leaves in the history. *)
Fixpoint chain_events (arn : string) (rs : list RetrieverPlugin) (data : record) : list event :=
  match rs with
  | [] => []
  | r :: rs' =>
      ECall (CRetriever (plugin_name r) arn) ::
      match run_plugin r arn data with
      | Ok data' => chain_events arn rs' data'
      | Raise _ => [ELog (LogRetrieverFailed (plugin_name r) arn)]
      end
  end.

(** [raise RetrieverException from e] *)
Definition wrap {A} (r : result A) : result A :=
  match r with
  | Ok a => Ok a
  | Raise e => Raise (RetrieverException "" (Some e))
  end.

(** A plugin that sets field [k] to [v] for [arn], and one that leaves
    field [k] as it found it. *)
Definition writes (r : RetrieverPlugin) (arn k : string) (v : value) : Prop :=
  ∀ data data', run_plugin r arn data = Ok data' → data' !! k = Some v.

Definition keeps (r : RetrieverPlugin) (arn k : string) : Prop :=
  ∀ data data', run_plugin r arn data = Ok data' → data' !! k = data !! k.

Definition retriever_call (arn : string) (r : RetrieverPlugin) : event :=
  ECall (CRetriever (plugin_name r) arn).

(** The arguments of the calls to [store_role_data], oldest first. *)
Definition stored (h : list event) : list role_data :=
  omap (λ e, match e with ECall (CStoreRoleData m) => Some m | _ => None end) h.

(** A queue never holds more items than it counts unfinished. *)
Definition queue_ok {A} (q : Queue A) : Prop :=
  length (items q) ≤ unfinished_tasks q.

(** The plugin of the scenarios: [addField(k, v)]. *)
Definition addField (k : string) (v : value) : RetrieverPlugin :=
  mkPlugin ("addField " +:+ k) (λ _ data, Ok (<[k := v]> data)).

(** A plugin that always fails. *)
Definition failing (e : exn) : RetrieverPlugin :=
  mkPlugin "failing" (λ _ _, Raise e).

(** The record of the scenario: identifier ["id:alpha"] after
    [addField("x", 1)] and [addField("y", 2)]. *)
Definition alpha_record : record :=
  <["y" := VInt 2]> (<["x" := VInt 1]> {["arn" := VStr "id:alpha"]}).

(** The state of a runner that took [data] from its results queue. *)
Definition holding_result (data : record) (s0 s : Runner) : Prop :=
  queue_ok (results_queue s0) ∧ results_queue_get s0 = Some (data, s).


(** *** What the enumeration of an account does

    Read off the collaborators' answers: the ARNs a phase queues, the
    exception that ends it, the phases that are performed before
    [_get_arns_for_account] returns or raises. *)

Definition phase_call (p : phase) (account : string) : call :=
  match p with
  | PConn => CConn account
  | PRoles => CListRoles account
  | PUsers => CListUsers account
  | PPolicies => CListPolicies account
  | PGroups => CListGroups account
  end.

Definition listed (r : result (list string)) : list string * option exn :=
  match r with
  | Ok l => (l, None)
  | Raise e => ([], Some e)
  end.

Definition phase_outcome (env : Env) (p : phase) (account : string) : list string * option exn :=
  match p with
  | PConn =>
      match boto3_cached_conn env account with
      | Ok _ => ([], None)
      | Raise e => ([], Some e)
      end
  | PRoles => listed (list_roles env account)
  | PUsers => listed (list_users env account)
  | PPolicies => (concat (list_policies env account).1, (list_policies env account).2)
  | PGroups => (concat (list_groups env account).1, (list_groups env account).2)
  end.

Definition put_event (arn : string) : event := EPut ArnQ (IStr arn).

Definition phase_events (env : Env) (account : string) (p : phase) : list event :=
  ECall (phase_call p account) :: map put_event (phase_outcome env p account).1.

(** The phases performed out of [ps], and the exception that stopped
    them. *)
Fixpoint enum_run (env : Env) (account : string) (ps : list phase) : list phase * option exn :=
  match ps with
  | [] => ([], None)
  | p :: ps' =>
      match (phase_outcome env p account).2 with
      | Some e => ([p], Some e)
      | None => (p :: (enum_run env account ps').1, (enum_run env account ps').2)
      end
  end.

Definition all_phases : list phase := [PConn; PRoles; PUsers; PPolicies; PGroups].

Definition performed (env : Env) (account : string) : list phase :=
  (enum_run env account all_phases).1.

Definition enum_error (env : Env) (account : string) : option exn :=
  (enum_run env account all_phases).2.

Definition emitted_by (env : Env) (account : string) (ps : list phase) : list string :=
  flat_map (λ p, (phase_outcome env p account).1) ps.

Definition events_of (env : Env) (account : string) (ps : list phase) : list event :=
  flat_map (phase_events env account) ps.

Definition emitted (env : Env) (account : string) : list string :=
  emitted_by env account (performed env account).

Definition enum_events (env : Env) (account : string) : list event :=
  events_of env account (performed env account).

(** One of the four enumeration calls raises for [account]. *)
Definition enumeration_call_raises (env : Env) (account : string) : Prop :=
  (∃ e, list_roles env account = Raise e)
  ∨ (∃ e, list_users env account = Raise e)
  ∨ (∃ e, (list_policies env account).2 = Some e)
  ∨ (∃ e, (list_groups env account).2 = Some e).

Definition is_arn_event (e : event) : Prop :=
  match e with
  | ECall _ | EPut ArnQ _ => True
  | _ => False
  end.

(** The state of a runner that took [account] from its account queue. *)
Definition holding_account (account : string) (s0 s : Runner) : Prop :=
  queue_ok (account_queue s0) ∧ account_queue_get s0 = Some (account, s).

(** The runner after [arns] were put on the ARN queue, with the events
    [evs] added to the history. *)
Definition queued (arns : list string) (evs : list event) (s : Runner) : Runner :=
  mkRunner (retrievers s) (account_queue s)
    (mkQueue (items (arn_queue s) ++ arns) (length arns + unfinished_tasks (arn_queue s)))
    (results_queue s) (failure_queue s) (failed_arns s) (tasks s)
    (history s ++ evs).

Definition result_of (oe : option exn) : result unit :=
  match oe with
  | None => Ok ()
  | Some e => Raise e
  end.


(** The ARNs that a stretch of history put on the ARN queue. *)
Definition arns_put (h : list event) : list string :=
  omap (λ e, match e with EPut ArnQ (IStr a) => Some a | _ => None end) h.


(** *** Seeding *)

(** The answer of the SWAG lookup; it does not depend on the runner. *)
Definition swag_lookup (env : Env) : result (list Account) :=
  (_get_swag_accounts env init).1.

(** The runner after seeding put [accts] on the account queue and
    [arns] on the ARN queue, with the events [evs] added to the
    history. *)
Definition seeded (accts arns : list string) (evs : list event) (s : Runner) : Runner :=
  mkRunner (retrievers s)
    (mkQueue (items (account_queue s) ++ accts)
             (length accts + unfinished_tasks (account_queue s)))
    (mkQueue (items (arn_queue s) ++ arns)
             (length arns + unfinished_tasks (arn_queue s)))
    (results_queue s) (failure_queue s) (failed_arns s) (tasks s)
    (history s ++ evs).

(** The events of the seeding from accounts: puts on the account queue,
    calls, the error record of the SWAG lookup. *)
Definition seed_event (e : event) : Prop :=
  match e with
  | EPut AccountQ _ | ECall _ | ELog (LogSwag _) => True
  | _ => False
  end.

(** A computation that only puts on the account queue and adds such
    events to the history. *)
Definition seeds {A} (m : M A) : Prop :=
  ∀ s, ∃ accts evs, (m s).2 = seeded accts [] evs s ∧ Forall seed_event evs.

(** A computation that never raises. *)
Definition total {A} (m : M A) : Prop :=
  ∀ s, ∃ a, (m s).1 = Ok a.

(** The tasks created by [create_workers]. *)
Definition workers (prefix : string) (p : pos) (n : nat) : list Task :=
  map (λ i, mkTask (prefix +:+ pretty i) p false Pending) (seq 0 n).


Definition swag_events (env : Env) : list event :=
  history (_get_swag_accounts env init).2.

(** The runner after lines 236-242: the access advisor retriever is
    registered and the four queues are new. *)
Definition fresh (env : Env) (s : Runner) : Runner :=
  mkRunner (retrievers s ++ [AccessAdvisorRetriever env])
    Queue.new Queue.new Queue.new Queue.new
    (failed_arns s) (tasks s) (history s).

Definition created (ts : list Task) : list event :=
  map (λ t, ECreateTask (task_name t)) ts.

(** The workers [run] creates. *)
Definition launched (env : Env) (arns : option (list string)) : list Task :=
  (if is_given arns then [] else workers "arn-lookup-worker-" LookupGet (num_workers env))
  ++ workers "retriever-worker-" RetrieverGet (num_workers env)
  ++ workers "results-worker-" ResultsGet (num_workers env).


(** ** Vocabulary for the scheduler *)

Definition main_rank (pc : main_pc) : nat :=
  match pc with
  | JoinAccounts => 0
  | JoinArns => 1
  | JoinResults => 2
  | CleanUp => 3
  | Gather => 4
  | Returned => 5
  end.

(** Workers that hold an item of their queue: taken, not yet
    acknowledged. *)
Definition busy_lookup (t : Task) : bool :=
  match task_status t, task_pos t with
  | Pending, LookupPhase _ _ => true
  | _, _ => false
  end.

Definition busy_retriever (t : Task) : bool :=
  match task_status t, task_pos t with
  | Pending, RetrieverRun _ => true
  | _, _ => false
  end.

Definition busy_results (t : Task) : bool :=
  match task_status t, task_pos t with
  | Pending, ResultsStore _ _ => true
  | _, _ => false
  end.

Definition count (f : Task → bool) (ts : list Task) : nat :=
  sum_list_with (λ t, if f t then 1 else 0) ts.

(** What holds of the queues in every state of a run. *)
Record safe (sys : System) : Prop := mkSafe {
  safe_accounts :
    length (items (account_queue (runner sys))) + count busy_lookup (tasks (runner sys))
    ≤ unfinished_tasks (account_queue (runner sys));
  safe_arns :
    length (items (arn_queue (runner sys))) + count busy_retriever (tasks (runner sys))
    ≤ unfinished_tasks (arn_queue (runner sys));
  safe_results :
    length (items (results_queue (runner sys))) + count busy_results (tasks (runner sys))
    ≤ unfinished_tasks (results_queue (runner sys));
  safe_join_accounts :
    1 ≤ main_rank (main sys) → unfinished_tasks (account_queue (runner sys)) = 0;
  safe_join_arns :
    2 ≤ main_rank (main sys) → unfinished_tasks (arn_queue (runner sys)) = 0;
  safe_join_results :
    3 ≤ main_rank (main sys) → unfinished_tasks (results_queue (runner sys)) = 0;
  safe_cancel :
    main_rank (main sys) ≤ 3 → Forall (λ t, must_cancel t = false) (tasks (runner sys))
}.


(** The events of lines 278-280 for the failures [xs]. *)
Definition reported (xs : list item) : list event :=
  flat_map (λ x, [EGet FailureQ x; ELog (LogFailure x)]) xs.

(** A schedule names who moves at each turn of the event loop: [Some i]
    for task [i], [None] for [run]. *)
Definition turn (env : Env) (who : option nat) (sys : System) : option System :=
  match who with
  | Some i =>
      match task_step env i (runner sys) with
      | Some s' => Some (mkSystem s' (main sys))
      | None => None
      end
  | None => main_step sys
  end.

Fixpoint run_schedule (env : Env) (sched : list (option nat)) (sys : System) : option System :=
  match sched with
  | [] => Some sys
  | who :: sched' =>
      match turn env who sys with
      | Some sys' => run_schedule env sched' sys'
      | None => None
      end
  end.


(** *** Failures and their report *)

(** The items put on the failure queue, and the items logged by the
    final report of [run], as the history shows them. *)
Definition failures_put (h : list event) : list item :=
  omap (λ e, match e with EPut FailureQ x => Some x | _ => None end) h.

Definition failures_logged (h : list event) : list item :=
  omap (λ e, match e with ELog (LogFailure x) => Some x | _ => None end) h.

(** Every failure put so far is either logged or still on the queue. *)
Definition accounted (s : Runner) : Prop :=
  failures_put (history s) = failures_logged (history s) ++ items (failure_queue s).

Definition accounts {A} (m : M A) : Prop :=
  ∀ s, accounted s → accounted (m s).2.

(** An event that is neither a put on the failure queue nor a record of
    the final report. *)
Definition quiet (e : event) : Prop :=
  match e with
  | EPut FailureQ _ | ELog (LogFailure _) => False
  | _ => True
  end.

Record tidy (sys : System) : Prop := mkTidy {
  tidy_accounted : accounted (runner sys);
  tidy_logged :
    4 ≤ main_rank (main sys) → items (failure_queue (runner sys)) = [];
  tidy_cancelled :
    4 ≤ main_rank (main sys) →
    Forall (λ t, task_status t = Pending → must_cancel t = true) (tasks (runner sys));
  tidy_finished :
    5 ≤ main_rank (main sys) → forallb task_finished (tasks (runner sys)) = true
}.


(** *** Progress of a run *)

(** A plugin that does not drop the ["arn"] field. *)
Definition keeps_arn (r : RetrieverPlugin) : Prop :=
  ∀ arn data data',
    run_plugin r arn data = Ok data' → is_Some (data !! "arn") → is_Some (data' !! "arn").

Inductive kind : Type := KLookup | KRetriever | KResults.

Definition kind_of (p : pos) : kind :=
  match p with
  | LookupGet | LookupPhase _ _ => KLookup
  | RetrieverGet | RetrieverRun _ => KRetriever
  | ResultsGet | ResultsStore _ _ => KResults
  end.

Definition has_kind (k : kind) (t : Task) : Prop := kind_of (task_pos t) = k.

(** What holds in every state of a run with at least one worker per
    pool and plugins that keep ["arn"]: no item is lost, no worker has
    ended before the clean-up. *)
Record live (sys : System) : Prop := mkLive {
  live_safe : safe sys;
  live_accounts :
    unfinished_tasks (account_queue (runner sys))
    ≤ length (items (account_queue (runner sys))) + count busy_lookup (tasks (runner sys));
  live_arns :
    unfinished_tasks (arn_queue (runner sys))
    ≤ length (items (arn_queue (runner sys))) + count busy_retriever (tasks (runner sys));
  live_results :
    unfinished_tasks (results_queue (runner sys))
    ≤ length (items (results_queue (runner sys))) + count busy_results (tasks (runner sys));
  live_pending :
    main_rank (main sys) ≤ 3 →
    Forall (λ t, task_status t = Pending) (tasks (runner sys));
  live_has_arn :
    Forall (λ d : record, is_Some (d !! "arn")) (items (results_queue (runner sys)));
  live_keeps_arn : Forall keeps_arn (retrievers (runner sys));
  live_lookup :
    items (account_queue (runner sys)) ≠ [] →
    Exists (has_kind KLookup) (tasks (runner sys));
  live_retriever : Exists (has_kind KRetriever) (tasks (runner sys));
  live_results_worker : Exists (has_kind KResults) (tasks (runner sys))
}.

(** The number of turns a run can still take is bounded by this
    measure. *)
Definition phase_cost (env : Env) (account : string) (p : phase) : nat :=
  1 + 4 * length (phase_outcome env p account).1.

Definition phases_from (p : phase) : list phase :=
  match p with
  | PConn => [PConn; PRoles; PUsers; PPolicies; PGroups]
  | PRoles => [PRoles; PUsers; PPolicies; PGroups]
  | PUsers => [PUsers; PPolicies; PGroups]
  | PPolicies => [PPolicies; PGroups]
  | PGroups => [PGroups]
  end.

Definition lookup_cost (env : Env) (account : string) (p : phase) : nat :=
  sum_list_with (phase_cost env account) (phases_from p).

Definition pos_cost (env : Env) (p : pos) : nat :=
  match p with
  | LookupGet | RetrieverGet | ResultsGet => 0
  | LookupPhase account ph => lookup_cost env account ph
  | RetrieverRun _ => 3
  | ResultsStore _ _ => 1
  end.

Definition task_cost (env : Env) (t : Task) : nat :=
  match task_status t with
  | Pending => 1 + pos_cost env (task_pos t)
  | _ => 0
  end.

Definition account_cost (env : Env) (account : string) : nat :=
  1 + lookup_cost env account PConn.

Arguments phase_cost : simpl never.
Arguments lookup_cost : simpl never.
Arguments account_cost : simpl never.

Definition turns_left (env : Env) (sys : System) : nat :=
  (5 - main_rank (main sys))
  + sum_list_with (task_cost env) (tasks (runner sys))
  + sum_list_with (account_cost env) (items (account_queue (runner sys)))
  + 4 * length (items (arn_queue (runner sys)))
  + 2 * length (items (results_queue (runner sys))).


(** *** Rounds and turns

    A worker resumed [n] times, or until it is back at its [get]. *)
Fixpoint to_next_get (env : Env) (n : nat) (p : pos) : M pos :=
  match n with
  | 0 => ret p
  | S n' =>
      match p with
      | LookupPhase account ph =>
          p' <- lookup_resume env account ph ;; to_next_get env n' p'
      | RetrieverRun arn =>
          p' <- retriever_resume arn ;; to_next_get env n' p'
      | ResultsStore data m =>
          p' <- results_resume env data m ;; to_next_get env n' p'
      | LookupGet | RetrieverGet | ResultsGet => ret p
      end
  end.

(** The end of a round of [_arn_lookup_loop]: the handler, if the
    enumeration raised, and the acknowledgement. *)
Definition lookup_finish (account : string) (failed : option exn) : M pos :=
  match failed with
  | Some e => arn_lookup_except account e
  | None => ret ()
  end ;;
  account_queue_task_done ;;
  ret LookupGet.


(** ** Concrete collaborators for the scenarios *)

Module Examples.

Definition swag_config : record :=
  <["filter" := VStr ""]> (<["service_enabled_requirement" := VNone]> ∅).

(** An access advisor retriever that finds nothing. *)
Definition access_advisor : RetrieverPlugin :=
  mkPlugin "access_advisor" (λ _ data, Ok (<["access_advisor" := VDict ∅]> data)).

(** [n] workers per pool, a SWAG that answers [inventory], accounts
    without entities, a persistence plugin that accepts everything. *)
Definition env (n : nat) (inventory : result (list Account)) : Env :=
  mkEnv n swag_config
    (λ _, inventory) (λ _ _, inventory)
    (λ _, Ok ()) (λ _, Ok []) (λ _, Ok []) (λ _, ([], None)) (λ _, ([], None))
    (λ _, Ok ())
    access_advisor.

(** Account 222222222222, named ["main"], with two aliases. *)
Definition prod_account : Account :=
  mkAccount "222222222222" (Some "main") "2" (Some ["prod"; "production"]) None.

(** The same account when its alias list names ["prod"] twice. *)
Definition prod_account_twice : Account :=
  mkAccount "222222222222" (Some "main") "2" (Some ["prod"; "prod"]) None.

(** An account whose role listing works, whose user listing fails. *)
Definition env_users_fail : Env :=
  mkEnv 1 swag_config
    (λ _, Ok []) (λ _ _, Ok [])
    (λ _, Ok ()) (λ _, Ok ["r1"; "r2"]) (λ _, Raise (ClientError "AccessDenied"))
    (λ _, ([], None)) (λ _, ([], None))
    (λ _, Ok ())
    access_advisor.

(** A runner with the chain of the scenario registered. *)
Definition alpha_runner : Runner :=
  set_retrievers (λ _, [addField "x" (VInt 1); addField "y" (VInt 2)]) init.

(** A runner whose second retriever fails. *)
Definition failing_runner : Runner :=
  set_retrievers (λ _, [addField "x" (VInt 1); failing (OtherException "boom");
                        addField "y" (VInt 2)]) init.

(** Runners with one item on a queue. *)
Definition with_arn (arn : string) (s : Runner) : Runner :=
  set_arn_queue (Queue.put arn) s.
Definition with_result (data : record) (s : Runner) : Runner :=
  set_results_queue (Queue.put data) s.
Definition with_account (account : string) (s : Runner) : Runner :=
  set_account_queue (Queue.put account) s.

Definition advised_record : record :=
  <["access_advisor" := VDict ∅]> {["arn" := VStr "id:alpha"]}.

End Examples.


(** Two schedules for a run on one ARN with one worker per pool (task 0
    is the retriever worker, task 1 the results worker): one in which
    the ARN goes through both stages, one for a chain that fails. *)
Definition full_run : list (option nat) :=
  [None; Some 0; Some 0; Some 1; Some 1; None; None; None; Some 0; Some 1; None].

Definition failed_run : list (option nat) :=
  [None; Some 0; Some 0; None; None; None; Some 1; Some 0; None].

(** The state in which [run] is when its workers are created. *)
Definition started (o : outcome) : System :=
  match o with
  | RunStarted sys => sys
  | RunRaised _ s => mkSystem s Returned
  end.

(** The state a schedule leads to. *)
Definition after (env : Env) (sched : list (option nat)) (sys : System) : System :=
  default sys (run_schedule env sched sys).


(** ** Vocabulary for the account tokens *)

(** A token that [re_account_id] matches. *)
Definition is_account_id (a : string) : Prop := re_account_id_match a = true.

#[global] Instance is_account_id_dec a : Decision (is_account_id a).
Proof. unfold is_account_id. apply _. Defined.

(** No two tokens in a row are matched by [re_account_id]. *)
Fixpoint spaced (l : list string) : bool :=
  match l with
  | a :: l' =>
      match l' with
      | b :: _ => negb (re_account_id_match a && re_account_id_match b)
      | [] => true
      end && spaced l'
  | [] => true
  end.

Definition account_puts (ids : list string) : list event :=
  map (λ a, EPut AccountQ (IStr a)) ids.

(** The account is asked for by its name or by one of the aliases that
    line 213 selects. *)
Definition requested (names : list string) (a : Account) : Prop :=
  name_in a names = true ∨ ∃ al, al ∈ account_aliases a ∧ al ∈ names.

(** What lines 209-217 put on the account queue for one SWAG entry. *)
Definition found (names : list string) (a : Account) : list string :=
  if name_in a names then [id a]
  else map (λ _, id a) (filter (λ al, al ∈ names) (account_aliases a)).

(** ** Vocabulary for the workers that end *)

(** A worker that ended with an exception. *)
Definition failed_task (t : Task) : bool :=
  match task_status t with Failed _ => true | _ => false end.

(** What holds in every state of a run: a worker ends with an exception
    at line 107 only, and the record it held is never acknowledged. *)
Record mourned (sys : System) : Prop := mkMourned {
  mourned_safe : safe sys;
  mourned_results :
    length (items (results_queue (runner sys)))
    + count busy_results (tasks (runner sys))
    + count failed_task (tasks (runner sys))
    ≤ unfinished_tasks (results_queue (runner sys));
  mourned_cause :
    Forall (λ t, ∀ e, task_status t = Failed e →
                      e = KeyError "arn" ∧ task_pos t = ResultsGet)
      (tasks (runner sys))
}.

(** ** Vocabulary for the trace of the ARNs *)

(** The ARNs for which [_retriever_loop] logged a failure (line 93), and
    the records put on the results queue, as the history shows them. *)
Definition arns_failed (h : list event) : list string :=
  omap (λ e, match e with ELog (LogRetrieverLoop arn _) => Some arn | _ => None end) h.

Definition results_put (h : list event) : list record :=
  omap (λ e, match e with EPut ResultsQ (IDict d) => Some d | _ => None end) h.

(** An event that is no put on the ARN queue or on the results queue
    and no failure record of [_retriever_loop]. *)
Definition inert (e : event) : Prop :=
  match e with
  | EPut ArnQ _ | EPut ResultsQ _ | ELog (LogRetrieverLoop _ _) => False
  | _ => True
  end.

(** A computation that leaves [failed_arns] and the items of the ARN
    queue alone and adds only events of the kind [P] to the history. *)
Definition adds (P : event → Prop) {A} (m : M A) : Prop :=
  ∀ s, failed_arns (m s).2 = failed_arns s
       ∧ items (arn_queue (m s).2) = items (arn_queue s)
       ∧ ∃ evs, history (m s).2 = history s ++ evs ∧ Forall P evs.

(** Whether a worker at this place holds an ARN it took from the ARN
    queue. *)
Definition holds_arn (p : pos) : nat :=
  match p with RetrieverRun _ => 1 | _ => 0 end.

Definition holds_arn_after (r : result pos) : nat :=
  match r with Ok p => holds_arn p | Raise _ => 0 end.

(** What holds of [failed_arns] and of the ARNs in every state of a
    run: [failed_arns] is the list of the logged failures; each of them
    was put on the failure queue; every ARN put on the ARN queue is
    waiting there, or with a retriever worker, or it gave a record on
    the results queue, or it is in [failed_arns]. *)
Record traced (sys : System) : Prop := mkTraced {
  traced_safe : safe sys;
  traced_failed :
    failed_arns (runner sys) = arns_failed (history (runner sys));
  traced_reported :
    map IStr (failed_arns (runner sys)) `sublist_of` failures_put (history (runner sys));
  traced_arns :
    length (arns_put (history (runner sys)))
    = length (items (arn_queue (runner sys)))
      + count busy_retriever (tasks (runner sys))
      + length (results_put (history (runner sys)))
      + length (failed_arns (runner sys))
}.

(** ** Vocabulary for the trace of the records *)

(** The records put on the failure queue (line 114) and the
    acknowledgements of the results queue (line 115), as the history
    shows them. *)
Definition records_failed (h : list event) : list record :=
  omap (λ e, match e with EPut FailureQ (IDict d) => Some d | _ => None end) h.

Definition results_acked (h : list event) : list unit :=
  omap (λ e, match e with ETaskDone ResultsQ => Some () | _ => None end) h.

(** An event that has nothing to do with the results: no put on the
    results queue, no record put on the failure queue, no
    acknowledgement of the results queue, no call of
    [store_role_data]. *)
Definition apart (e : event) : Prop :=
  match e with
  | EPut ResultsQ _ | EPut FailureQ (IDict _) | ETaskDone ResultsQ
  | ECall (CStoreRoleData _) => False
  | _ => True
  end.

(** Whether a worker at this place holds a record it took from the
    results queue, and whether its turn ended with an exception. *)
Definition holds_result (p : pos) : nat :=
  match p with ResultsStore _ _ => 1 | _ => 0 end.

Definition holds_result_after (r : result pos) : nat :=
  match r with Ok p => holds_result p | Raise _ => 0 end.

Definition ended (r : result pos) : nat :=
  match r with Ok _ => 0 | Raise _ => 1 end.

(** What holds of the records in every state of a run: every record
    put on the results queue is waiting there, or with a results worker,
    or was with a worker that ended, or was acknowledged; an
    acknowledgement follows a call of [store_role_data] or a put of the
    record on the failure queue, and no call is made without one. *)
Record settled (sys : System) : Prop := mkSettled {
  settled_mourned : mourned sys;
  settled_results :
    length (results_put (history (runner sys)))
    = length (items (results_queue (runner sys)))
      + count busy_results (tasks (runner sys))
      + count failed_task (tasks (runner sys))
      + length (results_acked (history (runner sys)));
  settled_stored :
    length (stored (history (runner sys)))
    ≤ length (results_acked (history (runner sys)));
  settled_acked :
    length (results_acked (history (runner sys)))
    ≤ length (stored (history (runner sys)))
      + length (records_failed (history (runner sys)))
}.

(** ** More concrete collaborators *)

Module Cases.

(** A persistence plugin that is down. *)
Definition env_store_fails : Env :=
  mkEnv 1 Examples.swag_config
    (λ _, Ok []) (λ _ _, Ok [])
    (λ _, Ok ()) (λ _, Ok []) (λ _, Ok []) (λ _, ([], None)) (λ _, ([], None))
    (λ _, Raise (OtherException "database is down"))
    Examples.access_advisor.

(** An account with two roles, one user, two pages of policies and one
    page of groups. *)
Definition env_entities : Env :=
  mkEnv 1 Examples.swag_config
    (λ _, Ok []) (λ _ _, Ok [])
    (λ _, Ok ()) (λ _, Ok ["r1"; "r2"]) (λ _, Ok ["u1"])
    (λ _, ([["p1"]; ["p2"; "p3"]], None)) (λ _, ([["g1"]], None))
    (λ _, Ok ())
    Examples.access_advisor.

(** An account that cannot be reached. *)
Definition env_no_connection : Env :=
  mkEnv 1 Examples.swag_config
    (λ _, Ok []) (λ _ _, Ok [])
    (λ _, Raise (ClientError "AccessDenied")) (λ _, Ok ["r1"]) (λ _, Ok [])
    (λ _, ([], None)) (λ _, ([], None))
    (λ _, Ok ())
    Examples.access_advisor.

(** A plugin that drops the ["arn"] field. *)
Definition drop_arn : RetrieverPlugin :=
  mkPlugin "drop_arn" (λ _ data, Ok (delete "arn" data)).

(** A record without ["arn"]. *)
Definition anonymous_record : record := {["access_advisor" := VDict ∅]}.

(** A schedule for a run on one ARN with one worker per pool, up to the
    turn in which the results worker takes the record. *)
Definition lost_run : list (option nat) := [None; Some 0; Some 0; Some 1].

(** A schedule for a run on one account with one worker per pool: the
    ARN lookup worker (task 0) takes the account and goes through the
    five steps of the enumeration, then [run] passes its first join. *)
Definition enumeration_run : list (option nat) :=
  [Some 0; Some 0; Some 0; Some 0; Some 0; Some 0; None].

End Cases.

(** ** Vocabulary for the trace of the accounts *)

(** The accounts put on the account queue and the accounts for which a
    connection was asked, as the history shows them. *)
Definition accounts_put (h : list event) : list string :=
  omap (λ e, match e with EPut AccountQ (IStr a) => Some a | _ => None end) h.

Definition connections (h : list event) : list string :=
  omap (λ e, match e with ECall (CConn a) => Some a | _ => None end) h.

(** An event that is no put on the account queue and no connection. *)
Definition offline (e : event) : Prop :=
  match e with
  | EPut AccountQ _ | ECall (CConn _) => False
  | _ => True
  end.

(** The account that a worker has taken from the account queue and has
    not yet connected to. *)
Definition waiting_at (p : pos) : list string :=
  match p with LookupPhase a PConn => [a] | _ => [] end.

Definition waiting_after (r : result pos) : list string :=
  match r with Ok p => waiting_at p | Raise _ => [] end.

Definition waiting (t : Task) : list string :=
  match task_status t with Pending => waiting_at (task_pos t) | _ => [] end.

(** What holds in every state of a run that was seeded with the accounts
    [seed]: the workers put nothing on the account queue, and the
    accounts of the seeding are those still on the queue, those taken by
    a worker that has not yet asked for the connection, and those for
    which the connection was asked. *)
Record enrolled (seed : list string) (sys : System) : Prop := mkEnrolled {
  enrolled_mourned : mourned sys;
  enrolled_put : accounts_put (history (runner sys)) = seed;
  enrolled_accounts :
    seed
    ≡ₚ items (account_queue (runner sys))
       ++ flat_map waiting (tasks (runner sys))
       ++ connections (history (runner sys))
}.

(** ** Vocabulary for the enumeration in a run *)

(** The accounts taken from the account queue, as the history shows
    them. *)
Definition taken (h : list event) : list string :=
  omap (λ e, match e with EGet AccountQ (IStr a) => Some a | _ => None end) h.

(** An event that is no put on the ARN queue and no get on the account
    queue. *)
Definition unlisted (e : event) : Prop :=
  match e with
  | EPut ArnQ _ | EGet AccountQ _ => False
  | _ => True
  end.

(** The ARNs that a worker in the middle of an enumeration will still
    put on the ARN queue. *)
Definition remaining (env : Env) (p : pos) : list string :=
  match p with
  | LookupPhase a ph => emitted_by env a (enum_run env a (phases_from ph)).1
  | _ => []
  end.

Definition remaining_after (env : Env) (r : result pos) : list string :=
  match r with Ok p => remaining env p | Raise _ => [] end.

Definition remaining_of (env : Env) (t : Task) : list string :=
  match task_status t with Pending => remaining env (task_pos t) | _ => [] end.

(** What holds in every state of a run that was seeded with the
    accounts [seed] and the ARNs [given]: the accounts taken so far and
    those on the queue are the accounts of the seeding; the ARNs put so
    far, with those that the workers in the middle of an enumeration
    will still put, are the given ARNs and the ARNs that the enumeration
    yields for the accounts taken. *)
Record enumerated (env : Env) (seed given : list string) (sys : System) : Prop :=
  mkEnumerated {
  enumerated_mourned : mourned sys;
  enumerated_taken :
    seed ≡ₚ taken (history (runner sys)) ++ items (account_queue (runner sys));
  enumerated_arns :
    arns_put (history (runner sys)) ++ flat_map (remaining_of env) (tasks (runner sys))
    ≡ₚ given ++ flat_map (emitted env) (taken (history (runner sys)))
}.


(** * Proofs *)

(** ** Reasoning about [M] *)

Lemma set_history_nil s : set_history (λ h, h ++ []) s = s.
Proof. destruct s; unfold set_history; simpl. by rewrite app_nil_r. Qed.

Lemma set_history_app l1 l2 s :
  set_history (λ h, h ++ l2) (set_history (λ h, h ++ l1) s)
  = set_history (λ h, h ++ (l1 ++ l2)) s.
Proof. destruct s; unfold set_history; simpl. by rewrite app_assoc. Qed.

Lemma chain_raise arn rs e :
  fold_left (chain_step arn) rs (Raise e) = Raise e.
Proof. induction rs as [|r rs IH]; simpl; auto. Qed.

Lemma chain_cons arn r rs data :
  chain arn (r :: rs) data =
  match run_plugin r arn data with
  | Ok data' => chain arn rs data'
  | Raise e => Raise e
  end.
Proof.
  unfold chain; simpl. destruct (run_plugin r arn data); [done|apply chain_raise].
Qed.

Lemma chain_app arn rs1 rs2 data :
  chain arn (rs1 ++ rs2) data =
  match chain arn rs1 data with
  | Ok data' => chain arn rs2 data'
  | Raise e => Raise e
  end.
Proof.
  unfold chain. rewrite fold_left_app.
  destruct (fold_left (chain_step arn) rs1 (Ok data)); [done|apply chain_raise].
Qed.

(** The monadic loop of [_run_retrievers] computes the fold and records
    the calls. *)
Lemma fold_call_retriever arn rs data s :
  fold_ rs (call_retriever arn) data s
  = (wrap (chain arn rs data), set_history (λ h, h ++ chain_events arn rs data) s).
Proof.
  revert data s. induction rs as [|r rs IH]; intros data s.
  - simpl. unfold ret, chain. simpl. by rewrite set_history_nil.
  - rewrite chain_cons. cbn [fold_ chain_events].
    unfold bind at 1. unfold call_retriever at 1.
    unfold try_except, bind, emit, modify, lift, log_error, raise, emit, modify.
    destruct (run_plugin r arn data) as [data'|e] eqn:Hr; simpl.
    + rewrite IH. by rewrite set_history_app.
    + by rewrite set_history_app.
Qed.

Lemma _run_retrievers_eq arn s :
  _run_retrievers arn s
  = (wrap (chain arn (retrievers s) {["arn" := VStr arn]}),
     set_history (λ h, h ++ chain_events arn (retrievers s) {["arn" := VStr arn]}) s).
Proof.
  unfold _run_retrievers, bind, gets. apply fold_call_retriever.
Qed.

Lemma chain_events_ok arn rs data final :
  chain arn rs data = Ok final →
  chain_events arn rs data = map (retriever_call arn) rs.
Proof.
  revert data. induction rs as [|r rs IH]; intros data; [done|].
  rewrite chain_cons. simpl.
  destruct (run_plugin r arn data) as [data'|e]; [|done].
  intros H. f_equal. by apply IH.
Qed.

Lemma chain_keeps arn rs data final k :
  Forall (λ r, keeps r arn k) rs →
  chain arn rs data = Ok final →
  final !! k = data !! k.
Proof.
  intros Hk. revert data. induction Hk as [|r rs Hr _ IH]; intros data.
  - unfold chain; simpl. by intros [= ->].
  - rewrite chain_cons. destruct (run_plugin r arn data) as [data'|e] eqn:E; [|done].
    intros H. rewrite (IH _ H). by apply Hr.
Qed.

Lemma chain_keeps_or_writes arn rs data final k :
  Forall (λ r, keeps r arn k ∨ ∃ v, writes r arn k v) rs →
  chain arn rs data = Ok final →
  is_Some (data !! k) →
  is_Some (final !! k).
Proof.
  intros Hk. revert data. induction Hk as [|r rs Hr _ IH]; intros data.
  - unfold chain; simpl. by intros [= ->].
  - rewrite chain_cons. destruct (run_plugin r arn data) as [data'|e] eqn:E; [|done].
    intros H Hd. apply (IH _ H).
    destruct Hr as [Hr|[v Hr]]; [by rewrite (Hr _ _ E)|by rewrite (Hr _ _ E)].
Qed.

(** C4: the retrievers are applied in registration order as a left
    fold from the record that holds only ["arn"], each on the record the
    previous one returned; every plugin is called once, in that order; a
    field written by some plugin is in the final record, and it has the
    value written by the last plugin that wrote it. *)
Theorem C4_chain_is_left_fold (arn : string) (s s' : Runner) (final : record) :
  _run_retrievers arn s = (Ok final, s') →
  fold_left (chain_step arn) (retrievers s) (Ok {["arn" := VStr arn]}) = Ok final
  ∧ history s' = history s ++ map (retriever_call arn) (retrievers s)
  ∧ (∀ pre r post k v,
       retrievers s = pre ++ r :: post →
       writes r arn k v →
       Forall (λ r', keeps r' arn k) post →
       final !! k = Some v)
  ∧ (∀ pre r post k v,
       retrievers s = pre ++ r :: post →
       writes r arn k v →
       Forall (λ r', keeps r' arn k ∨ ∃ v', writes r' arn k v') post →
       is_Some (final !! k)).
Proof.
  rewrite _run_retrievers_eq. intros [= Hw <-].
  destruct (chain arn (retrievers s) {["arn" := VStr arn]}) as [d|e] eqn:Hc;
    simpl in Hw; [|done].
  injection Hw as ->.
  split; [exact Hc|]. split.
  { destruct s; simpl in *. by rewrite (chain_events_ok _ _ _ _ Hc). }
  split.
  - intros pre r post k v Hrs Hr Hpost. rewrite Hrs in Hc.
    rewrite chain_app in Hc.
    destruct (chain arn pre _) as [d1|] eqn:H1; [|done].
    rewrite chain_cons in Hc.
    destruct (run_plugin r arn d1) as [d2|] eqn:H2; [|done].
    rewrite (chain_keeps _ _ _ _ _ Hpost Hc). by apply (Hr d1).
  - intros pre r post k v Hrs Hr Hpost. rewrite Hrs in Hc.
    rewrite chain_app in Hc.
    destruct (chain arn pre _) as [d1|] eqn:H1; [|done].
    rewrite chain_cons in Hc.
    destruct (run_plugin r arn d1) as [d2|] eqn:H2; [|done].
    apply (chain_keeps_or_writes _ _ _ _ _ Hpost Hc).
    by rewrite (Hr _ _ H2).
Qed.

Lemma chain_events_fail arn pre r post data data' e :
  chain arn pre data = Ok data' →
  run_plugin r arn data' = Raise e →
  chain_events arn (pre ++ r :: post) data
  = map (retriever_call arn) (pre ++ [r]) ++ [ELog (LogRetrieverFailed (plugin_name r) arn)].
Proof.
  revert data. induction pre as [|r0 pre IH]; intros data.
  - unfold chain; simpl. intros [= ->] ->. done.
  - rewrite chain_cons. simpl.
    destruct (run_plugin r0 arn data) as [d|]; [|done].
    intros H1 H2. f_equal. by apply IH.
Qed.

Lemma chain_fail arn pre r post data data' e :
  chain arn pre data = Ok data' →
  run_plugin r arn data' = Raise e →
  chain arn (pre ++ r :: post) data = Raise e.
Proof.
  intros H1 H2. rewrite chain_app, H1, chain_cons, H2. done.
Qed.

Lemma arn_queue_get_inv s0 arn s :
  arn_queue_get s0 = Some (arn, s) →
  items (arn_queue s0) = arn :: items (arn_queue s)
  ∧ unfinished_tasks (arn_queue s) = unfinished_tasks (arn_queue s0)
  ∧ retrievers s = retrievers s0
  ∧ results_queue s = results_queue s0
  ∧ failure_queue s = failure_queue s0
  ∧ history s = history s0 ++ [EGet ArnQ (IStr arn)].
Proof.
  unfold arn_queue_get, Queue.get.
  destruct (items (arn_queue s0)) as [|x rest] eqn:E; [done|].
  intros [= -> <-]. by simpl.
Qed.

Ltac munfold :=
  unfold account_queue_task_done, arn_queue_task_done, results_queue_task_done,
    account_queue_put, arn_queue_put, results_queue_put, failure_queue_put,
    log_error, emit, try_except, bind, modify, gets, lift, raise, ret,
    Queue.task_done, Queue.put in *;
  unfold set_retrievers, set_account_queue, set_arn_queue, set_results_queue,
    set_failure_queue, set_failed_arns, set_tasks, set_history in *;
  simpl in *.

(** The two ways a round of [_retriever_loop] ends. *)
Lemma retriever_body_raise arn s e n :
  chain arn (retrievers s) {["arn" := VStr arn]} = Raise e →
  unfinished_tasks (arn_queue s) = S n →
  _retriever_loop_body arn s =
  (Ok (),
   mkRunner (retrievers s) (account_queue s)
     (mkQueue (items (arn_queue s)) n) (results_queue s)
     (Queue.put (IStr arn) (failure_queue s)) (failed_arns s ++ [arn]) (tasks s)
     (history s ++ chain_events arn (retrievers s) {["arn" := VStr arn]}
        ++ [ELog (LogRetrieverLoop arn (RetrieverException "" (Some e)));
            EPut FailureQ (IStr arn); ETaskDone ArnQ])).
Proof.
  intros Hc Hn. unfold _retriever_loop_body.
  unfold try_except at 1, bind at 1 2. rewrite _run_retrievers_eq, Hc. clear Hc.
  generalize (chain_events arn (retrievers s) {["arn" := VStr arn]}). intros evs.
  destruct s; simpl in *. munfold. rewrite Hn. munfold.
  by rewrite <- !app_assoc.
Qed.

Lemma retriever_body_ok arn s data n :
  chain arn (retrievers s) {["arn" := VStr arn]} = Ok data →
  unfinished_tasks (arn_queue s) = S n →
  _retriever_loop_body arn s =
  (Ok (),
   mkRunner (retrievers s) (account_queue s)
     (mkQueue (items (arn_queue s)) n) (Queue.put data (results_queue s))
     (failure_queue s) (failed_arns s) (tasks s)
     (history s ++ map (retriever_call arn) (retrievers s)
        ++ [EPut ResultsQ (IDict data); ETaskDone ArnQ])).
Proof.
  intros Hc Hn. unfold _retriever_loop_body.
  unfold try_except at 1, bind at 1 2. rewrite _run_retrievers_eq, Hc.
  rewrite (chain_events_ok _ _ _ _ Hc). clear Hc.
  generalize (map (retriever_call arn) (retrievers s)). intros evs.
  destruct s; simpl in *. munfold. rewrite Hn. munfold.
  by rewrite <- !app_assoc.
Qed.

Lemma stored_app h1 h2 : stored (h1 ++ h2) = stored h1 ++ stored h2.
Proof. apply omap_app. Qed.

Lemma stored_retriever_calls arn rs : stored (map (retriever_call arn) rs) = [].
Proof. induction rs; simpl; auto. Qed.

(** C5: when the chain fails at plugin [r], the plugins after [r] are
    not called; [_run_retrievers] raises [RetrieverException] with the
    plugin's exception as its cause; the round of [_retriever_loop] puts
    the ARN on the failure queue (and in [failed_arns]), acknowledges it
    on the ARN queue, puts nothing on the results queue and calls the
    persistence plugin for nothing. *)
Theorem C5_chain_failure_is_isolated
    (arn : string) (s0 s : Runner) (pre post : list RetrieverPlugin)
    (r : RetrieverPlugin) (data : record) (e : exn) :
  queue_ok (arn_queue s0) →
  arn_queue_get s0 = Some (arn, s) →
  retrievers s = pre ++ r :: post →
  chain arn pre {["arn" := VStr arn]} = Ok data →
  run_plugin r arn data = Raise e →
  (_run_retrievers arn s).1 = Raise (RetrieverException "" (Some e))
  ∧ (_retriever_loop_body arn s).1 = Ok ()
  ∧ let s' := (_retriever_loop_body arn s).2 in
    history s' = history s
                 ++ map (retriever_call arn) (pre ++ [r])
                 ++ [ELog (LogRetrieverFailed (plugin_name r) arn);
                     ELog (LogRetrieverLoop arn (RetrieverException "" (Some e)));
                     EPut FailureQ (IStr arn);
                     ETaskDone ArnQ]
    ∧ failure_queue s' = Queue.put (IStr arn) (failure_queue s)
    ∧ failed_arns s' = failed_arns s ++ [arn]
    ∧ results_queue s' = results_queue s
    ∧ stored (history s') = stored (history s)
    ∧ items (arn_queue s') = items (arn_queue s)
    ∧ S (unfinished_tasks (arn_queue s')) = unfinished_tasks (arn_queue s0).
Proof.
  intros Hok Hget Hrs Hpre Hr.
  destruct (arn_queue_get_inv _ _ _ Hget) as (Hitems & Hunf & _).
  assert (∃ n, unfinished_tasks (arn_queue s) = S n) as [n Hn].
  { unfold queue_ok in Hok. rewrite Hitems in Hok. simpl in Hok.
    exists (pred (unfinished_tasks (arn_queue s0))). lia. }
  pose proof (chain_fail arn pre r post _ _ e Hpre Hr) as Hc.
  pose proof (chain_events_fail arn pre r post _ _ e Hpre Hr) as He.
  rewrite <- Hrs in Hc, He.
  split.
  { rewrite _run_retrievers_eq. simpl. by rewrite Hc. }
  rewrite (retriever_body_raise _ _ _ _ Hc Hn), He. simpl.
  repeat split; try done.
  - by rewrite <- !app_assoc.
  - rewrite !stored_app, stored_retriever_calls. simpl. by rewrite app_nil_r.
  - lia.
Qed.

(** ** The results loop *)

Lemma results_queue_get_inv s0 data s :
  results_queue_get s0 = Some (data, s) →
  items (results_queue s0) = data :: items (results_queue s)
  ∧ unfinished_tasks (results_queue s) = unfinished_tasks (results_queue s0)
  ∧ failure_queue s = failure_queue s0
  ∧ history s = history s0 ++ [EGet ResultsQ (IDict data)].
Proof.
  unfold results_queue_get, Queue.get.
  destruct (items (results_queue s0)) as [|x rest] eqn:E; [done|].
  intros [= -> <-]. by simpl.
Qed.

Lemma holding_result_unfinished data s0 s :
  holding_result data s0 s →
  ∃ n, unfinished_tasks (results_queue s) = S n
       ∧ unfinished_tasks (results_queue s0) = S n.
Proof.
  intros [Hok Hget].
  destruct (results_queue_get_inv _ _ _ Hget) as (Hitems & Hunf & _).
  unfold queue_ok in Hok. rewrite Hitems in Hok. simpl in Hok.
  exists (pred (unfinished_tasks (results_queue s0))). lia.
Qed.

(** A record without ["access_advisor"]: the [KeyError] is caught. *)
Lemma results_body_missing env data a s n :
  data !! "arn" = Some a →
  data !! "access_advisor" = None →
  unfinished_tasks (results_queue s) = S n →
  _results_loop_body env data s =
  (Ok (),
   mkRunner (retrievers s) (account_queue s) (arn_queue s)
     (mkQueue (items (results_queue s)) n)
     (Queue.put (IDict data) (failure_queue s)) (failed_arns s) (tasks s)
     (history s ++ [ELog (LogResultsLoop (KeyError "access_advisor"));
                    EPut FailureQ (IDict data); ETaskDone ResultsQ])).
Proof.
  intros Ha Hv Hn. unfold _results_loop_body, results_prepare, results_except, getitem.
  rewrite Ha, Hv. destruct s; munfold. rewrite Hn. munfold.
  by rewrite <- !app_assoc.
Qed.

(** A record with both fields: the call is made; its failure is caught. *)
Lemma results_body_store env data k v s n :
  data !! "arn" = Some (VStr k) →
  data !! "access_advisor" = Some v →
  unfinished_tasks (results_queue s) = S n →
  _results_loop_body env data s =
  (Ok (),
   match store_role_data env [(VStr k, v)] with
   | Ok _ =>
       mkRunner (retrievers s) (account_queue s) (arn_queue s)
         (mkQueue (items (results_queue s)) n)
         (failure_queue s) (failed_arns s) (tasks s)
         (history s ++ [ECall (CStoreRoleData [(VStr k, v)]); ETaskDone ResultsQ])
   | Raise e =>
       mkRunner (retrievers s) (account_queue s) (arn_queue s)
         (mkQueue (items (results_queue s)) n)
         (Queue.put (IDict data) (failure_queue s)) (failed_arns s) (tasks s)
         (history s ++ [ECall (CStoreRoleData [(VStr k, v)]);
                        ELog (LogResultsLoop e);
                        EPut FailureQ (IDict data); ETaskDone ResultsQ])
   end).
Proof.
  intros Ha Hv Hn.
  unfold _results_loop_body, results_prepare, results_store, results_except, getitem.
  rewrite Ha, Hv. destruct s; munfold.
  destruct (store_role_data env [(VStr k, v)]); munfold; rewrite Hn; munfold;
    by rewrite <- !app_assoc.
Qed.

(** C1, as the code has it: for a record taken from the results queue
    that holds an ["access_advisor"] field, the round makes exactly one
    call to [store_role_data], with the one-entry mapping from the
    record's ["arn"] to that field (not to the whole record), and
    acknowledges the item; the record of the scenario has no such field,
    and no call is made for it. *)
Theorem C1_write_is_access_advisor_entry
    (env : Env) (data : record) (k : string) (v : value) (s0 s : Runner) :
  holding_result data s0 s →
  data !! "arn" = Some (VStr k) →
  data !! "access_advisor" = Some v →
  (_results_loop_body env data s).1 = Ok ()
  ∧ stored (history (_results_loop_body env data s).2)
    = stored (history s) ++ [[(VStr k, v)]]
  ∧ S (unfinished_tasks (results_queue (_results_loop_body env data s).2))
    = unfinished_tasks (results_queue s0)
  ∧ (∀ t0 t, holding_result alpha_record t0 t →
       stored (history (_results_loop_body env alpha_record t).2) = stored (history t)).
Proof.
  intros Hh Ha Hv.
  destruct (holding_result_unfinished _ _ _ Hh) as (n & Hn & Hn0).
  rewrite (results_body_store env data k v s n Ha Hv Hn).
  split; [done|]. split; [|split].
  - destruct (store_role_data env [(VStr k, v)]); simpl;
      rewrite stored_app; done.
  - destruct (store_role_data env [(VStr k, v)]); simpl; lia.
  - intros t0 t Ht.
    destruct (holding_result_unfinished _ _ _ Ht) as (m & Hm & _).
    rewrite (results_body_missing env alpha_record (VStr "id:alpha") t m); try done.
    simpl. rewrite stored_app. simpl. by rewrite app_nil_r.
Qed.


(** ** The ARN lookup loop *)

Lemma queued_nil s : queued [] [] s = s.
Proof. destruct s as [? ? [] ? ? ? ? ?]. unfold queued; simpl. by rewrite !app_nil_r. Qed.

Lemma queued_queued l1 e1 l2 e2 s :
  queued l2 e2 (queued l1 e1 s) = queued (l1 ++ l2) (e1 ++ e2) s.
Proof.
  unfold queued; simpl. f_equal.
  - f_equal; [by rewrite app_assoc|rewrite length_app; lia].
  - by rewrite app_assoc.
Qed.

Lemma emit_queued e s : emit e s = (Ok (), queued [] [e] s).
Proof. destruct s as [? ? [] ? ? ? ? ?]. unfold queued. munfold. by rewrite app_nil_r. Qed.

Lemma arn_queue_put_queued a s : arn_queue_put a s = (Ok (), queued [a] [put_event a] s).
Proof. destruct s as [? ? [] ? ? ? ? ?]. unfold queued. by munfold. Qed.

Lemma for_arn_queue_put l s :
  for_ l arn_queue_put s = (Ok (), queued l (map put_event l) s).
Proof.
  revert s. induction l as [|a l IH]; intros s; simpl.
  - unfold ret. by rewrite queued_nil.
  - unfold bind. rewrite arn_queue_put_queued, IH, queued_queued. done.
Qed.

Lemma for_pages_queued pages s :
  for_ pages (λ page, for_ page arn_queue_put) s
  = (Ok (), queued (concat pages) (map put_event (concat pages)) s).
Proof.
  revert s. induction pages as [|page pages IH]; intros s; simpl.
  - unfold ret. by rewrite queued_nil.
  - unfold bind. rewrite for_arn_queue_put, IH, queued_queued, map_app. done.
Qed.

Lemma put_pages_queued pages s :
  put_pages pages s
  = (result_of pages.2, queued (concat pages.1) (map put_event (concat pages.1)) s).
Proof.
  unfold put_pages, bind. rewrite for_pages_queued.
  destruct pages as [ps [e|]]; done.
Qed.

Lemma run_phase_queued env p account s :
  run_phase env p account s
  = (result_of (phase_outcome env p account).2,
     queued (phase_outcome env p account).1 (phase_events env account p) s).
Proof.
  unfold phase_events.
  destruct p; simpl; unfold connect, put_roles, put_users, put_policies, put_groups;
    unfold bind; rewrite emit_queued.
  - unfold lift. destruct (boto3_cached_conn env account) as [[]|e]; done.
  - unfold lift. destruct (list_roles env account) as [l|e]; simpl; [|done].
    by rewrite for_arn_queue_put, queued_queued.
  - unfold lift. destruct (list_users env account) as [l|e]; simpl; [|done].
    by rewrite for_arn_queue_put, queued_queued.
  - by rewrite put_pages_queued, queued_queued.
  - by rewrite put_pages_queued, queued_queued.
Qed.

Lemma for_run_phase env account ps s :
  for_ ps (λ p, run_phase env p account) s
  = (result_of (enum_run env account ps).2,
     queued (emitted_by env account (enum_run env account ps).1)
            (events_of env account (enum_run env account ps).1) s).
Proof.
  revert s. induction ps as [|p ps IH]; intros s; simpl.
  - unfold ret. by rewrite queued_nil.
  - unfold bind. rewrite run_phase_queued.
    destruct (phase_outcome env p account) as [l [e|]] eqn:E; simpl.
    + unfold emitted_by, events_of, phase_events. simpl. rewrite E. simpl.
      by rewrite !app_nil_r.
    + rewrite IH, queued_queued. unfold emitted_by, events_of, phase_events. simpl.
      by rewrite E.
Qed.

Lemma _get_arns_for_account_eq env account s :
  _get_arns_for_account env account s
  = (result_of (enum_error env account),
     queued (emitted env account) (enum_events env account) s).
Proof.
  unfold enum_error, emitted, enum_events, performed.
  rewrite <- for_run_phase. unfold _get_arns_for_account, all_phases. simpl.
  unfold bind, ret.
  destruct (connect env account s) as [[[]|] ?]; [|done].
  destruct (put_roles env account _) as [[[]|] ?]; [|done].
  destruct (put_users env account _) as [[[]|] ?]; [|done].
  destruct (put_policies env account _) as [[[]|] ?]; [|done].
  destruct (put_groups env account _) as [[[]|] ?]; done.
Qed.

Lemma account_queue_get_inv s0 account s :
  account_queue_get s0 = Some (account, s) →
  items (account_queue s0) = account :: items (account_queue s)
  ∧ unfinished_tasks (account_queue s) = unfinished_tasks (account_queue s0)
  ∧ arn_queue s = arn_queue s0
  ∧ failure_queue s = failure_queue s0
  ∧ history s = history s0 ++ [EGet AccountQ (IStr account)].
Proof.
  unfold account_queue_get, Queue.get.
  destruct (items (account_queue s0)) as [|x rest] eqn:E; [done|].
  intros [= -> <-]. by simpl.
Qed.

Lemma holding_account_unfinished account s0 s :
  holding_account account s0 s →
  ∃ n, unfinished_tasks (account_queue s) = S n
       ∧ unfinished_tasks (account_queue s0) = S n.
Proof.
  intros [Hok Hget].
  destruct (account_queue_get_inv _ _ _ Hget) as (Hitems & Hunf & _).
  unfold queue_ok in Hok. rewrite Hitems in Hok. simpl in Hok.
  exists (pred (unfinished_tasks (account_queue s0))). lia.
Qed.

(** A round of [_arn_lookup_loop]. *)
Lemma lookup_body_eq env account s n :
  unfinished_tasks (account_queue s) = S n →
  _arn_lookup_loop_body env account s =
  (Ok (),
   mkRunner (retrievers s) (mkQueue (items (account_queue s)) n)
     (mkQueue (items (arn_queue s) ++ emitted env account)
              (length (emitted env account) + unfinished_tasks (arn_queue s)))
     (results_queue s)
     (match enum_error env account with
      | Some _ => Queue.put (IStr account) (failure_queue s)
      | None => failure_queue s
      end)
     (failed_arns s) (tasks s)
     (history s ++ enum_events env account
        ++ match enum_error env account with
           | Some e => [ELog (LogArnLookup e); EPut FailureQ (IStr account)]
           | None => []
           end
        ++ [ETaskDone AccountQ])).
Proof.
  intros Hn. unfold _arn_lookup_loop_body, arn_lookup_except.
  unfold try_except at 1, bind at 1. rewrite _get_arns_for_account_eq.
  destruct (enum_error env account) as [e|]; destruct s; unfold queued; munfold;
    rewrite Hn; munfold; by rewrite <- !app_assoc.
Qed.

Lemma events_of_arn_events env account ps :
  Forall is_arn_event (events_of env account ps).
Proof.
  unfold events_of. induction ps as [|p ps IH]; simpl; [constructor|].
  constructor; [done|]. apply Forall_app. split; [|done].
  apply Forall_forall. intros e [a [-> _]]%list_elem_of_fmap. done.
Qed.

Lemma arns_put_put_events l : arns_put (map put_event l) = l.
Proof. induction l as [|a l IH]; simpl; [done|]. unfold arns_put in *. simpl. by f_equal. Qed.

Lemma arns_put_events_of env account ps :
  arns_put (events_of env account ps) = emitted_by env account ps.
Proof.
  unfold events_of, emitted_by. induction ps as [|p ps IH]; simpl; [done|].
  unfold arns_put in *. simpl. rewrite omap_app. f_equal; [|done].
  apply arns_put_put_events.
Qed.

Lemma enum_run_complete env account ps :
  (enum_run env account ps).2 = None → (enum_run env account ps).1 = ps.
Proof.
  induction ps as [|p ps IH]; simpl; [done|].
  destruct (phase_outcome env p account).2; simpl; [done|].
  intros H. f_equal. by apply IH.
Qed.

Lemma phase_call_in_events env account p ps :
  p ∈ ps → ECall (phase_call p account) ∈ events_of env account ps.
Proof.
  intros Hp. unfold events_of. apply list_elem_of_In, in_flat_map.
  exists p. split; [by apply list_elem_of_In|]. by left.
Qed.

Lemma enumeration_call_raises_error env account :
  enumeration_call_raises env account → is_Some (enum_error env account).
Proof.
  unfold enumeration_call_raises, enum_error, all_phases. simpl. unfold listed.
  intros H.
  destruct (boto3_cached_conn env account); simpl; [|by eexists].
  destruct (list_roles env account); simpl; [|by eexists].
  destruct (list_users env account); simpl; [|by eexists].
  destruct (list_policies env account) as [? [?|]]; simpl; [by eexists|].
  destruct (list_groups env account) as [? [?|]]; simpl; [by eexists|].
  destruct H as [[? ?]|[[? ?]|[[? ?]|[? ?]]]]; done.
Qed.

(** C6: a round of [_arn_lookup_loop] for an account taken from the
    queue never raises; its events are those of the enumeration (calls
    and ARN puts only), then, if the enumeration raised, one log record
    and one put of the account on the failure queue, and last the
    acknowledgement of the account.  The ARNs put before the exception
    stay at the end of the ARN queue.  When no call raised, all the
    calls were made before the acknowledgement.  When one of the four
    enumeration calls raises, the enumeration raises. *)
Theorem C6_enumeration_failure_keeps_emitted
    (env : Env) (account : string) (s0 s : Runner) :
  holding_account account s0 s →
  (_arn_lookup_loop_body env account s).1 = Ok ()
  ∧ (enumeration_call_raises env account →
     ∃ e, (_get_arns_for_account env account s).1 = Raise e)
  ∧ let s' := (_arn_lookup_loop_body env account s).2 in
    S (unfinished_tasks (account_queue s')) = unfinished_tasks (account_queue s0)
    ∧ ∃ enum tail,
        history s' = history s ++ enum ++ tail ++ [ETaskDone AccountQ]
        ∧ Forall is_arn_event enum
        ∧ items (arn_queue s') = items (arn_queue s) ++ arns_put enum
        ∧ unfinished_tasks (arn_queue s')
          = length (arns_put enum) + unfinished_tasks (arn_queue s)
        ∧ (∀ e, (_get_arns_for_account env account s).1 = Raise e →
             tail = [ELog (LogArnLookup e); EPut FailureQ (IStr account)]
             ∧ failure_queue s' = Queue.put (IStr account) (failure_queue s))
        ∧ ((_get_arns_for_account env account s).1 = Ok () →
             tail = []
             ∧ failure_queue s' = failure_queue s
             ∧ Forall (λ p, ECall (phase_call p account) ∈ enum) all_phases).
Proof.
  intros Hh. destruct (holding_account_unfinished _ _ _ Hh) as (n & Hn & Hn0).
  rewrite (lookup_body_eq env account s n Hn), _get_arns_for_account_eq. simpl.
  split; [done|]. split.
  { intros [e He]%enumeration_call_raises_error. rewrite He. by exists e. }
  split; [lia|].
  exists (enum_events env account),
    (match enum_error env account with
     | Some e => [ELog (LogArnLookup e); EPut FailureQ (IStr account)]
     | None => []
     end).
  unfold enum_events, emitted. rewrite arns_put_events_of.
  split; [done|]. split; [apply events_of_arn_events|].
  split; [done|]. split; [done|]. split.
  - intros e He. destruct (enum_error env account); simpl in He; [|done].
    by injection He as ->.
  - intros He. destruct (enum_error env account) eqn:E; simpl in He; [done|].
    split; [done|]. split; [done|].
    unfold performed. rewrite (enum_run_complete _ _ _ E).
    apply Forall_forall. intros p Hp. by apply phase_call_in_events.
Qed.

(** ** Seeding *)

Lemma seeded_nil s : seeded [] [] [] s = s.
Proof.
  destruct s as [? [] [] ? ? ? ? ?]. unfold seeded; simpl. by rewrite !app_nil_r.
Qed.

Lemma seeded_seeded a1 n1 e1 a2 n2 e2 s :
  seeded a2 n2 e2 (seeded a1 n1 e1 s) = seeded (a1 ++ a2) (n1 ++ n2) (e1 ++ e2) s.
Proof.
  unfold seeded; simpl. f_equal.
  - f_equal; [by rewrite app_assoc|rewrite length_app; lia].
  - f_equal; [by rewrite app_assoc|rewrite length_app; lia].
  - by rewrite app_assoc.
Qed.

Lemma seeds_ret {A} (a : A) : seeds (ret a).
Proof. intros s. exists [], []. simpl. by rewrite seeded_nil. Qed.

Lemma seeds_lift {A} (r : result A) : seeds (lift r).
Proof. intros s. exists [], []. simpl. by rewrite seeded_nil. Qed.

Lemma seeds_raise {A} (e : exn) : seeds (@raise A e).
Proof. intros s. exists [], []. simpl. by rewrite seeded_nil. Qed.

Lemma seeds_emit e : seed_event e → seeds (emit e).
Proof.
  intros He s. exists [], [e]. split; [|by constructor].
  destruct s as [? [] [] ? ? ? ? ?].
  unfold seeded. munfold. by rewrite !app_nil_r.
Qed.

Lemma seeds_bind {A B} (m : M A) (k : A → M B) :
  seeds m → (∀ a, seeds (k a)) → seeds (bind m k).
Proof.
  intros Hm Hk s. destruct (Hm s) as (a1 & e1 & H1 & F1).
  unfold bind. destruct (m s) as [[a|e] s1]; simpl in *; subst s1.
  - destruct (Hk a (seeded a1 [] e1 s)) as (a2 & e2 & H2 & F2).
    rewrite H2, seeded_seeded. eexists _, _. split; [done|]. by apply Forall_app.
  - eauto.
Qed.

Lemma seeds_try_except {A} (m : M A) (h : exn → M A) :
  seeds m → (∀ e, seeds (h e)) → seeds (try_except m h).
Proof.
  intros Hm Hh s. destruct (Hm s) as (a1 & e1 & H1 & F1).
  unfold try_except. destruct (m s) as [[a|e] s1]; simpl in *; subst s1.
  - eauto.
  - destruct (Hh e (seeded a1 [] e1 s)) as (a2 & e2 & H2 & F2).
    rewrite H2, seeded_seeded. eexists _, _. split; [done|]. by apply Forall_app.
Qed.

Lemma seeds_account_queue_put x : seeds (account_queue_put x).
Proof.
  intros s. exists [x], [EPut AccountQ (IStr x)]. split; [|by repeat constructor].
  destruct s as [? [] [] ? ? ? ? ?].
  unfold seeded. munfold. by rewrite !app_nil_r.
Qed.

Lemma seeds_for {A} (l : list A) (body : A → M unit) :
  (∀ x, seeds (body x)) → seeds (for_ l body).
Proof.
  intros Hb. induction l as [|x l IH]; simpl.
  - apply seeds_ret.
  - apply seeds_bind; auto.
Qed.

Lemma total_ret {A} (a : A) : total (ret a).
Proof. intros s. by exists a. Qed.

Lemma total_bind {A B} (m : M A) (k : A → M B) :
  total m → (∀ a, total (k a)) → total (bind m k).
Proof.
  intros Hm Hk s. destruct (Hm s) as [a Ha]. unfold bind.
  destruct (m s) as [[a'|e] s1]; simpl in *; [|done].
  apply Hk.
Qed.

Lemma total_account_queue_put x : total (account_queue_put x).
Proof. intros s. by exists (). Qed.

Lemma total_for {A} (l : list A) (body : A → M unit) :
  (∀ x, total (body x)) → total (for_ l body).
Proof.
  intros Hb. induction l as [|x l IH]; simpl.
  - apply total_ret.
  - apply total_bind; auto.
Qed.

Lemma seeds_queue_account_ids i accounts : seeds (queue_account_ids i accounts).
Proof.
  funelim (queue_account_ids i accounts).
  - destruct (re_account_id_match account).
    + apply seeds_bind; [apply seeds_account_queue_put|]. intros _. apply (H () init).
    + apply (H0 init).
  - apply seeds_ret.
Qed.

Lemma total_queue_account_ids i accounts : total (queue_account_ids i accounts).
Proof.
  funelim (queue_account_ids i accounts).
  - destruct (re_account_id_match account).
    + apply total_bind; [apply total_account_queue_put|]. intros _. apply (H () init).
    + apply (H0 init).
  - apply total_ret.
Qed.

Lemma _get_swag_accounts_eq env s :
  _get_swag_accounts env s
  = (swag_lookup env, set_history (λ h, h ++ swag_events env) s).
Proof.
  unfold swag_lookup, swag_events, _get_swag_accounts. destruct s. munfold.
  repeat (case_match; simplify_eq; munfold; try done);
    by rewrite ?app_nil_r, <- ?app_assoc.
Qed.

Lemma seeds__get_swag_accounts env : seeds (_get_swag_accounts env).
Proof.
  unfold _get_swag_accounts.
  apply seeds_try_except.
  - apply seeds_bind; [apply seeds_lift|]. intros filter.
    apply seeds_bind; [by apply seeds_emit|]. intros _.
    apply seeds_bind; [apply seeds_lift|]. intros all_accounts.
    apply seeds_bind; [apply seeds_lift|]. intros swag_service.
    destruct (truthy swag_service).
    + apply seeds_bind; [by apply seeds_emit|]. intros _. apply seeds_lift.
    + apply seeds_bind; [apply seeds_lift|]. intros filter'.
      apply seeds_bind; [by apply seeds_emit|]. intros _. apply seeds_lift.
  - intros e. destruct (is_swag_failure e); [|apply seeds_raise].
    apply seeds_bind; [by apply seeds_emit|]. intros _. apply seeds_raise.
Qed.

Lemma total_queue_found accounts (all_accounts : list Account) :
  total (for_ all_accounts (λ account,
    if name_in account accounts
    then account_queue_put (id account)
    else for_ (account_aliases account) (λ alias,
           if bool_decide (alias ∈ accounts)
           then account_queue_put (id account)
           else ret ()))).
Proof.
  apply total_for. intros a. destruct (name_in a accounts).
  - apply total_account_queue_put.
  - apply total_for. intros x. case_bool_decide.
    + apply total_account_queue_put.
    + apply total_ret.
Qed.

Lemma seeds_queue_found accounts (all_accounts : list Account) :
  seeds (for_ all_accounts (λ account,
    if name_in account accounts
    then account_queue_put (id account)
    else for_ (account_aliases account) (λ alias,
           if bool_decide (alias ∈ accounts)
           then account_queue_put (id account)
           else ret ()))).
Proof.
  apply seeds_for. intros a. destruct (name_in a accounts).
  - apply seeds_account_queue_put.
  - apply seeds_for. intros x. case_bool_decide.
    + apply seeds_account_queue_put.
    + apply seeds_ret.
Qed.

Lemma seeds__queue_accounts env l : seeds (_queue_accounts env l).
Proof.
  unfold _queue_accounts.
  apply seeds_bind; [apply seeds_queue_account_ids|]. intros accounts.
  apply seeds_bind; [apply seeds__get_swag_accounts|]. intros all_accounts.
  apply seeds_queue_found.
Qed.

Lemma seeds__queue_all_accounts env : seeds (_queue_all_accounts env).
Proof.
  unfold _queue_all_accounts.
  apply seeds_bind; [apply seeds__get_swag_accounts|]. intros all_accounts.
  apply seeds_for. intros a. apply seeds_account_queue_put.
Qed.

(** The seeding from accounts raises exactly when the SWAG lookup does,
    with the same exception. *)
Lemma _queue_accounts_result env l s :
  (_queue_accounts env l s).1
  = match swag_lookup env with Ok _ => Ok () | Raise e => Raise e end.
Proof.
  unfold _queue_accounts, bind.
  destruct (total_queue_account_ids 0 l s) as [accounts Ha].
  destruct (queue_account_ids 0 l s) as [[accounts'|] s1]; simpl in Ha; [|done].
  rewrite _get_swag_accounts_eq.
  destruct (swag_lookup env) as [all_accounts|e]; [|done].
  destruct (total_queue_found accounts' all_accounts
              (set_history (λ h, h ++ swag_events env) s1)) as [[] Hb].
  exact Hb.
Qed.

Lemma _queue_all_accounts_result env s :
  (_queue_all_accounts env s).1
  = match swag_lookup env with Ok _ => Ok () | Raise e => Raise e end.
Proof.
  unfold _queue_all_accounts, bind. rewrite _get_swag_accounts_eq.
  destruct (swag_lookup env) as [all_accounts|e]; [|done].
  destruct (total_for all_accounts (λ account, account_queue_put (id account))
              (λ a, total_account_queue_put (id a))
              (set_history (λ h, h ++ swag_events env) s)) as [[] Hb].
  exact Hb.
Qed.

Lemma for_create_task prefix p a n s :
  for_ (seq a n) (λ i, create_task (prefix +:+ pretty i) p) s
  = (Ok (),
     let ts := map (λ i, mkTask (prefix +:+ pretty i) p false Pending) (seq a n) in
     mkRunner (retrievers s) (account_queue s) (arn_queue s) (results_queue s)
       (failure_queue s) (failed_arns s) (tasks s ++ ts) (history s ++ created ts)).
Proof.
  revert a s. induction n as [|n IH]; intros a s.
  - destruct s. simpl. unfold ret. by rewrite !app_nil_r.
  - cbn [seq for_]. unfold bind at 1. unfold create_task at 1.
    destruct s. munfold. rewrite IH. simpl. by rewrite <- !app_assoc.
Qed.

Lemma create_workers_eq env prefix p s :
  create_workers env prefix p s
  = (Ok (),
     mkRunner (retrievers s) (account_queue s) (arn_queue s) (results_queue s)
       (failure_queue s) (failed_arns s)
       (tasks s ++ workers prefix p (num_workers env))
       (history s ++ created (workers prefix p (num_workers env)))).
Proof. apply for_create_task. Qed.

Lemma for_arn_queue_put_seeded l s :
  for_ l arn_queue_put s = (Ok (), seeded [] l (map put_event l) s).
Proof.
  rewrite for_arn_queue_put. destruct s as [? [] ? ? ? ? ? ?].
  unfold queued, seeded; simpl. by rewrite !app_nil_r.
Qed.

(** [run] up to the first [join], when ARNs are given. *)
Lemma run_start_given env accounts arns s :
  is_given arns = true →
  run_start env accounts arns s =
  (Ok (),
   mkRunner (retrievers s ++ [AccessAdvisorRetriever env])
     Queue.new (mkQueue (given arns) (length (given arns)))
     Queue.new Queue.new (failed_arns s)
     (tasks s ++ launched env arns)
     (history s ++ map put_event (given arns) ++ created (launched env arns))).
Proof.
  intros Hg. unfold run_start, register_retriever.
  destruct s as [rs aq nq rq fq fa ts h].
  unfold bind, modify, ret. rewrite Hg. unfold _queue_arns.
  unfold set_retrievers, set_arn_queue, set_account_queue, set_results_queue,
    set_failure_queue. simpl.
  rewrite for_arn_queue_put_seeded. unfold seeded. simpl.
  rewrite !create_workers_eq. simpl.
  unfold launched. rewrite Hg. simpl.
  do 2 f_equal.
  - f_equal. lia.
  - by rewrite <- !app_assoc.
  - rewrite <- !app_assoc. unfold created. by rewrite map_app.
Qed.

(** [run] up to the first [join], when the accounts are looked up. *)
Lemma run_start_lookup env accounts arns s :
  is_given arns = false →
  ∃ accts evs,
    Forall seed_event evs ∧
    run_start env accounts arns s =
    match swag_lookup env with
    | Ok _ =>
        (Ok (),
         mkRunner (retrievers s ++ [AccessAdvisorRetriever env])
           (mkQueue accts (length accts)) Queue.new
           Queue.new Queue.new (failed_arns s)
           (tasks s ++ launched env arns)
           (history s ++ evs ++ created (launched env arns)))
    | Raise e => (Raise e, seeded accts [] evs (fresh env s))
    end.
Proof.
  intros Hg. unfold run_start, register_retriever.
  destruct s as [rs aq nq rq fq fa ts h].
  unfold bind, modify, ret. rewrite Hg.
  unfold set_retrievers, set_arn_queue, set_account_queue, set_results_queue,
    set_failure_queue. simpl.
  set (s1 := mkRunner (rs ++ [AccessAdvisorRetriever env]) Queue.new Queue.new
               Queue.new Queue.new fa ts h).
  set (seeding := if is_given accounts
                  then _queue_accounts env (given accounts)
                  else _queue_all_accounts env).
  assert (seeds seeding) as Hs.
  { unfold seeding. destruct (is_given accounts);
      [apply seeds__queue_accounts|apply seeds__queue_all_accounts]. }
  assert ((seeding s1).1
          = match swag_lookup env with Ok _ => Ok () | Raise e => Raise e end) as Hr.
  { unfold seeding. destruct (is_given accounts);
      [apply _queue_accounts_result|apply _queue_all_accounts_result]. }
  destruct (Hs s1) as (accts & evs & Hs1 & Hev). exists accts, evs.
  split; [done|].
  destruct (seeding s1) as [r s2]. simpl in Hr, Hs1. subst r s2.
  destruct (swag_lookup env) as [l|e]; [|done].
  rewrite !create_workers_eq. unfold seeded, s1. simpl.
  unfold launched. rewrite Hg.
  do 2 f_equal.
  - f_equal. lia.
  - by rewrite <- !app_assoc.
  - rewrite <- !app_assoc. unfold created. by rewrite !map_app.
Qed.

(** C8, as the code has it: when [run] reaches its first [join] it has
    created, in this order, [num_workers] ARN lookup workers exactly when
    no ARNs were given, whether or not the seeding queued any account,
    then [num_workers] retriever workers and [num_workers] results
    workers; when ARNs were given no ARN lookup worker exists and the
    account queue is empty. *)
Theorem C8_workers_launched
    (env : Env) (accounts arns : option (list string)) (s : Runner) :
  run_start env accounts arns init = (Ok (), s) →
  tasks s =
    (if is_given arns then []
     else workers "arn-lookup-worker-" LookupGet (num_workers env))
    ++ workers "retriever-worker-" RetrieverGet (num_workers env)
    ++ workers "results-worker-" ResultsGet (num_workers env)
  ∧ (is_given arns = true →
       items (account_queue s) = []
       ∧ Forall (λ t, task_pos t = RetrieverGet ∨ task_pos t = ResultsGet) (tasks s)).
Proof.
  intros Hrun. destruct (is_given arns) eqn:Hg.
  - rewrite (run_start_given env accounts arns init Hg) in Hrun.
    injection Hrun as <-. simpl. unfold launched. rewrite Hg. simpl.
    split; [done|]. intros _. split; [done|].
    apply Forall_app. split; apply Forall_forall; intros t Ht;
      apply list_elem_of_fmap in Ht as (i & -> & _); simpl; auto.
  - destruct (run_start_lookup env accounts arns init Hg) as (accts & evs & _ & Heq).
    rewrite Heq in Hrun. destruct (swag_lookup env); [|done].
    injection Hrun as <-. simpl. unfold launched. rewrite Hg. done.
Qed.

(** C3 at the failing input: of two account ids in a row only the
    first is queued; the second stays in the list of names. *)
Theorem C3_second_account_id_is_skipped :
  let names := ["111111111111"; "222222222222"] in
  Forall (λ a, re_account_id_match a = true) names
  ∧ (queue_account_ids 0 names init).1 = Ok ["222222222222"]
  ∧ items (account_queue (_queue_accounts (Examples.env 1 (Ok [])) names init).2)
    = ["111111111111"].
Proof. vm_compute. repeat constructor. Qed.

(** C2 at the failing input: an account whose two aliases are both
    requested is queued twice, and so is an account whose alias list
    names the one requested alias twice. *)
Theorem C2_account_is_queued_per_alias :
  items (account_queue
           (_queue_accounts (Examples.env 1 (Ok [Examples.prod_account]))
              ["prod"; "production"] init).2)
  = ["222222222222"; "222222222222"]
  ∧ items (account_queue
             (_queue_accounts (Examples.env 1 (Ok [Examples.prod_account_twice]))
                ["prod"] init).2)
    = ["222222222222"; "222222222222"].
Proof. vm_compute. done. Qed.

(** ** The scheduler: what one turn of a worker does *)

Lemma sum_list_with_insert {A} (w : A → nat) (l : list A) i x y :
  l !! i = Some x →
  sum_list_with w (<[i := y]> l) + w x = sum_list_with w l + w y.
Proof.
  revert i. induction l as [|z l IH]; intros [|i]; simpl; try done.
  - intros [= ->]. lia.
  - intros H. specialize (IH i H). lia.
Qed.

Lemma count_insert f ts i t t' :
  ts !! i = Some t →
  count f (<[i := t']> ts) + (if f t then 1 else 0)
  = count f ts + (if f t' then 1 else 0).
Proof. apply sum_list_with_insert. Qed.

Lemma count_pos f ts i t : ts !! i = Some t → f t = true → 1 ≤ count f ts.
Proof.
  revert i. induction ts as [|z ts IH]; intros [|i]; simpl; try done.
  - intros [= ->] ->. unfold count. simpl. lia.
  - intros H Hf. specialize (IH i H Hf). unfold count in *. simpl. lia.
Qed.

Lemma lookup_resume_effect env a ph s r s' :
  lookup_resume env a ph s = (r, s') →
  tasks s' = tasks s ∧ retrievers s' = retrievers s
  ∧ results_queue s' = results_queue s
  ∧ items (account_queue s') = items (account_queue s)
  ∧ items (arn_queue s') = items (arn_queue s) ++ (phase_outcome env ph a).1
  ∧ unfinished_tasks (arn_queue s')
    = length (phase_outcome env ph a).1 + unfinished_tasks (arn_queue s)
  ∧ ((∃ ph', r = Ok (LookupPhase a ph') ∧ next_phase ph = Some ph'
             ∧ unfinished_tasks (account_queue s') = unfinished_tasks (account_queue s))
     ∨ (r = Ok LookupGet
        ∧ S (unfinished_tasks (account_queue s')) = unfinished_tasks (account_queue s))
     ∨ (∃ e, r = Raise e ∧ unfinished_tasks (account_queue s) = 0
             ∧ unfinished_tasks (account_queue s') = 0)).
Proof.
  unfold lookup_resume, arn_lookup_except.
  unfold try_except at 1, bind at 1 2. rewrite run_phase_queued.
  destruct (phase_outcome env ph a) as [l [e|]]; destruct s as [? [] [] ? ? ? ? ?];
    unfold queued; simpl.
  - munfold. destruct next_phase; destruct unfinished_tasks0; munfold;
      intros [= <- <-]; simpl; naive_solver.
  - munfold. destruct next_phase; [intros [= <- <-]; simpl; naive_solver|].
    destruct unfinished_tasks0; munfold; intros [= <- <-]; simpl; naive_solver.
Qed.

Lemma retriever_resume_effect arn s r s' :
  retriever_resume arn s = (r, s') →
  tasks s' = tasks s ∧ retrievers s' = retrievers s
  ∧ account_queue s' = account_queue s
  ∧ items (arn_queue s') = items (arn_queue s)
  ∧ ((∃ data, chain arn (retrievers s) {["arn" := VStr arn]} = Ok data
              ∧ items (results_queue s') = items (results_queue s) ++ [data]
              ∧ unfinished_tasks (results_queue s') = S (unfinished_tasks (results_queue s)))
     ∨ results_queue s' = results_queue s)
  ∧ ((r = Ok RetrieverGet
      ∧ S (unfinished_tasks (arn_queue s')) = unfinished_tasks (arn_queue s))
     ∨ (∃ e, r = Raise e ∧ unfinished_tasks (arn_queue s) = 0
             ∧ unfinished_tasks (arn_queue s') = 0)).
Proof.
  unfold retriever_resume, _retriever_loop_body.
  unfold try_except at 1, bind at 1 2 3. rewrite _run_retrievers_eq.
  generalize (chain_events arn (retrievers s) {["arn" := VStr arn]}). intros evs.
  destruct (chain arn (retrievers s) _) as [data|e];
    destruct s as [? [] [? [|n]] [] ? ? ? ?]; munfold;
    intros [= <- <-]; simpl; naive_solver.
Qed.

Lemma results_begin_effect data s r s' :
  results_begin data s = (r, s') →
  tasks s' = tasks s ∧ retrievers s' = retrievers s
  ∧ account_queue s' = account_queue s ∧ arn_queue s' = arn_queue s
  ∧ items (results_queue s') = items (results_queue s)
  ∧ ((∃ m, r = Ok (ResultsStore data m)
           ∧ unfinished_tasks (results_queue s') = unfinished_tasks (results_queue s))
     ∨ (r = Ok ResultsGet
        ∧ S (unfinished_tasks (results_queue s')) = unfinished_tasks (results_queue s))
     ∨ (∃ e, r = Raise e
             ∧ unfinished_tasks (results_queue s') = unfinished_tasks (results_queue s)
             ∧ (data !! "arn" = None ∨ unfinished_tasks (results_queue s) = 0))).
Proof.
  unfold results_begin, results_prepare, results_except, getitem, dict1.
  destruct s as [? [] [] [? [|n]] ? ? ? ?]; munfold;
    repeat (case_match; simplify_eq; munfold);
    intros [= <- <-]; simpl; naive_solver.
Qed.

Lemma results_resume_effect env data m s r s' :
  results_resume env data m s = (r, s') →
  tasks s' = tasks s ∧ retrievers s' = retrievers s
  ∧ account_queue s' = account_queue s ∧ arn_queue s' = arn_queue s
  ∧ items (results_queue s') = items (results_queue s)
  ∧ ((r = Ok ResultsGet
      ∧ S (unfinished_tasks (results_queue s')) = unfinished_tasks (results_queue s))
     ∨ (∃ e, r = Raise e ∧ unfinished_tasks (results_queue s) = 0
             ∧ unfinished_tasks (results_queue s') = 0)).
Proof.
  unfold results_resume, results_store, results_except.
  destruct s as [? [] [] [? [|n]] ? ? ? ?]; munfold;
    repeat (case_match; simplify_eq; munfold);
    intros [= <- <-]; simpl; naive_solver.
Qed.

Lemma account_queue_get_effect s a s' :
  account_queue_get s = Some (a, s') →
  tasks s' = tasks s ∧ retrievers s' = retrievers s
  ∧ arn_queue s' = arn_queue s ∧ results_queue s' = results_queue s
  ∧ items (account_queue s) = a :: items (account_queue s')
  ∧ unfinished_tasks (account_queue s') = unfinished_tasks (account_queue s).
Proof.
  unfold account_queue_get, Queue.get.
  destruct (items (account_queue s)) as [|x rest] eqn:E; [done|].
  intros [= -> <-]. by simpl.
Qed.

Lemma arn_queue_get_effect s a s' :
  arn_queue_get s = Some (a, s') →
  tasks s' = tasks s ∧ retrievers s' = retrievers s
  ∧ account_queue s' = account_queue s ∧ results_queue s' = results_queue s
  ∧ items (arn_queue s) = a :: items (arn_queue s')
  ∧ unfinished_tasks (arn_queue s') = unfinished_tasks (arn_queue s).
Proof.
  unfold arn_queue_get, Queue.get.
  destruct (items (arn_queue s)) as [|x rest] eqn:E; [done|].
  intros [= -> <-]. by simpl.
Qed.

Lemma results_queue_get_effect s d s' :
  results_queue_get s = Some (d, s') →
  tasks s' = tasks s ∧ retrievers s' = retrievers s
  ∧ account_queue s' = account_queue s ∧ arn_queue s' = arn_queue s
  ∧ items (results_queue s) = d :: items (results_queue s')
  ∧ unfinished_tasks (results_queue s') = unfinished_tasks (results_queue s).
Proof.
  unfold results_queue_get, Queue.get.
  destruct (items (results_queue s)) as [|x rest] eqn:E; [done|].
  intros [= -> <-]. by simpl.
Qed.

Lemma task_step_cases env i s s2 :
  task_step env i s = Some s2 →
  ∃ t, tasks s !! i = Some t ∧ task_status t = Pending
    ∧ ((must_cancel t = true
        ∧ s2 = set_tasks (<[i := mkTask (task_name t) (task_pos t) true Cancelled]>) s)
       ∨ (must_cancel t = false
          ∧ ∃ r s1, resume env (task_pos t) s = Some (r, s1)
              ∧ s2 = set_tasks
                       (<[i := match r with
                               | Ok p => mkTask (task_name t) p false Pending
                               | Raise e => mkTask (task_name t) (task_pos t) false (Failed e)
                               end]>) s1)).
Proof.
  unfold task_step. destruct (tasks s !! i) as [t|] eqn:Hi; [|done].
  destruct (task_status t) eqn:Hst; try done.
  destruct (must_cancel t) eqn:Hc.
  - intros [= <-]. exists t. eauto.
  - destruct (resume env (task_pos t) s) as [[[p|e] s1]|] eqn:Hr.
    + intros [= <-]. exists t. repeat split; try done. right. split; [done|].
      by exists (Ok p), s1.
    + intros [= <-]. exists t. repeat split; try done. right. split; [done|].
      by exists (Raise e), s1.
    + done.
Qed.

Lemma count_ge (f : Task → bool) ts i t :
  ts !! i = Some t → (if f t then 1 else 0) ≤ count f ts.
Proof.
  intros Hi. destruct (f t) eqn:Hf; [|lia]. by apply (count_pos f ts i t).
Qed.

Ltac busy_counts t t' Hi :=
  pose proof (count_insert busy_lookup _ _ t t' Hi);
  pose proof (count_insert busy_retriever _ _ t t' Hi);
  pose proof (count_insert busy_results _ _ t t' Hi);
  pose proof (count_ge busy_lookup _ _ t Hi);
  pose proof (count_ge busy_retriever _ _ t Hi);
  pose proof (count_ge busy_results _ _ t Hi).

Lemma busy_lookup_mk n p c st :
  busy_lookup (mkTask n p c st)
  = match st, p with Pending, LookupPhase _ _ => true | _, _ => false end.
Proof. done. Qed.

Lemma busy_retriever_mk n p c st :
  busy_retriever (mkTask n p c st)
  = match st, p with Pending, RetrieverRun _ => true | _, _ => false end.
Proof. done. Qed.

Lemma busy_results_mk n p c st :
  busy_results (mkTask n p c st)
  = match st, p with Pending, ResultsStore _ _ => true | _, _ => false end.
Proof. done. Qed.

Ltac busy_eval :=
  rewrite ?busy_lookup_mk, ?busy_retriever_mk, ?busy_results_mk in *; simpl in *.

(** A turn of a worker keeps the queues' accounts. *)
Lemma safe_task_step env i sys s2 :
  safe sys →
  task_step env i (runner sys) = Some s2 →
  safe (mkSystem s2 (main sys)).
Proof.
  intros [Ha Hn Hr Hja Hjn Hjr Hc] Hstep.
  destruct sys as [s pc]. simpl in *.
  destruct (task_step_cases _ _ _ _ Hstep)
    as (t & Hi & Hst & [[Hmc ->]|(Hmc & r & s1 & Hres & ->)]);
    destruct t as [nm p mc st]; simpl in *; subst st.
  - (* cancellation *)
    busy_counts (mkTask nm p mc Pending) (mkTask nm p true Cancelled) Hi.
    assert (¬ main_rank pc ≤ 3) as Hrank.
    { intros Hle. specialize (Hc Hle). rewrite Forall_lookup in Hc.
      specialize (Hc _ _ Hi). simpl in Hc. congruence. }
    busy_eval.
    constructor; unfold set_tasks; simpl; lia.
  - assert (main_rank pc ≤ 3 →
            Forall (λ t, must_cancel t = false)
              (<[i := match r with
                      | Ok p' => mkTask nm p' false Pending
                      | Raise e => mkTask nm p false (Failed e)
                      end]> (tasks s))) as Hc'.
    { intros Hle. apply Forall_insert; [auto|]. by destruct r. }
    destruct p; simpl in Hres.
    + (* LookupGet *)
      destruct (account_queue_get s) as [[a s']|] eqn:Hg; [|done].
      injection Hres as <- <-.
      apply account_queue_get_effect in Hg as (Ht & _ & Hn' & Hr' & Hit & Hunf).
      busy_counts (mkTask nm LookupGet mc Pending) (mkTask nm (LookupPhase a PConn) false Pending) Hi.
      busy_eval.
      constructor; unfold set_tasks; simpl; rewrite ?Ht, ?Hn', ?Hr', ?Hunf; try done;
        rewrite Hit in Ha; simpl in Ha; lia.
    + (* LookupPhase *)
      injection Hres as Hres.
      apply lookup_resume_effect in Hres
        as (Ht & _ & Hr' & Hit & Hnit & Hnunf & Hcase).
      set (l := (phase_outcome env p account).1) in *.
      constructor; unfold set_tasks; simpl; rewrite ?Ht, ?Hr', ?Hit, ?Hnit,
        ?Hnunf, ?length_app; try done;
        destruct Hcase as [(ph' & -> & _ & Hu)|[[-> Hu]|(e & -> & Hu & Hu')]];
        match goal with
        | Hi : _ !! i = Some ?t,
          Hs : task_step _ _ _ = Some (set_tasks (<[i := ?t']>) _) |- _ =>
            busy_counts t t' Hi
        end; busy_eval; lia.
    + (* RetrieverGet *)
      destruct (arn_queue_get s) as [[a s']|] eqn:Hg; [|done].
      injection Hres as <- <-.
      apply arn_queue_get_effect in Hg as (Ht & _ & Ha' & Hr' & Hit & Hunf).
      busy_counts (mkTask nm RetrieverGet mc Pending) (mkTask nm (RetrieverRun a) false Pending) Hi.
      busy_eval.
      constructor; unfold set_tasks; simpl; rewrite ?Ht, ?Ha', ?Hr', ?Hunf; try done;
        rewrite Hit in Hn; simpl in Hn; lia.
    + (* RetrieverRun *)
      injection Hres as Hres.
      apply retriever_resume_effect in Hres
        as (Ht & _ & Ha' & Hnit & Hput & Hcase).
      constructor; unfold set_tasks; simpl; rewrite ?Ht, ?Ha', ?Hnit; try done;
        destruct Hcase as [[-> Hu]|(e & -> & Hu & Hu')];
        destruct Hput as [(data & _ & Hrit & Hrunf)|Hr'];
        rewrite ?Hrit, ?Hrunf, ?Hr', ?length_app; simpl;
        match goal with
        | Hi : _ !! i = Some ?t,
          Hs : task_step _ _ _ = Some (set_tasks (<[i := ?t']>) _) |- _ =>
            busy_counts t t' Hi
        end; busy_eval; lia.
    + (* ResultsGet *)
      destruct (results_queue_get s) as [[d s']|] eqn:Hg; [|done].
      injection Hres as Hres.
      apply results_queue_get_effect in Hg as (Ht & _ & Ha' & Hn' & Hit & Hunf).
      apply results_begin_effect in Hres as (Ht' & _ & Ha'' & Hn'' & Hit' & Hcase).
      rewrite Hit in Hr. simpl in Hr.
      constructor; unfold set_tasks; simpl;
        rewrite ?Ht', ?Ht, ?Ha'', ?Ha', ?Hn'', ?Hn', ?Hit'; try done;
        destruct Hcase as [(m & -> & Hu)|[[-> Hu]|(e & -> & Hu & _)]];
        match goal with
        | Hi : _ !! i = Some ?t,
          Hs : task_step _ _ _ = Some (set_tasks (<[i := ?t']>) _) |- _ =>
            busy_counts t t' Hi
        end; busy_eval; lia.
    + (* ResultsStore *)
      injection Hres as Hres.
      apply results_resume_effect in Hres as (Ht & _ & Ha' & Hn' & Hit & Hcase).
      constructor; unfold set_tasks; simpl; rewrite ?Ht, ?Ha', ?Hn', ?Hit; try done;
        destruct Hcase as [[-> Hu]|(e & -> & Hu & Hu')];
        match goal with
        | Hi : _ !! i = Some ?t,
          Hs : task_step _ _ _ = Some (set_tasks (<[i := ?t']>) _) |- _ =>
            busy_counts t t' Hi
        end; busy_eval; lia.
Qed.

(** ** The scheduler: [run] itself *)

Lemma for_emit_cancel (ts : list Task) s :
  for_ ts (λ task, emit (ECancel (task_name task))) s
  = (Ok (), set_history (λ h, h ++ map (λ t, ECancel (task_name t)) ts) s).
Proof.
  revert s. induction ts as [|t ts IH]; intros s; simpl.
  - unfold ret. by rewrite set_history_nil.
  - unfold bind, emit at 1, modify. rewrite IH, set_history_app. done.
Qed.

Lemma for_report (xs rest : list item) s :
  items (failure_queue s) = xs ++ rest →
  for_ xs (λ failure,
    modify (set_failure_queue (λ q, mkQueue (tail (items q)) (unfinished_tasks q))) ;;
    emit (EGet FailureQ failure) ;;
    log_error (LogFailure failure)) s
  = (Ok (),
     mkRunner (retrievers s) (account_queue s) (arn_queue s) (results_queue s)
       (mkQueue rest (unfinished_tasks (failure_queue s)))
       (failed_arns s) (tasks s) (history s ++ reported xs)).
Proof.
  revert s. induction xs as [|x xs IH]; intros s Hs; simpl in *.
  - destruct s as [? ? ? ? [] ? ? ?]; simpl in *. subst. unfold ret.
    by rewrite app_nil_r.
  - unfold bind at 1. munfold. rewrite IH; [|by simpl; rewrite Hs].
    destruct s; simpl. by rewrite <- !app_assoc.
Qed.

Lemma clean_up_eq s :
  clean_up s
  = (Ok (),
     mkRunner (retrievers s) (account_queue s) (arn_queue s) (results_queue s)
       (mkQueue [] (unfinished_tasks (failure_queue s)))
       (failed_arns s) (map request_cancel (tasks s))
       (history s ++ map (λ t, ECancel (task_name t)) (tasks s)
          ++ reported (items (failure_queue s)))).
Proof.
  unfold clean_up, cancel, report_failures.
  unfold bind at 1 2 3. unfold gets at 1, modify at 1. rewrite for_emit_cancel.
  unfold bind, gets.
  rewrite (for_report (items (failure_queue s)) []); [|by destruct s; simpl; rewrite app_nil_r].
  destruct s; simpl. by rewrite <- !app_assoc.
Qed.

Lemma count_map_request_cancel (f : Task → bool) ts :
  (∀ t, f (request_cancel t) = f t) →
  count f (map request_cancel ts) = count f ts.
Proof.
  intros Hf. unfold count. induction ts as [|t ts IH]; simpl; [done|].
  by rewrite Hf, IH.
Qed.

Lemma busy_request_cancel t :
  busy_lookup (request_cancel t) = busy_lookup t
  ∧ busy_retriever (request_cancel t) = busy_retriever t
  ∧ busy_results (request_cancel t) = busy_results t.
Proof. destruct t as [? ? ? []]; done. Qed.

Lemma safe_main_step sys sys' :
  safe sys → main_step sys = Some sys' → safe sys'.
Proof.
  intros [Ha Hn Hr Hja Hjn Hjr Hc]. destruct sys as [s pc]. unfold main_step. simpl in *.
  destruct pc; simpl in *; try done.
  - destruct (Queue.joinable (account_queue s)) eqn:E; [|done]. intros [= <-].
    apply Nat.eqb_eq in E. constructor; simpl; auto; lia.
  - destruct (Queue.joinable (arn_queue s)) eqn:E; [|done]. intros [= <-].
    apply Nat.eqb_eq in E. constructor; simpl; auto; lia.
  - destruct (Queue.joinable (results_queue s)) eqn:E; [|done]. intros [= <-].
    apply Nat.eqb_eq in E. constructor; simpl; auto; lia.
  - intros [= <-]. rewrite clean_up_eq. simpl.
    constructor; simpl;
      rewrite ?count_map_request_cancel by (intros t; apply busy_request_cancel);
      auto; lia.
  - destruct (forallb task_finished (tasks s)); [|done]. intros [= <-].
    constructor; simpl; auto; lia.
Qed.

Lemma safe_step env sys sys' : safe sys → step env sys sys' → safe sys'.
Proof.
  intros Hs Hstep. inversion Hstep as [i sys1 s' Ht|sys1 sys2 Hm]; subst.
  - eapply safe_task_step; eauto.
  - eapply safe_main_step; eauto.
Qed.

Lemma safe_rtc env sys sys' : safe sys → rtc (step env) sys sys' → safe sys'.
Proof. intros Hs Hrtc. induction Hrtc; eauto using safe_step. Qed.

Lemma count_zero (f : Task → bool) ts :
  Forall (λ t, f t = false) ts → count f ts = 0.
Proof.
  unfold count. induction 1 as [|t ts Ht _ IH]; simpl; [done|]. by rewrite Ht, IH.
Qed.

Lemma workers_idle prefix p n t :
  t ∈ workers prefix p n →
  task_pos t = p ∧ must_cancel t = false ∧ task_status t = Pending.
Proof. intros (i & -> & _)%list_elem_of_fmap. done. Qed.

(** The workers [run] creates all wait on their queue. *)
Lemma launched_idle env arns t :
  t ∈ launched env arns →
  (task_pos t = LookupGet ∨ task_pos t = RetrieverGet ∨ task_pos t = ResultsGet)
  ∧ must_cancel t = false ∧ task_status t = Pending.
Proof.
  unfold launched. rewrite !elem_of_app.
  intros [Ht|[Ht|Ht]].
  - destruct (is_given arns); [by apply elem_of_nil in Ht|].
    apply workers_idle in Ht as (-> & -> & ->). auto.
  - apply workers_idle in Ht as (-> & -> & ->). auto.
  - apply workers_idle in Ht as (-> & -> & ->). auto.
Qed.

Lemma seed_event_quiet e : seed_event e → quiet e.
Proof. by destruct e as [[] ?| | | |[]| |]. Qed.

Lemma created_quiet ts : Forall quiet (created ts).
Proof. apply Forall_forall. by intros e (t & -> & _)%list_elem_of_fmap. Qed.

Lemma put_events_quiet l : Forall quiet (map put_event l).
Proof. apply Forall_forall. by intros e (t & -> & _)%list_elem_of_fmap. Qed.

(** The state in which [run] reaches its first [join]. *)
Lemma start_started env registered accounts arns sys0 :
  start env registered accounts arns = RunStarted sys0 →
  main sys0 = JoinAccounts
  ∧ tasks (runner sys0) = launched env arns
  ∧ retrievers (runner sys0) = registered ++ [AccessAdvisorRetriever env]
  ∧ results_queue (runner sys0) = Queue.new
  ∧ failure_queue (runner sys0) = Queue.new
  ∧ unfinished_tasks (account_queue (runner sys0))
    = length (items (account_queue (runner sys0)))
  ∧ unfinished_tasks (arn_queue (runner sys0))
    = length (items (arn_queue (runner sys0)))
  ∧ (is_given arns = true → items (account_queue (runner sys0)) = [])
  ∧ Forall quiet (history (runner sys0)).
Proof.
  unfold start. destruct (is_given arns) eqn:Hg.
  - rewrite (run_start_given env accounts arns _ Hg). intros [= <-]. simpl.
    repeat split; try done.
    apply Forall_app. split; [apply put_events_quiet|apply created_quiet].
  - destruct (run_start_lookup env accounts arns
                (set_retrievers (λ _, registered) init) Hg) as (accts & evs & Hev & ->).
    destruct (swag_lookup env); [|done]. intros [= <-]. simpl.
    repeat split; try done.
    apply Forall_app. split; [|apply created_quiet].
    eapply Forall_impl; [exact Hev|apply seed_event_quiet].
Qed.

Lemma safe_start env registered accounts arns sys0 :
  start env registered accounts arns = RunStarted sys0 → safe sys0.
Proof.
  intros (Hm & Ht & _ & Hr & _ & Ha & Hn & _ & _)%start_started.
  assert (∀ f : Task → bool,
            (∀ n p c, f (mkTask n p c Pending) = true →
               p ≠ LookupGet ∧ p ≠ RetrieverGet ∧ p ≠ ResultsGet) →
            count f (tasks (runner sys0)) = 0) as Hcount.
  { intros f Hf. apply count_zero, Forall_forall. intros t Hin.
    rewrite Ht in Hin. apply launched_idle in Hin as (Hp & _ & Hst).
    destruct t as [n p c st]. simpl in *. subst st.
    destruct (f (mkTask n p c Pending)) eqn:E; [|done].
    apply Hf in E as (? & ? & ?). by destruct Hp as [|[|]]. }
  constructor; rewrite ?Hm; simpl; try lia.
  - rewrite Hcount; [lia|]. intros n p c. rewrite busy_lookup_mk. by destruct p.
  - rewrite Hcount; [lia|]. intros n p c. rewrite busy_retriever_mk. by destruct p.
  - rewrite Hcount, Hr; [simpl; lia|].
    intros n p c. rewrite busy_results_mk. by destruct p.
  - intros _. rewrite Ht. apply Forall_forall. intros t Hin.
    by apply launched_idle in Hin as (_ & ? & _).
Qed.

Lemma main_step_rank sys sys' :
  main_step sys = Some sys' → main_rank (main sys') = S (main_rank (main sys)).
Proof.
  destruct sys as [s pc]. unfold main_step. simpl.
  destruct pc; simpl; repeat case_match; try done; by intros [= <-].
Qed.

Lemma step_rank env sys sys' :
  step env sys sys' →
  main_rank (main sys') = main_rank (main sys)
  ∨ main_rank (main sys') = S (main_rank (main sys)).
Proof.
  intros Hstep. inversion Hstep as [i sys1 s' Ht|sys1 sys2 Hm]; subst;
    [by left|right; by apply main_step_rank].
Qed.


(** ** Failures are reported *)

Lemma failures_put_app h1 h2 : failures_put (h1 ++ h2) = failures_put h1 ++ failures_put h2.
Proof. apply omap_app. Qed.

Lemma failures_logged_app h1 h2 :
  failures_logged (h1 ++ h2) = failures_logged h1 ++ failures_logged h2.
Proof. apply omap_app. Qed.

Lemma quiet_put h : Forall quiet h → failures_put h = [].
Proof.
  induction 1 as [|e h He _ IH]; [done|].
  replace (e :: h) with ([e] ++ h) by done.
  rewrite failures_put_app, IH, app_nil_r. by destruct e as [[] ?| | | |[]| |].
Qed.

Lemma quiet_logged h : Forall quiet h → failures_logged h = [].
Proof.
  induction 1 as [|e h He _ IH]; [done|].
  replace (e :: h) with ([e] ++ h) by done.
  rewrite failures_logged_app, IH, app_nil_r. by destruct e as [[] ?| | | |[]| |].
Qed.

Lemma accounts_ret {A} (a : A) : accounts (ret a).
Proof. by intros s. Qed.

Lemma accounts_lift {A} (r : result A) : accounts (lift r).
Proof. by intros s. Qed.

Lemma accounts_raise {A} (e : exn) : accounts (@raise A e).
Proof. by intros s. Qed.

Lemma accounts_gets {A} (f : Runner → A) : accounts (gets f).
Proof. by intros s. Qed.

Lemma accounts_bind {A B} (m : M A) (k : A → M B) :
  accounts m → (∀ a, accounts (k a)) → accounts (bind m k).
Proof.
  intros Hm Hk s Hs. specialize (Hm s Hs). unfold bind.
  destruct (m s) as [[a|e] s1]; simpl in *; [by apply Hk|done].
Qed.

Lemma accounts_try_except {A} (m : M A) (h : exn → M A) :
  accounts m → (∀ e, accounts (h e)) → accounts (try_except m h).
Proof.
  intros Hm Hh s Hs. specialize (Hm s Hs). unfold try_except.
  destruct (m s) as [[a|e] s1]; simpl in *; [done|by apply Hh].
Qed.

Lemma accounts_modify (f : Runner → Runner) :
  (∀ s, history (f s) = history s ∧ failure_queue (f s) = failure_queue s) →
  accounts (modify f).
Proof.
  intros Hf s Hs. unfold accounted, modify in *. simpl.
  destruct (Hf s) as [-> ->]. done.
Qed.

Lemma accounts_emit e : quiet e → accounts (emit e).
Proof.
  intros He s Hs. unfold accounted, emit, modify in *. destruct s; simpl in *.
  rewrite failures_put_app, failures_logged_app.
  rewrite (quiet_put [e]), (quiet_logged [e]) by (by constructor).
  by rewrite !app_nil_r.
Qed.

Lemma accounts_failure_queue_put x : accounts (failure_queue_put x).
Proof.
  intros s Hs. unfold accounted in *. destruct s; munfold.
  rewrite failures_put_app, failures_logged_app, Hs. simpl.
  by rewrite app_nil_r, app_assoc.
Qed.

Lemma accounts_for {A} (l : list A) (body : A → M unit) :
  (∀ x, accounts (body x)) → accounts (for_ l body).
Proof.
  intros Hb. induction l as [|x l IH]; simpl.
  - apply accounts_ret.
  - apply accounts_bind; auto.
Qed.

Lemma accounts_fold {A B} (l : list A) (body : B → A → M B) acc :
  (∀ b x, accounts (body b x)) → accounts (fold_ l body acc).
Proof.
  intros Hb. revert acc. induction l as [|x l IH]; intros acc; simpl.
  - apply accounts_ret.
  - apply accounts_bind; auto.
Qed.

Ltac accounts_step :=
  first
    [ apply accounts_ret | apply accounts_lift | apply accounts_raise
    | apply accounts_gets | apply accounts_failure_queue_put
    | apply accounts_emit; exact I
    | apply accounts_modify; intros []; by simpl
    | apply accounts_bind; [|intros ?]
    | apply accounts_try_except; [|intros ?]
    | apply accounts_for; intros ?
    | apply accounts_fold; intros ? ?
    | match goal with |- accounts (match ?x with _ => _ end) => destruct x end
    | match goal with |- accounts (if ?x then _ else _) => destruct x end ].

Ltac accounts_solve := repeat accounts_step.

Lemma accounts_retriever_resume arn : accounts (retriever_resume arn).
Proof.
  unfold retriever_resume, _retriever_loop_body, _run_retrievers, call_retriever,
    arn_queue_task_done, results_queue_put, log_error.
  accounts_solve.
Qed.

Lemma accounts_lookup_resume env a p : accounts (lookup_resume env a p).
Proof.
  unfold lookup_resume, arn_lookup_except, account_queue_task_done, log_error.
  accounts_step; [|accounts_solve].
  accounts_step; [|accounts_solve].
  accounts_step; [|accounts_solve].
  destruct p; simpl; unfold connect, put_roles, put_users, put_policies, put_groups,
    put_pages, arn_queue_put; accounts_solve.
Qed.

Lemma accounts_results_begin data : accounts (results_begin data).
Proof.
  unfold results_begin, results_prepare, results_except, results_queue_task_done,
    log_error.
  accounts_solve.
Qed.

Lemma accounts_results_resume env data m : accounts (results_resume env data m).
Proof.
  unfold results_resume, results_store, results_except, results_queue_task_done,
    log_error.
  accounts_solve.
Qed.

Lemma accounted_get (s s' : Runner) e :
  quiet e →
  history s' = history s ++ [e] →
  failure_queue s' = failure_queue s →
  accounted s → accounted s'.
Proof.
  unfold accounted. intros He -> ->.
  rewrite failures_put_app, failures_logged_app.
  rewrite (quiet_put [e]), (quiet_logged [e]) by (by constructor).
  by rewrite !app_nil_r.
Qed.

Lemma accounted_resume env p s r s' :
  resume env p s = Some (r, s') → accounted s → accounted s'.
Proof.
  destruct p; simpl.
  - unfold account_queue_get, Queue.get.
    destruct (items (account_queue s)); [done|]. intros [= <- <-].
    by apply accounted_get with (e := EGet AccountQ (IStr s0)).
  - intros [= Hr] Hs. pose proof (accounts_lookup_resume env account p s Hs) as H.
    by rewrite Hr in H.
  - unfold arn_queue_get, Queue.get.
    destruct (items (arn_queue s)); [done|]. intros [= <- <-].
    by apply accounted_get with (e := EGet ArnQ (IStr s0)).
  - intros [= Hr] Hs. pose proof (accounts_retriever_resume arn s Hs) as H.
    by rewrite Hr in H.
  - unfold results_queue_get, Queue.get.
    destruct (items (results_queue s)) as [|d rest]; [done|]. intros [= Hr] Hs.
    match type of Hr with results_begin d ?s1 = _ =>
      assert (accounted s1) as Hs1
        by (by apply (accounted_get s s1 (EGet ResultsQ (IDict d))));
      pose proof (accounts_results_begin d s1 Hs1) as H
    end.
    by rewrite Hr in H.
  - intros [= Hr] Hs. pose proof (accounts_results_resume env data m s Hs) as H.
    by rewrite Hr in H.
Qed.

Lemma finished_no_step env i s :
  forallb task_finished (tasks s) = true → task_step env i s = None.
Proof.
  intros Hf. unfold task_step. destruct (tasks s !! i) as [t|] eqn:Hi; [|done].
  rewrite forallb_forall in Hf. specialize (Hf t).
  unfold task_finished in Hf. destruct (task_status t); try done.
  discriminate Hf. apply list_elem_of_In, list_elem_of_lookup. eauto.
Qed.

Lemma tidy_task_step env i sys s2 :
  tidy sys →
  task_step env i (runner sys) = Some s2 →
  tidy (mkSystem s2 (main sys)).
Proof.
  intros [Hacc Hlog Hcan Hfin] Hstep. destruct sys as [s pc]. simpl in *.
  assert (¬ 5 ≤ main_rank pc) as Hrun.
  { intros Hle. by rewrite (finished_no_step env i s (Hfin Hle)) in Hstep. }
  destruct (task_step_cases _ _ _ _ Hstep)
    as (t & Hi & Hst & [[Hmc ->]|(Hmc & r & s1 & Hres & ->)]).
  - constructor; simpl; [done|done| |done].
    intros Hle. apply Forall_insert; [auto|]. done.
  - assert (¬ 4 ≤ main_rank pc) as Hrank.
    { intros Hle. specialize (Hcan Hle). rewrite Forall_lookup in Hcan.
      specialize (Hcan _ _ Hi Hst). congruence. }
    constructor; simpl; [|done|done|done].
    pose proof (accounted_resume _ _ _ _ _ Hres Hacc) as H.
    by destruct s1.
Qed.

Lemma reported_put xs : failures_put (reported xs) = [].
Proof. induction xs as [|x xs IH]; [done|]. exact IH. Qed.

Lemma reported_logged xs : failures_logged (reported xs) = xs.
Proof.
  induction xs as [|x xs IH]; [done|].
  change (failures_logged (reported (x :: xs))) with (x :: failures_logged (reported xs)).
  by rewrite IH.
Qed.

Lemma cancels_quiet (ts : list Task) :
  Forall quiet (map (λ t, ECancel (task_name t)) ts).
Proof. apply Forall_forall. by intros e (t & -> & _)%list_elem_of_fmap. Qed.

Lemma tidy_main_step sys sys' :
  tidy sys → main_step sys = Some sys' → tidy sys'.
Proof.
  intros [Hacc Hlog Hcan Hfin]. destruct sys as [s pc]. unfold main_step. simpl in *.
  destruct pc; simpl in *; try done.
  - destruct (Queue.joinable (account_queue s)); [|done]. intros [= <-].
    constructor; simpl; [done|lia|lia|lia].
  - destruct (Queue.joinable (arn_queue s)); [|done]. intros [= <-].
    constructor; simpl; [done|lia|lia|lia].
  - destruct (Queue.joinable (results_queue s)); [|done]. intros [= <-].
    constructor; simpl; [done|lia|lia|lia].
  - intros [= <-]. rewrite clean_up_eq. simpl.
    constructor; simpl; [|done| |lia].
    + unfold accounted in *. simpl.
      rewrite !failures_put_app, !failures_logged_app, Hacc.
      rewrite (quiet_put _ (cancels_quiet (tasks s))),
        (quiet_logged _ (cancels_quiet (tasks s))).
      rewrite reported_put, reported_logged. simpl. by rewrite !app_nil_r.
    + intros _. apply Forall_forall. intros t' (t & -> & _)%list_elem_of_fmap.
      unfold request_cancel. by destruct (task_status t) eqn:E; simpl; rewrite ?E.
  - destruct (forallb task_finished (tasks s)) eqn:Hf; [|done]. intros [= <-].
    constructor; simpl; [done| | |done]; intros _; [apply Hlog|apply Hcan]; lia.
Qed.

Lemma tidy_step env sys sys' : tidy sys → step env sys sys' → tidy sys'.
Proof.
  intros Hs Hstep. inversion Hstep as [i sys1 s' Ht|sys1 sys2 Hm]; subst.
  - eapply tidy_task_step; eauto.
  - eapply tidy_main_step; eauto.
Qed.

Lemma tidy_rtc env sys sys' : tidy sys → rtc (step env) sys sys' → tidy sys'.
Proof. intros Hs Hrtc. induction Hrtc; eauto using tidy_step. Qed.

Lemma tidy_start env registered accounts arns sys0 :
  start env registered accounts arns = RunStarted sys0 → tidy sys0.
Proof.
  intros (Hm & _ & _ & _ & Hf & _ & _ & _ & Hq)%start_started.
  constructor; rewrite ?Hm; simpl; try lia.
  unfold accounted. by rewrite (quiet_put _ Hq), (quiet_logged _ Hq), Hf.
Qed.

(** ** Every run ends *)

Lemma lookup_cost_next env a p p' :
  next_phase p = Some p' →
  lookup_cost env a p = phase_cost env a p + lookup_cost env a p'.
Proof. destruct p; intros [= <-]; reflexivity. Qed.

Lemma lookup_cost_ge env a p : phase_cost env a p ≤ lookup_cost env a p.
Proof. destruct p; unfold lookup_cost; cbn [phases_from sum_list_with]; lia. Qed.

Lemma task_cost_mk env n p c st :
  task_cost env (mkTask n p c st)
  = match st with Pending => 1 + pos_cost env p | _ => 0 end.
Proof. done. Qed.

Lemma set_tasks_proj f s :
  tasks (set_tasks f s) = f (tasks s)
  ∧ account_queue (set_tasks f s) = account_queue s
  ∧ arn_queue (set_tasks f s) = arn_queue s
  ∧ results_queue (set_tasks f s) = results_queue s.
Proof. by destruct s. Qed.

Lemma turns_left_set_tasks env f s pc :
  turns_left env (mkSystem (set_tasks f s) pc)
  = (5 - main_rank pc)
    + sum_list_with (task_cost env) (f (tasks s))
    + sum_list_with (account_cost env) (items (account_queue s))
    + 4 * length (items (arn_queue s))
    + 2 * length (items (results_queue s)).
Proof. by destruct s. Qed.

Lemma turns_left_mk env s pc :
  turns_left env (mkSystem s pc)
  = (5 - main_rank pc)
    + sum_list_with (task_cost env) (tasks s)
    + sum_list_with (account_cost env) (items (account_queue s))
    + 4 * length (items (arn_queue s))
    + 2 * length (items (results_queue s)).
Proof. done. Qed.

Lemma sum_list_with_cons {A} (w : A → nat) x l :
  sum_list_with w (x :: l) = w x + sum_list_with w l.
Proof. done. Qed.

Ltac task_costs env :=
  match goal with
  | Hi : _ !! ?i = Some ?t,
    Hs : task_step _ _ _ = Some (set_tasks (<[?i := ?t']>) _) |- _ =>
      let Hcost := fresh "Hcost" in
      pose proof (sum_list_with_insert (task_cost env) _ i t t' Hi) as Hcost;
      rewrite ?task_cost_mk in Hcost; cbn [pos_cost] in Hcost
  end.

(** Each turn of a worker uses up some of the measure. *)
Lemma task_step_turns_left env i sys s2 :
  task_step env i (runner sys) = Some s2 →
  turns_left env (mkSystem s2 (main sys)) < turns_left env sys.
Proof.
  intros Hstep. destruct sys as [s pc]. cbn [runner main] in *.
  destruct (task_step_cases _ _ _ _ Hstep)
    as (t & Hi & Hst & [[Hmc ->]|(Hmc & r & s1 & Hres & ->)]);
    destruct t as [nm p mc st]; cbn [task_status must_cancel task_pos task_name] in *;
    subst st; rewrite turns_left_set_tasks, turns_left_mk.
  - task_costs env. lia.
  - destruct p; cbn [resume] in Hres.
    + destruct (account_queue_get s) as [[a s']|] eqn:Hg; [|done].
      injection Hres as <- <-.
      apply account_queue_get_effect in Hg as (Ht & _ & Hn' & Hr' & Hit & Hunf).
      task_costs env.
      rewrite Ht, Hn', Hr', Hit, sum_list_with_cons. unfold account_cost at 2. lia.
    + injection Hres as Hres.
      apply lookup_resume_effect in Hres
        as (Ht & _ & Hr' & Hit & Hnit & Hnunf & Hcase).
      pose proof (lookup_cost_ge env account p) as Hge. unfold phase_cost in Hge.
      destruct Hcase as [(ph' & -> & Hnext & Hu)|[[-> Hu]|(e & -> & Hu & Hu')]];
        task_costs env;
        rewrite Ht, Hr', Hit, Hnit, length_app;
        try (rewrite (lookup_cost_next _ _ _ _ Hnext) in *; unfold phase_cost in *);
        lia.
    + destruct (arn_queue_get s) as [[a s']|] eqn:Hg; [|done].
      injection Hres as <- <-.
      apply arn_queue_get_effect in Hg as (Ht & _ & Ha' & Hr' & Hit & Hunf).
      task_costs env.
      rewrite Ht, Ha', Hr', Hit. cbn [length]. lia.
    + injection Hres as Hres.
      apply retriever_resume_effect in Hres
        as (Ht & _ & Ha' & Hnit & Hput & Hcase).
      destruct Hcase as [[-> Hu]|(e & -> & Hu & Hu')];
        destruct Hput as [(data & _ & Hrit & Hrunf)|Hr'];
        task_costs env;
        rewrite Ht, Ha', Hnit, ?Hrit, ?Hr', ?length_app; cbn [length]; lia.
    + destruct (results_queue_get s) as [[d s']|] eqn:Hg; [|done].
      injection Hres as Hres.
      apply results_queue_get_effect in Hg as (Ht & _ & Ha' & Hn' & Hit & Hunf).
      apply results_begin_effect in Hres as (Ht' & _ & Ha'' & Hn'' & Hit' & Hcase).
      destruct Hcase as [(m & -> & Hu)|[[-> Hu]|(e & -> & Hu & _)]];
        task_costs env;
        rewrite Ht', Ht, Ha'', Ha', Hn'', Hn', Hit', Hit; cbn [length]; lia.
    + injection Hres as Hres.
      apply results_resume_effect in Hres as (Ht & _ & Ha' & Hn' & Hit & Hcase).
      destruct Hcase as [[-> Hu]|(e & -> & Hu & Hu')];
        task_costs env;
        rewrite Ht, Ha', Hn', Hit; lia.
Qed.

Lemma task_cost_request_cancel env ts :
  sum_list_with (task_cost env) (map request_cancel ts)
  = sum_list_with (task_cost env) ts.
Proof.
  induction ts as [|t ts IH]; simpl; [done|]. rewrite IH. f_equal.
  by destruct t as [? ? ? []].
Qed.

Lemma main_step_turns_left env sys sys' :
  main_step sys = Some sys' → turns_left env sys' < turns_left env sys.
Proof.
  destruct sys as [s pc]. unfold main_step. cbn [runner main].
  destruct pc; repeat case_match; try done; intros [= <-];
    rewrite !turns_left_mk; cbn [main_rank]; try lia.
  rewrite clean_up_eq. cbn [snd tasks account_queue arn_queue results_queue].
  rewrite task_cost_request_cancel. lia.
Qed.

Lemma step_turns_left env sys sys' :
  step env sys sys' → turns_left env sys' < turns_left env sys.
Proof.
  intros Hstep. inversion Hstep as [i sys1 s' Ht|sys1 sys2 Hm]; subst.
  - by apply (task_step_turns_left env i).
  - by apply main_step_turns_left.
Qed.

(** No run goes on for ever. *)
Lemma step_sn env sys : sn (step env) sys.
Proof.
  remember (turns_left env sys) as n eqn:Hn. revert sys Hn.
  induction n as [n IH] using lt_wf_ind. intros sys ->.
  constructor. intros sys' Hstep. simpl in Hstep.
  eapply IH; [|reflexivity]. by apply step_turns_left.
Qed.

(** ** Every run returns *)

Lemma chain_keeps_arn arn rs data final :
  Forall keeps_arn rs →
  chain arn rs data = Ok final →
  is_Some (data !! "arn") → is_Some (final !! "arn").
Proof.
  intros Hk. revert data. induction Hk as [|r rs Hr _ IH]; intros data.
  - unfold chain; simpl. by intros [= ->].
  - rewrite chain_cons. destruct (run_plugin r arn data) as [data'|e] eqn:E; [|done].
    intros H Hd. apply (IH _ H). by apply (Hr arn data).
Qed.

Lemma Exists_insert {A} (P : A → Prop) (l : list A) i x y :
  l !! i = Some x → (P x → P y) → Exists P l → Exists P (<[i := y]> l).
Proof.
  intros Hi Hxy. rewrite !Exists_exists.
  intros (z & Hz & HP). apply list_elem_of_lookup in Hz as [j Hj].
  destruct (decide (i = j)) as [->|Hne].
  - exists y. split; [|apply Hxy; congruence].
    apply list_elem_of_lookup. exists j. apply list_lookup_insert_eq.
    by apply lookup_lt_Some in Hj.
  - exists z. split; [|done]. apply list_elem_of_lookup. exists j.
    by rewrite list_lookup_insert_ne.
Qed.

Lemma resume_frame env p s r s' :
  resume env p s = Some (r, s') →
  tasks s' = tasks s ∧ retrievers s' = retrievers s.
Proof.
  destruct p; simpl.
  - destruct (account_queue_get s) as [[a s1]|] eqn:Hg; [|done]. intros [= <- <-].
    by apply account_queue_get_effect in Hg as (? & ? & _).
  - intros [= Hr]. by apply lookup_resume_effect in Hr as (? & ? & _).
  - destruct (arn_queue_get s) as [[a s1]|] eqn:Hg; [|done]. intros [= <- <-].
    by apply arn_queue_get_effect in Hg as (? & ? & _).
  - intros [= Hr]. by apply retriever_resume_effect in Hr as (? & ? & _).
  - destruct (results_queue_get s) as [[d s1]|] eqn:Hg; [|done]. intros [= Hr].
    apply results_queue_get_effect in Hg as (Ht & Hrs & _).
    apply results_begin_effect in Hr as (Ht' & Hrs' & _). split; congruence.
  - intros [= Hr]. by apply results_resume_effect in Hr as (? & ? & _).
Qed.

Lemma resume_kind env p s p' s' :
  resume env p s = Some (Ok p', s') → kind_of p' = kind_of p.
Proof.
  destruct p; simpl.
  - destruct (account_queue_get s) as [[a s1]|]; [|done]. by intros [= <- <-].
  - intros [= Hr]. apply lookup_resume_effect in Hr as (_ & _ & _ & _ & _ & _ & Hc).
    destruct Hc as [(ph' & [= ->] & _)|[[[= ->] _]|(e & [=] & _)]]; done.
  - destruct (arn_queue_get s) as [[a s1]|]; [|done]. by intros [= <- <-].
  - intros [= Hr]. apply retriever_resume_effect in Hr as (_ & _ & _ & _ & _ & Hc).
    destruct Hc as [[[= ->] _]|(e & [=] & _)]; done.
  - destruct (results_queue_get s) as [[d s1]|]; [|done]. intros [= Hr].
    apply results_begin_effect in Hr as (_ & _ & _ & _ & _ & Hc).
    destruct Hc as [(m & [= ->] & _)|[[[= ->] _]|(e & [=] & _)]]; done.
  - intros [= Hr]. apply results_resume_effect in Hr as (_ & _ & _ & _ & _ & Hc).
    destruct Hc as [[[= ->] _]|(e & [=] & _)]; done.
Qed.

(** A turn of a worker keeps the retrievers and the kinds of the
    tasks. *)
Lemma task_step_frame env i s s2 :
  task_step env i s = Some s2 →
  retrievers s2 = retrievers s
  ∧ ∀ k, Exists (has_kind k) (tasks s) → Exists (has_kind k) (tasks s2).
Proof.
  intros Hstep.
  destruct (task_step_cases _ _ _ _ Hstep)
    as (t & Hi & Hst & [[Hmc ->]|(Hmc & r & s1 & Hres & ->)]).
  - split; [by destruct s|]. intros k Hk.
    destruct (set_tasks_proj
      (<[i := mkTask (task_name t) (task_pos t) true Cancelled]>) s) as (-> & _).
    eapply Exists_insert; eauto.
  - destruct (resume_frame _ _ _ _ _ Hres) as [Ht Hrs].
    split; [by destruct s1|]. intros k Hk.
    match goal with |- context [set_tasks ?f s1] =>
      destruct (set_tasks_proj f s1) as (-> & _) end.
    rewrite Ht. eapply Exists_insert; eauto.
    unfold has_kind. destruct r as [p'|e]; simpl; [|done].
    intros <-. by apply (resume_kind env _ s _ s1).
Qed.

(** After the joins the queues are empty and [live] asks nothing more
    than [safe]. *)
Lemma live_late sys :
  safe sys →
  4 ≤ main_rank (main sys) →
  Forall keeps_arn (retrievers (runner sys)) →
  Exists (has_kind KRetriever) (tasks (runner sys)) →
  Exists (has_kind KResults) (tasks (runner sys)) →
  live sys.
Proof.
  intros Hs Hrank Hk Hr1 Hr2. pose proof Hs as [Ha Hn Hr Hja Hjn Hjr Hc].
  assert (items (account_queue (runner sys)) = []) as Hia
    by (apply length_zero_iff_nil; lia).
  assert (items (results_queue (runner sys)) = []) as Hir
    by (apply length_zero_iff_nil; lia).
  constructor; try done; try lia.
  by rewrite Hir.
Qed.

Lemma account_items_shrink env i s s2 :
  task_step env i s = Some s2 →
  items (account_queue s2) ≠ [] → items (account_queue s) ≠ [].
Proof.
  intros Hstep.
  destruct (task_step_cases _ _ _ _ Hstep)
    as (t & Hi & Hst & [[Hmc ->]|(Hmc & r & s1 & Hres & ->)]).
  - by destruct s.
  - match goal with |- context [set_tasks ?f s1] =>
      destruct (set_tasks_proj f s1) as (_ & -> & _) end.
    destruct (task_pos t); simpl in Hres.
    + destruct (account_queue_get s) as [[a s']|] eqn:Hg; [|done].
      injection Hres as <- <-.
      apply account_queue_get_effect in Hg as (_ & _ & _ & _ & -> & _). done.
    + injection Hres as Hres.
      by apply lookup_resume_effect in Hres as (_ & _ & _ & -> & _).
    + destruct (arn_queue_get s) as [[a s']|] eqn:Hg; [|done].
      injection Hres as <- <-.
      by apply arn_queue_get_effect in Hg as (_ & _ & -> & _).
    + injection Hres as Hres.
      by apply retriever_resume_effect in Hres as (_ & _ & -> & _).
    + destruct (results_queue_get s) as [[d s']|] eqn:Hg; [|done].
      injection Hres as Hres.
      apply results_queue_get_effect in Hg as (_ & _ & Ha & _).
      apply results_begin_effect in Hres as (_ & _ & Ha' & _). by rewrite Ha', Ha.
    + injection Hres as Hres.
      by apply results_resume_effect in Hres as (_ & _ & -> & _).
Qed.

Lemma tasks_set_tasks f s : tasks (set_tasks f s) = f (tasks s).
Proof. by destruct s. Qed.
Lemma account_queue_set_tasks f s : account_queue (set_tasks f s) = account_queue s.
Proof. by destruct s. Qed.
Lemma arn_queue_set_tasks f s : arn_queue (set_tasks f s) = arn_queue s.
Proof. by destruct s. Qed.
Lemma results_queue_set_tasks f s : results_queue (set_tasks f s) = results_queue s.
Proof. by destruct s. Qed.

Ltac set_tasks_simpl :=
  rewrite ?tasks_set_tasks, ?account_queue_set_tasks, ?arn_queue_set_tasks,
    ?results_queue_set_tasks.

(** A turn of a worker loses no item and ends no worker. *)
Lemma live_task_step env i sys s2 :
  live sys →
  task_step env i (runner sys) = Some s2 →
  live (mkSystem s2 (main sys)).
Proof.
  intros Hl Hstep.
  pose proof (safe_task_step _ _ _ _ (live_safe _ Hl) Hstep) as Hsafe'.
  destruct (task_step_frame _ _ _ _ Hstep) as [Hrs Hkinds].
  pose proof (account_items_shrink _ _ _ _ Hstep) as Hshrink.
  destruct Hl as [[Ha Hn Hr Hja Hjn Hjr Hc] Hla Hln Hlr Hpend Harn Hkeep Hlook Hretr Hresw].
  destruct sys as [s pc]. cbn [runner main] in *.
  destruct (decide (4 ≤ main_rank pc)) as [Hlate|Hearly].
  { apply live_late; cbn [runner main]; auto. by rewrite Hrs. }
  assert (main_rank pc ≤ 3) as Hle by lia.
  specialize (Hc Hle). specialize (Hpend Hle).
  destruct (task_step_cases _ _ _ _ Hstep)
    as (t & Hi & Hst & [[Hmc ->]|(Hmc & r & s1 & Hres & ->)]).
  { rewrite Forall_lookup in Hc. specialize (Hc _ _ Hi). simpl in Hc. congruence. }
  destruct t as [nm p mc st]; cbn [task_status must_cancel task_pos task_name] in *;
    subst st.
  assert (∀ t', task_status t' = Pending →
            Forall (λ t, task_status t = Pending) (<[i := t']> (tasks s))) as Hpend'.
  { intros t' Ht'. by apply Forall_insert. }
  assert (∀ r',
    (∃ p', r' = Ok p') →
    r = r' →
    (unfinished_tasks (account_queue s1)
     ≤ length (items (account_queue s1))
       + count busy_lookup
           (<[i := match r' with
                   | Ok p0 => mkTask nm p0 false Pending
                   | Raise e => mkTask nm p false (Failed e)
                   end]> (tasks s))) →
    (unfinished_tasks (arn_queue s1)
     ≤ length (items (arn_queue s1))
       + count busy_retriever
           (<[i := match r' with
                   | Ok p0 => mkTask nm p0 false Pending
                   | Raise e => mkTask nm p false (Failed e)
                   end]> (tasks s))) →
    (unfinished_tasks (results_queue s1)
     ≤ length (items (results_queue s1))
       + count busy_results
           (<[i := match r' with
                   | Ok p0 => mkTask nm p0 false Pending
                   | Raise e => mkTask nm p false (Failed e)
                   end]> (tasks s))) →
    Forall (λ d : record, is_Some (d !! "arn")) (items (results_queue s1)) →
    tasks s1 = tasks s →
    live
      (mkSystem
         (set_tasks
            (<[i := match r with
                    | Ok p0 => mkTask nm p0 false Pending
                    | Raise e => mkTask nm p false (Failed e)
                    end]>) s1) pc)) as Hgoal.
  { intros r' [p' ->] -> H1 H2 H3 H4 Ht.
    constructor; cbn [runner main];
      [exact Hsafe' | | | | | | by rewrite Hrs
      | intros H; by apply Hkinds, Hlook, Hshrink | by apply Hkinds | by apply Hkinds];
      set_tasks_simpl; rewrite ?Ht; try done.
    intros _. by apply Hpend'. }
  destruct (resume_frame _ _ _ _ _ Hres) as [Ht _].
  destruct p; cbn [resume] in Hres.
  - (* LookupGet *)
    destruct (account_queue_get s) as [[a s']|] eqn:Hg; [|done].
    injection Hres as <- <-.
    apply account_queue_get_effect in Hg as (_ & _ & Hn' & Hr' & Hit & Hunf).
    busy_counts (mkTask nm LookupGet mc Pending)
                (mkTask nm (LookupPhase a PConn) false Pending) Hi.
    busy_eval.
    apply (Hgoal (Ok (LookupPhase a PConn))); eauto;
      rewrite ?Hn', ?Hr', ?Hunf; try done;
      try (rewrite Hit in Hla; simpl in Hla); lia.
  - (* LookupPhase *)
    injection Hres as Hres.
    apply lookup_resume_effect in Hres
      as (_ & _ & Hr' & Hit & Hnit & Hnunf & Hcase).
    pose proof (count_ge busy_lookup _ _ _ Hi) as Hbusy. busy_eval.
    destruct Hcase as [(ph' & -> & _ & Hu)|[[-> Hu]|(e & -> & Hu & Hu')]]; [| |lia].
    + busy_counts (mkTask nm (LookupPhase account p) mc Pending)
                  (mkTask nm (LookupPhase account ph') false Pending) Hi.
      busy_eval.
      apply (Hgoal (Ok (LookupPhase account ph'))); eauto;
        rewrite ?Hr', ?Hit, ?Hnit, ?Hnunf, ?length_app; try done; lia.
    + busy_counts (mkTask nm (LookupPhase account p) mc Pending)
                  (mkTask nm LookupGet false Pending) Hi.
      busy_eval.
      apply (Hgoal (Ok LookupGet)); eauto;
        rewrite ?Hr', ?Hit, ?Hnit, ?Hnunf, ?length_app; try done; lia.
  - (* RetrieverGet *)
    destruct (arn_queue_get s) as [[a s']|] eqn:Hg; [|done].
    injection Hres as <- <-.
    apply arn_queue_get_effect in Hg as (_ & _ & Ha' & Hr' & Hit & Hunf).
    busy_counts (mkTask nm RetrieverGet mc Pending)
                (mkTask nm (RetrieverRun a) false Pending) Hi.
    busy_eval.
    apply (Hgoal (Ok (RetrieverRun a))); eauto;
      rewrite ?Ha', ?Hr', ?Hunf; try done;
      try (rewrite Hit in Hln; simpl in Hln); lia.
  - (* RetrieverRun *)
    injection Hres as Hres.
    apply retriever_resume_effect in Hres
      as (_ & Hrs1 & Ha' & Hnit & Hput & Hcase).
    pose proof (count_ge busy_retriever _ _ _ Hi) as Hbusy. busy_eval.
    destruct Hcase as [[-> Hu]|(e & -> & Hu & Hu')]; [|lia].
    busy_counts (mkTask nm (RetrieverRun arn) mc Pending)
                (mkTask nm RetrieverGet false Pending) Hi.
    busy_eval.
    destruct Hput as [(data & Hchain & Hrit & Hrunf)|Hr'].
    + apply (Hgoal (Ok RetrieverGet)); eauto;
        rewrite ?Ha', ?Hnit, ?Hrit, ?Hrunf, ?length_app; simpl; try done; try lia.
      apply Forall_app. split; [done|]. constructor; [|done].
      eapply chain_keeps_arn; [exact Hkeep|exact Hchain|].
      rewrite lookup_singleton_eq. by eexists.
    + apply (Hgoal (Ok RetrieverGet)); eauto;
        rewrite ?Ha', ?Hnit, ?Hr'; simpl; try done; lia.
  - (* ResultsGet *)
    destruct (results_queue_get s) as [[d s']|] eqn:Hg; [|done].
    injection Hres as Hres.
    apply results_queue_get_effect in Hg as (_ & _ & Ha' & Hn' & Hit & Hunf).
    apply results_begin_effect in Hres as (_ & _ & Ha'' & Hn'' & Hit' & Hcase).
    rewrite Hit in Hr, Hlr, Harn. simpl in Hr, Hlr.
    apply Forall_cons in Harn as [Hd Harn].
    destruct Hcase as [(m & -> & Hu)|[[-> Hu]|(e & -> & Hu & [Hnone|Hzero])]];
      [| |rewrite Hnone in Hd; by destruct Hd|lia].
    + busy_counts (mkTask nm ResultsGet mc Pending)
                  (mkTask nm (ResultsStore d m) false Pending) Hi.
      busy_eval.
      apply (Hgoal (Ok (ResultsStore d m))); eauto;
        rewrite ?Ha'', ?Ha', ?Hn'', ?Hn', ?Hit'; try done; lia.
    + busy_counts (mkTask nm ResultsGet mc Pending)
                  (mkTask nm ResultsGet false Pending) Hi.
      busy_eval.
      apply (Hgoal (Ok ResultsGet)); eauto;
        rewrite ?Ha'', ?Ha', ?Hn'', ?Hn', ?Hit'; try done; lia.
  - (* ResultsStore *)
    injection Hres as Hres.
    apply results_resume_effect in Hres as (_ & _ & Ha' & Hn' & Hit & Hcase).
    pose proof (count_ge busy_results _ _ _ Hi) as Hbusy. busy_eval.
    destruct Hcase as [[-> Hu]|(e & -> & Hu & Hu')]; [|lia].
    busy_counts (mkTask nm (ResultsStore data m) mc Pending)
                (mkTask nm ResultsGet false Pending) Hi.
    busy_eval.
    apply (Hgoal (Ok ResultsGet)); eauto;
      rewrite ?Ha', ?Hn', ?Hit; try done; lia.
Qed.

Lemma Exists_request_cancel k ts :
  Exists (has_kind k) ts → Exists (has_kind k) (map request_cancel ts).
Proof.
  induction 1 as [t ts Ht|t ts _ IH]; simpl; [left|by right].
  unfold has_kind in *. by destruct t as [? ? ? []].
Qed.

Lemma live_main_step sys sys' :
  live sys → main_step sys = Some sys' → live sys'.
Proof.
  intros Hl Hstep.
  pose proof (safe_main_step _ _ (live_safe _ Hl) Hstep) as Hsafe'.
  destruct Hl as [Hs Hla Hln Hlr Hpend Harn Hkeep Hlook Hretr Hresw].
  destruct sys as [s pc]. unfold main_step in Hstep. cbn [runner main] in *.
  destruct pc; try done.
  - destruct (Queue.joinable (account_queue s)); [|done]. injection Hstep as <-.
    constructor; cbn [runner main main_rank] in *; auto.
  - destruct (Queue.joinable (arn_queue s)); [|done]. injection Hstep as <-.
    constructor; cbn [runner main main_rank] in *; auto.
  - destruct (Queue.joinable (results_queue s)); [|done]. injection Hstep as <-.
    constructor; cbn [runner main main_rank] in *; auto.
  - injection Hstep as <-. rewrite clean_up_eq in *.
    apply live_late; cbn [runner main main_rank snd retrievers tasks] in *;
      auto using Exists_request_cancel.
  - destruct (forallb task_finished (tasks s)); [|done]. injection Hstep as <-.
    apply live_late; cbn [runner main main_rank] in *; auto.
Qed.

Lemma live_step env sys sys' : live sys → step env sys sys' → live sys'.
Proof.
  intros Hs Hstep. inversion Hstep as [i sys1 s' Ht|sys1 sys2 Hm]; subst.
  - eapply live_task_step; eauto.
  - eapply live_main_step; eauto.
Qed.

Lemma live_rtc env sys sys' : live sys → rtc (step env) sys sys' → live sys'.
Proof. intros Hs Hrtc. induction Hrtc; eauto using live_step. Qed.

Lemma workers_has_kind prefix p n :
  1 ≤ n → Exists (has_kind (kind_of p)) (workers prefix p n).
Proof.
  intros Hn. destruct n as [|n]; [lia|]. unfold workers. simpl. by left.
Qed.

Lemma live_start env registered accounts arns sys0 :
  1 ≤ num_workers env →
  Forall keeps_arn (registered ++ [AccessAdvisorRetriever env]) →
  start env registered accounts arns = RunStarted sys0 →
  live sys0.
Proof.
  intros HN Hkeep Hstart. pose proof (safe_start _ _ _ _ _ Hstart) as Hsafe.
  apply start_started in Hstart as (Hm & Ht & Hrs & Hr & _ & Ha & Hn & Hgiven & _).
  constructor; rewrite ?Hm, ?Ht, ?Hrs, ?Hr, ?Ha, ?Hn; simpl; try done; try lia.
  - intros _. apply Forall_forall. intros t Hin.
    by apply launched_idle in Hin as (_ & _ & ?).
  - intros Hne. unfold launched. destruct (is_given arns) eqn:Hg.
    { by rewrite Hgiven in Hne. }
    apply Exists_app. left. by apply (workers_has_kind _ LookupGet).
  - unfold launched. apply Exists_app. right. apply Exists_app. left.
    by apply (workers_has_kind _ RetrieverGet).
  - unfold launched. apply Exists_app. right. apply Exists_app. right.
    by apply (workers_has_kind _ ResultsGet).
Qed.

Lemma count_pos_inv (f : Task → bool) ts :
  1 ≤ count f ts → ∃ i t, ts !! i = Some t ∧ f t = true.
Proof.
  unfold count. induction ts as [|t ts IH]; simpl; [lia|].
  destruct (f t) eqn:Hf.
  - intros _. by exists 0, t.
  - intros H. destruct IH as (i & t' & Hi & Ht'); [lia|]. by exists (S i), t'.
Qed.

Lemma Exists_lookup {A} (P : A → Prop) (l : list A) :
  Exists P l → ∃ i x, l !! i = Some x ∧ P x.
Proof.
  intros (x & Hx & HP)%Exists_exists. apply list_elem_of_lookup in Hx as [i Hi].
  by exists i, x.
Qed.

Lemma task_step_enabled env i s t :
  tasks s !! i = Some t →
  task_status t = Pending →
  must_cancel t = false →
  is_Some (resume env (task_pos t) s) →
  ∃ s2, task_step env i s = Some s2.
Proof.
  intros Hi Hst Hmc [[r s1] Hr]. unfold task_step. rewrite Hi, Hst, Hmc, Hr.
  destruct r; eauto.
Qed.

Lemma task_step_cancel env i s t :
  tasks s !! i = Some t →
  task_status t = Pending →
  must_cancel t = true →
  ∃ s2, task_step env i s = Some s2.
Proof. intros Hi Hst Hmc. unfold task_step. rewrite Hi, Hst, Hmc. eauto. Qed.

Lemma unfinished_task (ts : list Task) :
  forallb task_finished ts = false →
  ∃ i t, ts !! i = Some t ∧ task_status t = Pending.
Proof.
  induction ts as [|t ts IH]; simpl; [done|].
  destruct (task_finished t) eqn:Hf; simpl.
  - intros H. destruct (IH H) as (i & t' & Hi & Ht'). by exists (S i), t'.
  - intros _. exists 0, t. split; [done|].
    unfold task_finished in Hf. by destruct (task_status t).
Qed.

(** While [run] has not returned, someone can take a turn. *)
Lemma live_progress env sys :
  live sys → tidy sys → main sys ≠ Returned → ∃ sys', step env sys sys'.
Proof.
  intros [[Ha Hn Hr Hja Hjn Hjr Hc] Hla Hln Hlr Hpend Harn Hkeep Hlook Hretr Hresw]
         [_ _ Hcan _] Hmain.
  destruct sys as [s pc]. cbn [runner main] in *.
  assert (∀ i s2, task_step env i s = Some s2 → ∃ sys', step env (mkSystem s pc) sys')
    as Htask.
  { intros i s2 H. eexists. by apply (step_task env i (mkSystem s pc) s2). }
  assert (∀ sys', main_step (mkSystem s pc) = Some sys' →
            ∃ sys', step env (mkSystem s pc) sys') as Hmainstep.
  { intros sys' H. exists sys'. by apply step_main. }
  assert (main_rank pc ≤ 3 → ∀ i t, tasks s !! i = Some t →
            is_Some (resume env (task_pos t) s) →
            ∃ sys', step env (mkSystem s pc) sys') as Hworker.
  { intros Hle i t Hi Hres. specialize (Hc Hle). specialize (Hpend Hle).
    rewrite Forall_lookup in Hc, Hpend.
    destruct (task_step_enabled env i s t) as [s2 Hs2]; eauto. }
  destruct pc; cbn [main_rank] in *; try done.
  - (* the account queue *)
    destruct (Queue.joinable (account_queue s)) eqn:Hj.
    { eapply Hmainstep. unfold main_step. cbn [runner main]. by rewrite Hj. }
    apply Nat.eqb_neq in Hj.
    destruct (items (account_queue s)) as [|a rest] eqn:Hitems.
    + destruct (count_pos_inv busy_lookup (tasks s)) as (i & t & Hi & Ht);
        [simpl in Hla; lia|].
      apply (Hworker ltac:(lia) i t Hi). destruct t as [? [] ? []]; try done;
        by eexists.
    + destruct (Exists_lookup _ _ (Hlook ltac:(done))) as (i & t & Hi & Ht).
      apply (Hworker ltac:(lia) i t Hi). unfold has_kind in Ht.
      destruct (task_pos t); try done; cbn [resume]; try by eexists.
      unfold account_queue_get, Queue.get. rewrite Hitems. by eexists.
  - (* the ARN queue *)
    destruct (Queue.joinable (arn_queue s)) eqn:Hj.
    { eapply Hmainstep. unfold main_step. cbn [runner main]. by rewrite Hj. }
    apply Nat.eqb_neq in Hj.
    destruct (items (arn_queue s)) as [|a rest] eqn:Hitems.
    + destruct (count_pos_inv busy_retriever (tasks s)) as (i & t & Hi & Ht);
        [simpl in Hln; lia|].
      apply (Hworker ltac:(lia) i t Hi). destruct t as [? [] ? []]; try done;
        by eexists.
    + destruct (Exists_lookup _ _ Hretr) as (i & t & Hi & Ht).
      apply (Hworker ltac:(lia) i t Hi). unfold has_kind in Ht.
      destruct (task_pos t); try done; cbn [resume]; try by eexists.
      unfold arn_queue_get, Queue.get. rewrite Hitems. by eexists.
  - (* the results queue *)
    destruct (Queue.joinable (results_queue s)) eqn:Hj.
    { eapply Hmainstep. unfold main_step. cbn [runner main]. by rewrite Hj. }
    apply Nat.eqb_neq in Hj.
    destruct (items (results_queue s)) as [|d rest] eqn:Hitems.
    + destruct (count_pos_inv busy_results (tasks s)) as (i & t & Hi & Ht);
        [simpl in Hlr; lia|].
      apply (Hworker ltac:(lia) i t Hi). destruct t as [? [] ? []]; try done;
        by eexists.
    + destruct (Exists_lookup _ _ Hresw) as (i & t & Hi & Ht).
      apply (Hworker ltac:(lia) i t Hi). unfold has_kind in Ht.
      destruct (task_pos t); try done; cbn [resume]; try by eexists.
      unfold results_queue_get, Queue.get. rewrite Hitems. by eexists.
  - (* the clean-up *)
    eapply Hmainstep. unfold main_step. by cbn [runner main].
  - (* the tasks end *)
    destruct (forallb task_finished (tasks s)) eqn:Hf.
    { eapply Hmainstep. unfold main_step. cbn [runner main]. by rewrite Hf. }
    destruct (unfinished_task _ Hf) as (i & t & Hi & Hst).
    specialize (Hcan ltac:(lia)). rewrite Forall_lookup in Hcan.
    destruct (task_step_cancel env i s t Hi Hst (Hcan _ _ Hi Hst)) as [s2 Hs2].
    eauto.
Qed.


(** ** Rounds and turns agree *)

Lemma phases_from_next p :
  phases_from p
  = p :: match next_phase p with Some p' => phases_from p' | None => [] end.
Proof. by destruct p. Qed.

Lemma lookup_resume_eq env a p s :
  lookup_resume env a p s =
  let s1 := queued (phase_outcome env p a).1 (phase_events env a p) s in
  match (phase_outcome env p a).2, next_phase p with
  | None, Some p' => (Ok (LookupPhase a p'), s1)
  | failed, _ => lookup_finish a failed s1
  end.
Proof.
  unfold lookup_resume, lookup_finish, arn_lookup_except, try_except, bind.
  rewrite run_phase_queued. cbn zeta.
  generalize (phase_events env a p). intros evs.
  destruct (phase_outcome env p a) as [l [e|]]; destruct (next_phase p);
    destruct s as [? [? [|n]] [] ? ? ? ? ?]; unfold queued; munfold; done.
Qed.

(** The turns of an ARN lookup worker from phase [p] on. *)
Lemma to_next_get_lookup env a p s :
  to_next_get env (length (phases_from p)) (LookupPhase a p) s
  = lookup_finish a (enum_run env a (phases_from p)).2
      (queued (emitted_by env a (enum_run env a (phases_from p)).1)
              (events_of env a (enum_run env a (phases_from p)).1) s).
Proof.
  assert (∀ n p s, length (phases_from p) ≤ n →
    to_next_get env n (LookupPhase a p) s
    = lookup_finish a (enum_run env a (phases_from p)).2
        (queued (emitted_by env a (enum_run env a (phases_from p)).1)
                (events_of env a (enum_run env a (phases_from p)).1) s)) as H.
  { clear. intros n. induction n as [|n IH]; intros p s Hn.
    { destruct p; simpl in Hn; lia. }
    cbn [to_next_get]. unfold bind at 1. rewrite lookup_resume_eq. cbn zeta.
    rewrite (phases_from_next p). cbn [enum_run].
    destruct (phase_outcome env p a) as [l [e|]] eqn:E; cbn [fst snd].
    - unfold emitted_by, events_of. cbn [flat_map]. rewrite E, !app_nil_r. cbn [fst].
      assert (∀ s0, to_next_get env n LookupGet s0 = (Ok LookupGet, s0)) as Hget
        by (intros; by destruct n).
      destruct (lookup_finish a (Some e) _) as [[p'|e'] s2] eqn:Hf; [|done].
      assert (p' = LookupGet) as ->; [|apply Hget].
      unfold lookup_finish, bind, ret in Hf.
      repeat (case_match; simplify_eq); done.
    - destruct (next_phase p) as [p'|] eqn:Hnext.
      + assert (length (phases_from p') ≤ n) as Hn'.
        { clear -Hn Hnext. destruct p; simpl in *; simplify_eq; simpl; lia. }
        rewrite IH by done.
        rewrite queued_queued. unfold emitted_by, events_of. cbn [flat_map].
        by rewrite E.
      + cbn [enum_run]. unfold emitted_by, events_of. cbn [flat_map].
        rewrite E, !app_nil_r. cbn [fst].
        destruct (lookup_finish a None _) as [[p'|e'] s2] eqn:Hf; [|done].
        assert (p' = LookupGet) as ->; [|by destruct n].
        unfold lookup_finish, bind, ret in Hf.
        repeat (case_match; simplify_eq); done. }
  by apply H.
Qed.

(** A round of [_arn_lookup_loop] is five turns of the worker. *)
Lemma lookup_round_turns env account s :
  to_next_get env 5 (LookupPhase account PConn) s
  = (_arn_lookup_loop_body env account ;; ret LookupGet) s.
Proof.
  change 5 with (length (phases_from PConn)).
  rewrite (to_next_get_lookup env account PConn s).
  change (phases_from PConn) with all_phases.
  unfold _arn_lookup_loop_body, lookup_finish.
  unfold bind at 3 4. unfold try_except. rewrite _get_arns_for_account_eq.
  unfold enum_error, emitted, enum_events, performed.
  destruct (enum_run env account all_phases) as [ps [e|]]; cbn [fst snd result_of].
  - unfold bind. by repeat case_match.
  - unfold bind, ret. by repeat case_match.
Qed.

(** A round of [_results_loop] is one or two turns of the worker. *)
Lemma results_round_turns env data s :
  (p <- results_begin data ;; to_next_get env 1 p) s
  = (_results_loop_body env data ;; ret ResultsGet) s.
Proof.
  unfold results_begin, _results_loop_body, to_next_get, results_resume,
    results_prepare, results_store, results_except, getitem, dict1.
  destruct s as [? [] [] [? [|n]] ? ? ? ?]; munfold;
    repeat (case_match; simplify_eq; munfold); done.
Qed.

(** A round of [_retriever_loop] is one turn of the worker. *)
Lemma retriever_round_turns env arn s :
  to_next_get env 1 (RetrieverRun arn) s
  = (_retriever_loop_body arn ;; ret RetrieverGet) s.
Proof.
  cbn [to_next_get]. unfold retriever_resume, bind.
  destruct (_retriever_loop_body arn s) as [[[]|] ?]; done.
Qed.

(** ** The scenarios *)

Lemma run_schedule_rtc env sched sys sys' :
  run_schedule env sched sys = Some sys' → rtc (step env) sys sys'.
Proof.
  revert sys. induction sched as [|who sched IH]; intros sys; simpl.
  - intros [= ->]. apply rtc_refl.
  - destruct (turn env who sys) as [sys1|] eqn:Hturn; [|done]. intros Hrun.
    eapply rtc_l; [|by apply IH]. destruct who as [i|]; simpl in Hturn.
    + destruct (task_step env i (runner sys)) as [s'|] eqn:Hs; [|done].
      injection Hturn as <-. by apply (step_task env i).
    + by apply step_main.
Qed.

Lemma C4_witness :
  _run_retrievers "id:alpha" Examples.alpha_runner
  = (Ok alpha_record, (_run_retrievers "id:alpha" Examples.alpha_runner).2)
  ∧ fold_left (chain_step "id:alpha") (retrievers Examples.alpha_runner)
      (Ok {["arn" := VStr "id:alpha"]}) = Ok alpha_record.
Proof.
  assert (_run_retrievers "id:alpha" Examples.alpha_runner
          = (Ok alpha_record, (_run_retrievers "id:alpha" Examples.alpha_runner).2)) as H.
  { vm_compute. reflexivity. }
  split; [exact H|].
  exact (proj1 (C4_chain_is_left_fold "id:alpha" Examples.alpha_runner _ alpha_record H)).
Defined.

Lemma C5_witness :
  ∃ s, arn_queue_get (Examples.with_arn "r1" Examples.failing_runner) = Some ("r1", s)
       ∧ (_run_retrievers "r1" s).1
         = Raise (RetrieverException "" (Some (OtherException "boom")))
       ∧ (_retriever_loop_body "r1" s).1 = Ok ().
Proof.
  eexists. split; [reflexivity|].
  epose proof (C5_chain_failure_is_isolated "r1"
                (Examples.with_arn "r1" Examples.failing_runner) _
                [addField "x" (VInt 1)] [addField "y" (VInt 2)]
                (failing (OtherException "boom"))
                (<["x" := VInt 1]> {["arn" := VStr "r1"]})
                (OtherException "boom")) as H.
  destruct H as (H1 & H2 & _).
  - unfold queue_ok. simpl. lia.
  - reflexivity.
  - reflexivity.
  - reflexivity.
  - reflexivity.
  - split; [exact H1|exact H2].
Defined.

Lemma C1_witness :
  ∃ s, results_queue_get (Examples.with_result Examples.advised_record init)
       = Some (Examples.advised_record, s)
       ∧ stored (history (_results_loop_body (Examples.env 1 (Ok []))
                            Examples.advised_record s).2)
         = stored (history s) ++ [[(VStr "id:alpha", VDict ∅)]].
Proof.
  eexists. split; [reflexivity|].
  refine (proj1 (proj2 (C1_write_is_access_advisor_entry (Examples.env 1 (Ok []))
            Examples.advised_record "id:alpha" (VDict ∅)
            (Examples.with_result Examples.advised_record init) _ _ _ _))).
  - split; [unfold queue_ok; simpl; lia|reflexivity].
  - reflexivity.
  - reflexivity.
Defined.

(** The scenario of C1 on the code: the chain yields the record
    [{arn, x, y}]; the results loop makes no call to the persistence
    plugin for it and puts it on the failure queue.  A record that has
    an ["access_advisor"] field is stored under its ARN with that field
    as the value, not with the record. *)
Lemma C1_counterexample :
  (_run_retrievers "id:alpha" Examples.alpha_runner).1 = Ok alpha_record
  ∧ (∃ s, results_queue_get (Examples.with_result alpha_record init)
          = Some (alpha_record, s)
          ∧ let s' := (_results_loop_body (Examples.env 1 (Ok [])) alpha_record s).2 in
            stored (history s') = []
            ∧ stored (history s') ≠ [[(VStr "id:alpha", VDict alpha_record)]]
            ∧ items (failure_queue s') = [IDict alpha_record])
  ∧ (∃ s, results_queue_get (Examples.with_result Examples.advised_record init)
          = Some (Examples.advised_record, s)
          ∧ let s' := (_results_loop_body (Examples.env 1 (Ok []))
                         Examples.advised_record s).2 in
            stored (history s') = [[(VStr "id:alpha", VDict ∅)]]
            ∧ stored (history s')
              ≠ [[(VStr "id:alpha", VDict Examples.advised_record)]]).
Proof.
  split; [vm_compute; reflexivity|]. split.
  - eexists. split; [reflexivity|]. vm_compute. repeat split; done.
  - eexists. split; [reflexivity|]. vm_compute. split; [done|]. intros [=].
Qed.


Lemma C6_witness :
  enumeration_call_raises Examples.env_users_fail "111111111111"
  ∧ ∃ s, account_queue_get (Examples.with_account "111111111111" init)
         = Some ("111111111111", s)
         ∧ (_arn_lookup_loop_body Examples.env_users_fail "111111111111" s).1 = Ok ()
         ∧ (∃ e, (_get_arns_for_account Examples.env_users_fail "111111111111" s).1
                 = Raise e).
Proof.
  assert (enumeration_call_raises Examples.env_users_fail "111111111111") as Hr.
  { right. left. by eexists. }
  split; [exact Hr|].
  eexists. split; [reflexivity|].
  epose proof (C6_enumeration_failure_keeps_emitted Examples.env_users_fail
                "111111111111" (Examples.with_account "111111111111" init) _) as H.
  destruct H as (H1 & H2 & _).
  - split; [unfold queue_ok; simpl; lia|reflexivity].
  - split; [exact H1|exact (H2 Hr)].
Defined.

Lemma C8_witness :
  tasks (run_start (Examples.env 2 (Ok [])) None (Some ["a"]) init).2
  = [mkTask "retriever-worker-0" RetrieverGet false Pending;
     mkTask "retriever-worker-1" RetrieverGet false Pending;
     mkTask "results-worker-0" ResultsGet false Pending;
     mkTask "results-worker-1" ResultsGet false Pending].
Proof.
  refine (proj1 (C8_workers_launched (Examples.env 2 (Ok [])) None (Some ["a"])
                   (run_start (Examples.env 2 (Ok [])) None (Some ["a"]) init).2 _)).
  vm_compute. reflexivity.
Defined.

(** C8 on the code: no ARNs and no accounts are given and SWAG knows no
    account; nothing is put on the account queue, and the ARN lookup
    worker is created all the same. *)
Lemma C8_counterexample :
  let r := run_start (Examples.env 1 (Ok [])) None None init in
  r.1 = Ok ()
  ∧ account_queue r.2 = Queue.new
  ∧ arns_put (history r.2) = []
  ∧ tasks r.2 = [mkTask "arn-lookup-worker-0" LookupGet false Pending;
                 mkTask "retriever-worker-0" RetrieverGet false Pending;
                 mkTask "results-worker-0" ResultsGet false Pending].
Proof. vm_compute. done. Qed.


(** ** More on the worker loops *)

(** X1: when every plugin of the chain succeeds for an ARN taken from
    the queue, the round of [_retriever_loop] puts the final record at
    the end of the results queue and only then acknowledges the ARN;
    nothing goes to the failure queue or to [failed_arns], and the
    worker is back at its [get]. *)
Theorem X1_chain_success_reaches_results
    (arn : string) (s0 s : Runner) (final : record) :
  queue_ok (arn_queue s0) →
  arn_queue_get s0 = Some (arn, s) →
  chain arn (retrievers s) {["arn" := VStr arn]} = Ok final →
  (_run_retrievers arn s).1 = Ok final
  ∧ (_retriever_loop_body arn s).1 = Ok ()
  ∧ let s' := (_retriever_loop_body arn s).2 in
    history s' = history s ++ map (retriever_call arn) (retrievers s)
                 ++ [EPut ResultsQ (IDict final); ETaskDone ArnQ]
    ∧ results_queue s' = Queue.put final (results_queue s)
    ∧ failure_queue s' = failure_queue s
    ∧ failed_arns s' = failed_arns s
    ∧ items (arn_queue s') = items (arn_queue s)
    ∧ S (unfinished_tasks (arn_queue s')) = unfinished_tasks (arn_queue s0)
    ∧ retriever_resume arn s = (Ok RetrieverGet, s').
Proof.
  intros Hok Hget Hc.
  destruct (arn_queue_get_inv _ _ _ Hget) as (Hitems & Hunf & _).
  assert (∃ n, unfinished_tasks (arn_queue s) = S n) as [n Hn].
  { unfold queue_ok in Hok. rewrite Hitems in Hok. simpl in Hok.
    exists (pred (unfinished_tasks (arn_queue s0))). lia. }
  split.
  { rewrite _run_retrievers_eq. simpl. by rewrite Hc. }
  unfold retriever_resume, bind.
  rewrite (retriever_body_ok _ _ _ _ Hc Hn). simpl.
  repeat split; try done. lia.
Qed.

(** X2: a record without ["arn"] ends the results worker.  Line 107
    reads [data['arn']] before the [try]: the [KeyError] leaves the
    loop, the record is neither stored nor put on the failure queue,
    nothing is logged, and the item is never acknowledged. *)
Theorem X2_record_without_arn_ends_the_worker
    (env : Env) (data : record) (s0 s : Runner) :
  results_queue_get s0 = Some (data, s) →
  data !! "arn" = None →
  _results_loop_body env data s = (Raise (KeyError "arn"), s)
  ∧ history s = history s0 ++ [EGet ResultsQ (IDict data)]
  ∧ failure_queue s = failure_queue s0
  ∧ unfinished_tasks (results_queue s) = unfinished_tasks (results_queue s0)
  ∧ (∀ i t, tasks s0 !! i = Some t →
       task_pos t = ResultsGet → task_status t = Pending → must_cancel t = false →
       task_step env i s0
       = Some (set_tasks (<[i := mkTask (task_name t) ResultsGet false
                                         (Failed (KeyError "arn"))]>) s)).
Proof.
  intros Hget Ha.
  destruct (results_queue_get_inv _ _ _ Hget) as (Hitems & Hunf & Hf & Hh).
  split.
  { unfold _results_loop_body, getitem. rewrite Ha. done. }
  repeat split; try done.
  intros i t Hi Hp Hst Hmc. unfold task_step. rewrite Hi, Hst, Hmc, Hp. simpl.
  rewrite Hget. unfold results_begin, getitem. rewrite Ha. done.
Qed.

(** X3: when [store_role_data] raises, the exception is caught: it is
    logged, the whole record goes to the failure queue, the item is
    acknowledged and the worker is back at its [get].  The call was made
    once and is not repeated. *)
Theorem X3_store_failure_is_caught
    (env : Env) (data : record) (k : string) (v : value) (e : exn) (s0 s : Runner) :
  holding_result data s0 s →
  data !! "arn" = Some (VStr k) →
  data !! "access_advisor" = Some v →
  store_role_data env [(VStr k, v)] = Raise e →
  (_results_loop_body env data s).1 = Ok ()
  ∧ let s' := (_results_loop_body env data s).2 in
    history s' = history s ++ [ECall (CStoreRoleData [(VStr k, v)]);
                               ELog (LogResultsLoop e);
                               EPut FailureQ (IDict data); ETaskDone ResultsQ]
    ∧ failure_queue s' = Queue.put (IDict data) (failure_queue s)
    ∧ items (results_queue s') = items (results_queue s)
    ∧ S (unfinished_tasks (results_queue s')) = unfinished_tasks (results_queue s0)
    ∧ results_begin data s = (Ok (ResultsStore data [(VStr k, v)]), s)
    ∧ results_resume env data [(VStr k, v)] s = (Ok ResultsGet, s').
Proof.
  intros Hh Ha Hv He.
  destruct (holding_result_unfinished _ _ _ Hh) as (n & Hn & Hn0).
  rewrite (results_body_store env data k v s n Ha Hv Hn), He. simpl.
  repeat split; try done; try lia.
  - unfold results_begin, results_prepare, getitem. rewrite Ha, Hv. by destruct s.
  - unfold results_resume, results_store, results_except.
    destruct s; munfold. rewrite He. munfold. rewrite Hn. munfold.
    by rewrite <- !app_assoc.
Qed.

(** X4: when the connection and the four listings succeed,
    [_get_arns_for_account] makes the five calls in the order
    connection, roles, users, policies, groups, and puts the ARNs on the
    ARN queue in that order: roles, users, the policies page by page,
    the groups page by page; nothing else changes. *)
Theorem X4_enumeration_order
    (env : Env) (account : string) (roles users : list string) (s : Runner) :
  boto3_cached_conn env account = Ok () →
  list_roles env account = Ok roles →
  list_users env account = Ok users →
  (list_policies env account).2 = None →
  (list_groups env account).2 = None →
  let policies := concat (list_policies env account).1 in
  let groups := concat (list_groups env account).1 in
  (_get_arns_for_account env account s).1 = Ok ()
  ∧ let s' := (_get_arns_for_account env account s).2 in
    items (arn_queue s') = items (arn_queue s) ++ roles ++ users ++ policies ++ groups
    ∧ unfinished_tasks (arn_queue s')
      = length (roles ++ users ++ policies ++ groups) + unfinished_tasks (arn_queue s)
    ∧ history s' = history s
        ++ ECall (CConn account)
        :: ECall (CListRoles account) :: map put_event roles
        ++ ECall (CListUsers account) :: map put_event users
        ++ ECall (CListPolicies account) :: map put_event policies
        ++ ECall (CListGroups account) :: map put_event groups
    ∧ account_queue s' = account_queue s
    ∧ results_queue s' = results_queue s
    ∧ failure_queue s' = failure_queue s.
Proof.
  intros Hc Hr Hu Hp Hg policies groups.
  rewrite _get_arns_for_account_eq.
  unfold enum_error, emitted, enum_events, performed, all_phases.
  cbn [enum_run phase_outcome]. rewrite Hc, Hr, Hu, Hp, Hg. cbn [listed fst snd].
  unfold emitted_by, events_of, phase_events. cbn [flat_map phase_outcome phase_call].
  rewrite Hc, Hr, Hu. cbn [listed fst snd result_of queued items unfinished_tasks
    arn_queue history account_queue results_queue failure_queue map app].
  rewrite !app_nil_r. repeat split; done.
Qed.

(** X5: when the connection to the account cannot be made, no listing
    is attempted and no ARN is queued; the round of [_arn_lookup_loop]
    logs the exception, puts the account on the failure queue and
    acknowledges it. *)
Theorem X5_connection_failure_stops_the_enumeration
    (env : Env) (account : string) (e : exn) (s0 s : Runner) :
  holding_account account s0 s →
  boto3_cached_conn env account = Raise e →
  _get_arns_for_account env account s
  = (Raise e, set_history (λ h, h ++ [ECall (CConn account)]) s)
  ∧ (_arn_lookup_loop_body env account s).1 = Ok ()
  ∧ let s' := (_arn_lookup_loop_body env account s).2 in
    history s' = history s ++ [ECall (CConn account); ELog (LogArnLookup e);
                               EPut FailureQ (IStr account); ETaskDone AccountQ]
    ∧ arn_queue s' = arn_queue s
    ∧ failure_queue s' = Queue.put (IStr account) (failure_queue s)
    ∧ S (unfinished_tasks (account_queue s')) = unfinished_tasks (account_queue s0).
Proof.
  intros Hh He. destruct (holding_account_unfinished _ _ _ Hh) as (n & Hn & Hn0).
  assert (enum_run env account all_phases = ([PConn], Some e)) as Hrun.
  { unfold all_phases. cbn [enum_run phase_outcome]. by rewrite He. }
  split.
  { unfold _get_arns_for_account, connect. destruct s. munfold. by rewrite He. }
  rewrite (lookup_body_eq env account s n Hn).
  unfold enum_error, emitted, enum_events, performed. rewrite Hrun.
  unfold emitted_by, events_of, phase_events.
  cbn [fst snd flat_map phase_outcome phase_call].
  rewrite He. simpl. repeat split; try done; try lia.
  destruct s as [? ? [] ? ? ? ? ?]. simpl. by rewrite app_nil_r.
Qed.

(** ** More on the seeding *)

Ltac swag_case :=
  solve [ left; eexists; split; [reflexivity|]; split; [done|]; by rewrite ?app_nil_r
        | right; by rewrite ?app_nil_r ].

(** X6: [_get_swag_accounts] never lets a [KeyError], an
    [InvalidSWAGDataException] or a [ClientError] escape: each is logged
    once and wrapped in a [RetrieverException] that keeps it as its
    cause; any other exception of the SWAG calls passes unlogged.  A
    configuration without ["filter"] fails before SWAG is called, one
    without ["service_enabled_requirement"] after the first call.  Only
    the history of the runner changes. *)
Theorem X6_swag_failures_are_wrapped (env : Env) (s : Runner) :
  let r := _get_swag_accounts env s in
  (∀ x, r.1 = Raise x →
     is_swag_failure x = false
     ∧ ∃ calls,
         (∃ c, x = RetrieverException "could not retrieve SWAG data" (Some c)
               ∧ is_swag_failure c = true
               ∧ history r.2 = history s ++ map ECall calls ++ [ELog (LogSwag c)])
         ∨ history r.2 = history s ++ map ECall calls)
  ∧ (swag_config env !! "filter" = None →
       r = (Raise (RetrieverException "could not retrieve SWAG data"
                     (Some (KeyError "filter"))),
            set_history (λ h, h ++ [ELog (LogSwag (KeyError "filter"))]) s))
  ∧ (∀ f l, swag_config env !! "filter" = Some f →
       swag_get_all env f = Ok l →
       swag_config env !! "service_enabled_requirement" = None →
       r = (Raise (RetrieverException "could not retrieve SWAG data"
                     (Some (KeyError "service_enabled_requirement"))),
            set_history (λ h, h ++ [ECall (CSwagGetAll f);
                                    ELog (LogSwag (KeyError "service_enabled_requirement"))])
              s))
  ∧ r.2 = set_history (λ _, history r.2) s.
Proof.
  cbn zeta. unfold _get_swag_accounts, getitem. split; [|split; [|split]].
  - intros x. destruct s. munfold.
    repeat (case_match; simplify_eq; munfold; try done); intros [= <-];
      (split; [done|]).
    all: rewrite <- ?app_assoc; simpl.
    all: first
      [ match goal with |- context [ECall ?c1 :: ECall ?c2 :: _] =>
          exists [c1; c2]; swag_case end
      | match goal with |- context [ECall ?c1 :: _] => exists [c1]; swag_case end
      | exists []; swag_case ].
  - intros ->. by destruct s.
  - intros f l -> Hl ->. destruct s. munfold. rewrite Hl. munfold.
    by rewrite <- !app_assoc.
  - destruct s. munfold. repeat (case_match; simplify_eq; munfold; try done).
Qed.

(** X7: the calls of a SWAG lookup that succeeds.  Without a service
    requirement (the setting is empty) the inventory is fetched twice
    with the same filter and the second answer is returned; with one,
    the accounts of [get_all] are passed to [get_service_enabled], whose
    answer is returned. *)
Theorem X7_swag_lookup_calls
    (env : Env) (f svc : value) (l : list Account) (s : Runner) :
  swag_config env !! "filter" = Some f →
  swag_config env !! "service_enabled_requirement" = Some svc →
  swag_get_all env f = Ok l →
  (truthy svc = false →
     _get_swag_accounts env s
     = (Ok l, set_history (λ h, h ++ [ECall (CSwagGetAll f); ECall (CSwagGetAll f)]) s))
  ∧ (∀ l', truthy svc = true →
       swag_get_service_enabled env svc l = Ok l' →
       _get_swag_accounts env s
       = (Ok l', set_history (λ h, h ++ [ECall (CSwagGetAll f);
                                         ECall (CSwagServiceEnabled svc)]) s)).
Proof.
  intros Hf Hsvc Hl. unfold _get_swag_accounts, getitem. split.
  - intros Ht. destruct s. munfold. rewrite Hf, Hl, Hsvc. munfold.
    rewrite Ht. munfold. by rewrite <- !app_assoc.
  - intros l' Ht Hl'. destruct s. munfold. rewrite Hf, Hl, Hsvc. munfold.
    rewrite Ht. munfold. rewrite Hl'. munfold. by rewrite <- !app_assoc.
Qed.

Lemma for_account_queue_put (accts : list Account) s :
  for_ accts (λ account, account_queue_put (id account)) s
  = (Ok (), seeded (map id accts) []
              (map (λ a, EPut AccountQ (IStr (id a))) accts) s).
Proof.
  revert s. induction accts as [|a accts IH]; intros s; simpl.
  - unfold ret. by rewrite seeded_nil.
  - unfold bind. destruct (seeds_account_queue_put (id a) s) as (l & evs & Hs & _).
    assert (account_queue_put (id a) s
            = (Ok (), seeded [id a] [] [EPut AccountQ (IStr (id a))] s)) as ->.
    { destruct s as [? [] [] ? ? ? ? ?]. unfold seeded. munfold. by rewrite !app_nil_r. }
    by rewrite IH, seeded_seeded.
Qed.

(** X8: [run] without ARNs and without accounts (or with empty lists)
    puts the [id] of every account of the SWAG answer on the account
    queue, once per entry and in SWAG's order. *)
Theorem X8_every_swag_account_is_queued
    (env : Env) (registered : list RetrieverPlugin)
    (accounts arns : option (list string)) (accts : list Account) :
  is_given arns = false →
  is_given accounts = false →
  swag_lookup env = Ok accts →
  ∃ sys0,
    start env registered accounts arns = RunStarted sys0
    ∧ account_queue (runner sys0) = mkQueue (map id accts) (length accts)
    ∧ arn_queue (runner sys0) = Queue.new
    ∧ history (runner sys0)
      = swag_events env ++ map (λ a, EPut AccountQ (IStr (id a))) accts
        ++ created (launched env arns).
Proof.
  intros Hg Ha Hl. unfold start, run_start, register_retriever.
  unfold bind, modify, ret. rewrite Hg, Ha.
  unfold set_retrievers, set_arn_queue, set_account_queue, set_results_queue,
    set_failure_queue, init. simpl.
  unfold _queue_all_accounts, bind. rewrite _get_swag_accounts_eq, Hl.
  rewrite for_account_queue_put.
  rewrite !create_workers_eq. eexists. split; [reflexivity|].
  simpl. unfold launched. rewrite Hg. rewrite length_map, Nat.add_0_r.
  repeat split; try done.
  unfold created. by rewrite !map_app, <- !app_assoc.
Qed.

(** X9: when ARNs are given, [run] puts them on the ARN queue in the
    order given, duplicates included, ignores the accounts argument and
    makes no call to SWAG: it cannot raise, and the account queue stays
    empty. *)
Theorem X9_given_arns_skip_the_lookup
    (env : Env) (registered : list RetrieverPlugin)
    (accounts arns : option (list string)) :
  is_given arns = true →
  ∃ sys0,
    start env registered accounts arns = RunStarted sys0
    ∧ arn_queue (runner sys0) = mkQueue (given arns) (length (given arns))
    ∧ account_queue (runner sys0) = Queue.new
    ∧ history (runner sys0) = map put_event (given arns) ++ created (launched env arns)
    ∧ (∀ accounts', start env registered accounts' arns = RunStarted sys0).
Proof.
  intros Hg. unfold start. rewrite (run_start_given env accounts arns _ Hg).
  eexists. split; [reflexivity|]. simpl. repeat split; try done.
  intros accounts'. by rewrite (run_start_given env accounts' arns _ Hg).
Qed.

(** X10: [run] on a runner that was used before.  The access advisor
    retriever is registered once more, the new workers are added to the
    tasks already in [tasks], [failed_arns] is kept, and the results and
    failure queues are replaced by new ones: after a second [run] the
    access advisor retriever is in the chain twice. *)
Theorem X10_run_again_registers_again
    (env : Env) (accounts arns : option (list string)) (s s' : Runner) :
  run_start env accounts arns s = (Ok (), s') →
  retrievers s' = retrievers s ++ [AccessAdvisorRetriever env]
  ∧ tasks s' = tasks s ++ launched env arns
  ∧ failed_arns s' = failed_arns s
  ∧ results_queue s' = Queue.new
  ∧ failure_queue s' = Queue.new
  ∧ unfinished_tasks (account_queue s') = length (items (account_queue s'))
  ∧ unfinished_tasks (arn_queue s') = length (items (arn_queue s'))
  ∧ (∀ accounts2 arns2 s'',
       run_start env accounts2 arns2 s' = (Ok (), s'') →
       retrievers s''
       = retrievers s ++ [AccessAdvisorRetriever env; AccessAdvisorRetriever env]
       ∧ tasks s'' = tasks s ++ launched env arns ++ launched env arns2).
Proof.
  assert (∀ accounts arns s s',
            run_start env accounts arns s = (Ok (), s') →
            retrievers s' = retrievers s ++ [AccessAdvisorRetriever env]
            ∧ tasks s' = tasks s ++ launched env arns
            ∧ failed_arns s' = failed_arns s
            ∧ results_queue s' = Queue.new
            ∧ failure_queue s' = Queue.new
            ∧ unfinished_tasks (account_queue s') = length (items (account_queue s'))
            ∧ unfinished_tasks (arn_queue s') = length (items (arn_queue s'))) as Hone.
  { clear. intros accounts arns s s' Hrun. destruct (is_given arns) eqn:Hg.
    - rewrite (run_start_given env accounts arns s Hg) in Hrun.
      injection Hrun as <-. by simpl.
    - destruct (run_start_lookup env accounts arns s Hg) as (accts & evs & _ & Heq).
      rewrite Heq in Hrun. destruct (swag_lookup env); [|done].
      injection Hrun as <-. by simpl. }
  intros Hrun. destruct (Hone _ _ _ _ Hrun) as (Hr & Ht & Hf & Hrq & Hfq & Ha & Hn).
  repeat split; try done.
  - destruct (Hone _ _ _ _ H) as (-> & _). by rewrite Hr, <- app_assoc.
  - destruct (Hone _ _ _ _ H) as (_ & -> & _). by rewrite Ht, <- app_assoc.
Qed.

(** ** More on the tasks *)

(** X11: [cancel] asks every task that has not finished to stop and
    leaves a finished task as it is; it writes one record per task, in
    the order of [tasks], and touches no queue.  Asking twice changes
    nothing more.  A task that was asked ends with [CancelledError] at
    its next turn, whatever it was doing, without any effect on the
    queues. *)
Theorem X11_cancel_requests_every_pending_task (env : Env) (s : Runner) :
  let s' := (cancel s).2 in
  (cancel s).1 = Ok ()
  ∧ tasks s' = map request_cancel (tasks s)
  ∧ Forall2 (λ t t', task_name t' = task_name t ∧ task_pos t' = task_pos t
                     ∧ task_status t' = task_status t
                     ∧ must_cancel t'
                       = if task_finished t then must_cancel t else true)
      (tasks s) (tasks s')
  ∧ history s' = history s ++ map (λ t, ECancel (task_name t)) (tasks s)
  ∧ account_queue s' = account_queue s
  ∧ arn_queue s' = arn_queue s
  ∧ results_queue s' = results_queue s
  ∧ failure_queue s' = failure_queue s
  ∧ tasks (cancel s').2 = tasks s'
  ∧ (∀ i t, tasks s' !! i = Some t →
       task_status t = Pending →
       task_step env i s'
       = Some (set_tasks (<[i := mkTask (task_name t) (task_pos t) true Cancelled]>) s')).
Proof.
  assert (∀ s1, cancel s1
                = (Ok (), mkRunner (retrievers s1) (account_queue s1) (arn_queue s1)
                            (results_queue s1) (failure_queue s1) (failed_arns s1)
                            (map request_cancel (tasks s1))
                            (history s1 ++ map (λ t, ECancel (task_name t)) (tasks s1))))
    as Heq.
  { intros s1. unfold cancel. unfold bind, gets, modify.
    rewrite for_emit_cancel. by destruct s1. }
  cbn zeta. rewrite !Heq. simpl. repeat split; try done.
  - apply Forall2_fmap_r, Forall_Forall2_diag, Forall_forall. intros t _.
    by destruct t as [? ? ? []].
  - rewrite <- list_fmap_compose. apply list_fmap_ext. intros j t _. simpl.
    by destruct t as [? ? ? []].
  - intros i t Hi Hst. unfold task_step. simpl. rewrite Hi, Hst.
    apply list_lookup_fmap_Some in Hi as (t0 & -> & Hi).
    unfold request_cancel in *. by destruct (task_status t0) eqn:E; simpl in *;
      rewrite ?E in *.
Qed.

(** ** The account tokens (lines 197-201) *)

Lemma queue_account_ids_step i accounts :
  queue_account_ids i accounts =
  match accounts !! i with
  | Some account =>
      if re_account_id_match account
      then account_queue_put account ;;
           queue_account_ids (S i) (list_remove account accounts)
      else queue_account_ids (S i) accounts
  | None => ret accounts
  end.
Proof. funelim (queue_account_ids i accounts); by rewrite e. Qed.

Lemma account_queue_put_seeded a s :
  account_queue_put a s = (Ok (), seeded [a] [] (account_puts [a]) s).
Proof. destruct s as [? [] [] ? ? ? ? ?]. unfold seeded. munfold. by rewrite !app_nil_r. Qed.

Lemma list_remove_perm x l : x ∈ l → l ≡ₚ x :: list_remove x l.
Proof.
  induction l as [|y l IH]; simpl; [by intros ?%elem_of_nil|].
  case_decide as Hxy; [by subst|].
  intros [?|Hin]%elem_of_cons; [done|]. rewrite (IH Hin) at 1. apply Permutation_swap.
Qed.

Lemma list_remove_sublist x l : list_remove x l `sublist_of` l.
Proof.
  induction l as [|y l IH]; simpl; [done|].
  case_decide; [by apply sublist_cons_r; left|by apply sublist_skip].
Qed.

Lemma list_remove_filter (P : string → Prop) `{∀ a, Decision (P a)} x l :
  ¬ P x → filter P (list_remove x l) = filter P l.
Proof.
  intros HP. induction l as [|y l IH]; simpl; [done|].
  case_decide as Hxy.
  - subst. by rewrite filter_cons_False.
  - by rewrite !filter_cons, IH.
Qed.

Lemma list_remove_at x l i :
  Forall (λ y, y ≠ x) (take i l) → l !! i = Some x →
  list_remove x l = take i l ++ drop (S i) l.
Proof.
  revert i. induction l as [|y l IH]; intros [|i]; simpl; try done.
  - intros _ [= ->]. by rewrite decide_True.
  - intros [Hy Hl]%Forall_cons Hi. rewrite decide_False by done.
    f_equal. by apply IH.
Qed.

(** What the loop leaves and what it queues, whatever the tokens. *)
Lemma queue_account_ids_spec n i accounts s :
  length accounts - i ≤ n →
  ∃ ids rest,
    queue_account_ids i accounts s = (Ok rest, seeded ids [] (account_puts ids) s)
    ∧ accounts ≡ₚ ids ++ rest
    ∧ Forall is_account_id ids
    ∧ rest `sublist_of` accounts
    ∧ filter (λ a, ¬ is_account_id a) rest = filter (λ a, ¬ is_account_id a) accounts
    ∧ (i = 0 → ∀ a l, accounts = a :: l → is_account_id a → ∃ ids', ids = a :: ids').
Proof.
  revert i accounts s. induction n as [|n IH]; intros i accounts s Hn;
    rewrite queue_account_ids_step;
    destruct (accounts !! i) as [account|] eqn:Hi.
  - apply lookup_lt_Some in Hi. lia.
  - exists [], accounts. unfold ret. rewrite seeded_nil. repeat split; try done.
    intros -> a l ->. done.
  - destruct (re_account_id_match account) eqn:Hm.
    + unfold bind. rewrite account_queue_put_seeded.
      pose proof (length_list_remove account accounts) as Hlen.
      assert (account ∈ accounts) as Hin by (by eapply list_elem_of_lookup_2).
      pose proof (list_remove_perm _ _ Hin) as Hperm.
      assert (length (list_remove account accounts) < length accounts) as Hlt.
      { apply Permutation_length in Hperm. simpl in Hperm. lia. }
      pose proof (lookup_lt_Some _ _ _ Hi) as Hil.
      destruct (IH (S i) (list_remove account accounts)
                  (seeded [account] [] (account_puts [account]) s))
        as (ids & rest & -> & Hp & Hids & Hsub & Hfil & _); [lia|].
      exists (account :: ids), rest. rewrite seeded_seeded. repeat split; try done.
      * rewrite Hperm. simpl. by rewrite Hp.
      * by constructor.
      * etrans; [exact Hsub|apply list_remove_sublist].
      * rewrite Hfil. apply list_remove_filter. unfold is_account_id. by intros [].
      * intros -> a l ->. injection Hi as ->. eauto.
    + pose proof (lookup_lt_Some _ _ _ Hi) as Hil.
      destruct (IH (S i) accounts s) as (ids & rest & -> & Hp & Hids & Hsub & Hfil & _);
        [lia|].
      exists ids, rest. repeat split; try done.
      intros -> a l ->. injection Hi as ->. unfold is_account_id. congruence.
  - exists [], accounts. unfold ret. rewrite seeded_nil. repeat split; try done.
    intros -> a l ->. done.
Qed.

Lemma spaced_tail a l : spaced (a :: l) = true → spaced l = true.
Proof. simpl. by intros [_ ?]%andb_prop. Qed.

Lemma spaced_next a b l :
  spaced (a :: b :: l) = true → re_account_id_match a = true →
  re_account_id_match b = false.
Proof.
  simpl. intros [H _]%andb_prop Ha. rewrite Ha in H. simpl in H.
  by destruct (re_account_id_match b).
Qed.

(** When no two tokens in a row are account numbers the loop takes them
    all. *)
Lemma queue_account_ids_spaced n i accounts s :
  length accounts - i ≤ n →
  Forall (λ a, ¬ is_account_id a) (take i accounts) →
  spaced (drop i accounts) = true →
  queue_account_ids i accounts s
  = (Ok (take i accounts ++ filter (λ a, ¬ is_account_id a) (drop i accounts)),
     seeded (filter is_account_id (drop i accounts)) []
       (account_puts (filter is_account_id (drop i accounts))) s).
Proof.
  revert i accounts s. induction n as [|n IH]; intros i accounts s Hn Hpre Hsp;
    rewrite queue_account_ids_step;
    destruct (accounts !! i) as [account|] eqn:Hi.
  - apply lookup_lt_Some in Hi. lia.
  - apply lookup_ge_None in Hi. rewrite drop_ge, take_ge by done.
    unfold ret. by rewrite !filter_nil, app_nil_r, seeded_nil.
  - pose proof (lookup_lt_Some _ _ _ Hi) as Hil.
    rewrite (drop_S _ _ _ Hi) in Hsp |- *.
    destruct (re_account_id_match account) eqn:Hm.
    + unfold bind. rewrite account_queue_put_seeded.
      assert (list_remove account accounts = take i accounts ++ drop (S i) accounts)
        as ->.
      { apply list_remove_at; [|done]. eapply Forall_impl; [exact Hpre|].
        intros y Hy ->. by apply Hy. }
      assert (length (take i accounts) = i) as Htl by (rewrite length_take; lia).
      rewrite (filter_cons_True is_account_id) by exact Hm.
      rewrite (filter_cons_False (λ a, ¬ is_account_id a)) by (intros H; apply H; exact Hm).
      destruct (drop (S i) accounts) as [|b tl] eqn:Hd.
      * rewrite app_nil_r, queue_account_ids_step.
        rewrite lookup_ge_None_2 by (rewrite Htl; lia).
        unfold ret. by rewrite !filter_nil, app_nil_r.
      * pose proof (spaced_next _ _ _ Hsp Hm) as Hb.
        rewrite IH.
        -- rewrite take_app_ge, drop_app_ge by lia.
           rewrite Htl. replace (S i - i) with 1 by lia. simpl.
           rewrite take_0, drop_0, seeded_seeded.
           rewrite (filter_cons_False is_account_id) by (unfold is_account_id; congruence).
           rewrite (filter_cons_True (λ a, ¬ is_account_id a))
             by (unfold is_account_id; congruence).
           by rewrite <- app_assoc.
        -- rewrite length_app, Htl. simpl.
           assert (length accounts = i + S (S (length tl))); [|lia].
           rewrite <- (take_drop i accounts) at 1.
           rewrite length_app, Htl, (drop_S _ _ _ Hi), Hd. done.
        -- rewrite take_app_ge by lia. rewrite Htl.
           replace (S i - i) with 1 by lia. simpl. rewrite take_0.
           apply Forall_app. split; [done|]. constructor; [|done].
           unfold is_account_id. congruence.
        -- rewrite drop_app_ge by lia. rewrite Htl.
           replace (S i - i) with 1 by lia. simpl. rewrite drop_0.
           apply spaced_tail in Hsp. by apply spaced_tail in Hsp.
    + rewrite IH.
      * rewrite (take_S_r _ _ _ Hi).
        rewrite (filter_cons_True (λ a, ¬ is_account_id a))
          by (unfold is_account_id; congruence).
        rewrite (filter_cons_False is_account_id) by (unfold is_account_id; congruence).
        by rewrite <- app_assoc.
      * lia.
      * rewrite (take_S_r _ _ _ Hi). apply Forall_app. split; [done|].
        constructor; [|done]. unfold is_account_id. congruence.
      * by apply spaced_tail in Hsp.
  - apply lookup_ge_None in Hi. rewrite drop_ge, take_ge by done.
    unfold ret. by rewrite !filter_nil, app_nil_r, seeded_nil.
Qed.

(** X12: the loop over the tokens loses and invents nothing.  It never
    raises and changes only the account queue and the history; the
    tokens it queues and the tokens it leaves are, together, the tokens
    given; only tokens that [re_account_id] matches are queued; every
    other token is left for the SWAG resolution, in the order given; a
    first token that is an account number is always queued. *)
Theorem X12_tokens_are_queued_or_kept (names : list string) (s : Runner) :
  ∃ ids rest,
    queue_account_ids 0 names s = (Ok rest, seeded ids [] (account_puts ids) s)
    ∧ names ≡ₚ ids ++ rest
    ∧ Forall is_account_id ids
    ∧ rest `sublist_of` names
    ∧ filter (λ a, ¬ is_account_id a) rest = filter (λ a, ¬ is_account_id a) names
    ∧ (∀ a l, names = a :: l → is_account_id a → ∃ ids', ids = a :: ids').
Proof.
  destruct (queue_account_ids_spec (length names) 0 names s) as
    (ids & rest & H1 & H2 & H3 & H4 & H5 & H6); [lia|].
  exists ids, rest. repeat split; try done. by apply H6.
Qed.

(** X13: when no two tokens in a row are account numbers, every account
    number among the tokens is put on the account queue, in the order
    given, and exactly the other tokens are left for the SWAG
    resolution. *)
Theorem X13_spaced_account_ids_are_all_queued (names : list string) (s : Runner) :
  spaced names = true →
  queue_account_ids 0 names s
  = (Ok (filter (λ a, ¬ is_account_id a) names),
     seeded (filter is_account_id names) [] (account_puts (filter is_account_id names)) s)
  ∧ items (account_queue (queue_account_ids 0 names s).2)
    = items (account_queue s) ++ filter is_account_id names.
Proof.
  intros Hsp.
  rewrite (queue_account_ids_spaced (length names) 0 names s); [done|lia|done|done].
Qed.

Lemma list_ascii_of_string_app a b :
  list_ascii_of_string (a +:+ b) = list_ascii_of_string a ++ list_ascii_of_string b.
Proof. induction a as [|c a IH]; simpl; [done|]. by rewrite IH. Qed.

Lemma length_list_ascii_of_string a :
  length (list_ascii_of_string a) = String.length a.
Proof. induction a as [|c a IH]; simpl; [done|]. by rewrite IH. Qed.


Lemma for_found names (all_accounts : list Account) s :
  for_ all_accounts (λ account,
    if name_in account names
    then account_queue_put (id account)
    else for_ (account_aliases account) (λ alias,
           if bool_decide (alias ∈ names)
           then account_queue_put (id account)
           else ret ())) s
  = (Ok (), seeded (flat_map (found names) all_accounts) []
              (account_puts (flat_map (found names) all_accounts)) s).
Proof.
  revert s. induction all_accounts as [|a accts IH]; intros s; simpl.
  - unfold ret. by rewrite seeded_nil.
  - unfold bind at 1.
    assert ((if name_in a names
             then account_queue_put (id a)
             else for_ (account_aliases a) (λ alias,
                    if bool_decide (alias ∈ names)
                    then account_queue_put (id a)
                    else ret ())) s
            = (Ok (), seeded (found names a) [] (account_puts (found names a)) s)) as ->.
    { unfold found. destruct (name_in a names); [apply account_queue_put_seeded|].
      generalize (account_aliases a). clear. intros l. revert s.
      induction l as [|al l IH]; intros s; simpl.
      - unfold ret. by rewrite seeded_nil.
      - unfold bind. case_bool_decide as Hal.
        + rewrite account_queue_put_seeded, IH, seeded_seeded.
          by rewrite filter_cons_True.
        + unfold ret. rewrite IH. by rewrite filter_cons_False. }
    rewrite IH, seeded_seeded. unfold account_puts. by rewrite map_app.
Qed.

Lemma elem_of_found names a x :
  x ∈ found names a ↔ id a = x ∧ requested names a.
Proof.
  unfold found, requested. destruct (name_in a names) eqn:Hn.
  - rewrite list_elem_of_singleton. split; [intros ->; auto|by intros [-> _]].
  - rewrite list_elem_of_fmap. split.
    + intros (al & -> & Hal). apply list_elem_of_filter in Hal as [? ?]. eauto.
    + intros [<- [?|(al & H1 & H2)]]; [done|].
      exists al. split; [done|]. by apply list_elem_of_filter.
Qed.


(** ** Workers that end with an exception *)

Lemma failed_task_mk n p c st :
  failed_task (mkTask n p c st) = match st with Failed _ => true | _ => false end.
Proof. done. Qed.

Lemma results_begin_raise data s e s' :
  results_begin data s = (Raise e, s') →
  (e = KeyError "arn" ∧ data !! "arn" = None ∧ s' = s)
  ∨ unfinished_tasks (results_queue s) = 0.
Proof.
  unfold results_begin, results_prepare, results_except, getitem, dict1.
  destruct s as [? [] [] [? [|n]] ? ? ? ?]; munfold;
    repeat (case_match; simplify_eq; munfold);
    intros [= <- <-]; auto.
Qed.

Ltac death_counts :=
  match goal with
  | Hi : _ !! ?i = Some ?t |- context [<[?i := ?t']> _] =>
      busy_counts t t' Hi;
      pose proof (count_insert failed_task _ _ t t' Hi);
      pose proof (count_ge failed_task _ _ t Hi)
  end;
  rewrite ?failed_task_mk in *; busy_eval.

Lemma mourned_task_step env i sys s2 :
  mourned sys →
  task_step env i (runner sys) = Some s2 →
  mourned (mkSystem s2 (main sys)).
Proof.
  intros [Hsafe Hres Hcause] Hstep.
  pose proof (safe_task_step env i sys s2 Hsafe Hstep) as Hsafe'.
  destruct Hsafe as [Ha Hn Hr Hja Hjn Hjr Hc].
  destruct sys as [s pc]. cbn [runner main] in *.
  destruct (task_step_cases _ _ _ _ Hstep)
    as (t & Hi & Hst & [[Hmc ->]|(Hmc & r & s1 & Hres1 & ->)]);
    destruct t as [nm p mc st]; cbn [task_status must_cancel task_pos task_name] in *;
    subst st.
  - constructor; [done| |]; cbn [runner]; set_tasks_simpl.
    + death_counts. lia.
    + apply Forall_insert; [done|]. by intros e.
  - clear Hstep.
    assert (∀ s1 p', tasks s1 = tasks s →
              Forall (λ t, ∀ e, task_status t = Failed e →
                                e = KeyError "arn" ∧ task_pos t = ResultsGet)
                (tasks (set_tasks (<[i := mkTask nm p' false Pending]>) s1))) as Hok.
    { intros s1' p' Ht. set_tasks_simpl. rewrite Ht.
      apply Forall_insert; [done|]. by intros e. }
    destruct p; cbn [resume] in Hres1.
    + destruct (account_queue_get s) as [[a s']|] eqn:Hg; [|done].
      injection Hres1 as <- <-.
      apply account_queue_get_effect in Hg as (Ht & _ & Hn' & Hr' & Hit & Hunf).
      constructor; [done| |by apply Hok]; cbn [runner]; set_tasks_simpl.
      rewrite Ht, Hr'. death_counts. lia.
    + injection Hres1 as Hres1.
      apply lookup_resume_effect in Hres1
        as (Ht & _ & Hr' & Hit & Hnit & Hnunf & Hcase).
      destruct Hcase as [(ph' & -> & _ & Hu)|[[-> Hu]|(e & -> & Hu & Hu')]].
      * constructor; [done| |by apply Hok]; cbn [runner]; set_tasks_simpl.
        rewrite Ht, Hr'. death_counts. lia.
      * constructor; [done| |by apply Hok]; cbn [runner]; set_tasks_simpl.
        rewrite Ht, Hr'. death_counts. lia.
      * exfalso. pose proof (count_ge busy_lookup _ _ _ Hi). busy_eval. lia.
    + destruct (arn_queue_get s) as [[a s']|] eqn:Hg; [|done].
      injection Hres1 as <- <-.
      apply arn_queue_get_effect in Hg as (Ht & _ & Ha' & Hr' & Hit & Hunf).
      constructor; [done| |by apply Hok]; cbn [runner]; set_tasks_simpl.
      rewrite Ht, Hr'. death_counts. lia.
    + injection Hres1 as Hres1.
      apply retriever_resume_effect in Hres1
        as (Ht & _ & Ha' & Hnit & Hput & Hcase).
      destruct Hcase as [[-> Hu]|(e & -> & Hu & Hu')].
      * constructor; [done| |by apply Hok]; cbn [runner]; set_tasks_simpl.
        rewrite Ht. destruct Hput as [(data & _ & Hrit & Hrunf)|Hr'];
          rewrite ?Hrit, ?Hrunf, ?Hr', ?length_app; simpl; death_counts; lia.
      * exfalso. pose proof (count_ge busy_retriever _ _ _ Hi). busy_eval. lia.
    + destruct (results_queue_get s) as [[d s']|] eqn:Hg; [|done].
      injection Hres1 as Hres1.
      apply results_queue_get_effect in Hg as (Ht & _ & Ha' & Hn' & Hit & Hunf).
      pose proof Hres1 as Hres2.
      apply results_begin_effect in Hres1 as (Ht' & _ & Ha'' & Hn'' & Hit' & Hcase).
      rewrite Hit in Hr, Hres. simpl in Hr, Hres.
      destruct Hcase as [(m & -> & Hu)|[[-> Hu]|(e & -> & Hu & _)]].
      * constructor; [done| |apply Hok; congruence]; cbn [runner]; set_tasks_simpl.
        rewrite Ht', Ht, Hit'. death_counts. lia.
      * constructor; [done| |apply Hok; congruence]; cbn [runner]; set_tasks_simpl.
        rewrite Ht', Ht, Hit'. death_counts. lia.
      * apply results_begin_raise in Hres2 as [(-> & _ & _)|H0]; [|lia].
        constructor; [done| |]; cbn [runner]; set_tasks_simpl.
        -- rewrite Ht', Ht, Hit'. death_counts. lia.
        -- rewrite Ht', Ht. apply Forall_insert; [done|]. by intros e [= <-].
    + injection Hres1 as Hres1.
      apply results_resume_effect in Hres1 as (Ht & _ & Ha' & Hn' & Hit & Hcase).
      destruct Hcase as [[-> Hu]|(e & -> & Hu & Hu')].
      * constructor; [done| |by apply Hok]; cbn [runner]; set_tasks_simpl.
        rewrite Ht, Hit. death_counts. lia.
      * exfalso. pose proof (count_ge busy_results _ _ _ Hi). busy_eval. lia.
Qed.

Lemma failed_request_cancel t : failed_task (request_cancel t) = failed_task t.
Proof. by destruct t as [? ? ? []]. Qed.

Lemma mourned_main_step sys sys' :
  mourned sys → main_step sys = Some sys' → mourned sys'.
Proof.
  intros [Hsafe Hres Hcause] Hstep.
  pose proof (safe_main_step sys sys' Hsafe Hstep) as Hsafe'.
  destruct sys as [s pc]. unfold main_step in Hstep. cbn [runner main] in *.
  destruct pc; repeat case_match; simplify_eq; try (by constructor).
  rewrite clean_up_eq in *. constructor; [done| |]; simpl.
  - rewrite !count_map_request_cancel;
      [done|apply failed_request_cancel|intros t; apply busy_request_cancel].
  - apply Forall_fmap. eapply Forall_impl; [exact Hcause|].
    intros t Ht e. destruct t as [? ? ? []]; simpl in *; auto.
Qed.

Lemma mourned_rtc env sys sys' : mourned sys → rtc (step env) sys sys' → mourned sys'.
Proof.
  intros Hs Hrtc. induction Hrtc as [|sys1 sys2 sys3 Hstep _ IH]; [done|].
  apply IH. inversion Hstep as [i sys4 s' Ht|sys4 sys5 Hm]; subst.
  - by eapply mourned_task_step.
  - by eapply mourned_main_step.
Qed.

Lemma mourned_start env registered accounts arns sys0 :
  start env registered accounts arns = RunStarted sys0 → mourned sys0.
Proof.
  intros Hstart. pose proof (safe_start _ _ _ _ _ Hstart) as Hsafe.
  apply start_started in Hstart as (Hm & Ht & _ & Hr & _).
  assert (Forall (λ t, task_status t = Pending) (tasks (runner sys0))) as Hpend.
  { rewrite Ht. apply Forall_forall. intros t Hin.
    by apply launched_idle in Hin as (_ & _ & ?). }
  constructor; [done| |].
  - rewrite (count_zero failed_task).
    + destruct Hsafe. lia.
    + eapply Forall_impl; [exact Hpend|]. intros t Hp. unfold failed_task. by rewrite Hp.
  - eapply Forall_impl; [exact Hpend|]. intros t Hp e. by rewrite Hp.
Qed.

(** X16: the only exception that ends a worker.  In every state of a
    run, a worker that ended with an exception is a results worker that
    took a record without ["arn"] and raised [KeyError] at line 107;
    once this has happened the record is never acknowledged, so [run]
    stays at the join of the results queue at the latest: it never
    cancels the workers and never returns. *)
Theorem X16_a_lost_record_blocks_run
    (env : Env) (registered : list RetrieverPlugin)
    (accounts arns : option (list string)) (sys0 sys : System) :
  start env registered accounts arns = RunStarted sys0 →
  rtc (step env) sys0 sys →
  Forall (λ t, ∀ e, task_status t = Failed e →
                    e = KeyError "arn" ∧ task_pos t = ResultsGet)
    (tasks (runner sys))
  ∧ (Exists (λ t, failed_task t = true) (tasks (runner sys)) →
     ∀ sys', rtc (step env) sys sys' →
       1 ≤ unfinished_tasks (results_queue (runner sys'))
       ∧ main_rank (main sys') ≤ 2
       ∧ main sys' ≠ Returned
       ∧ Forall (λ t, must_cancel t = false) (tasks (runner sys'))).
Proof.
  intros Hstart Hrtc.
  pose proof (mourned_rtc _ _ _ (mourned_start _ _ _ _ _ Hstart) Hrtc) as Hm.
  split; [by destruct Hm|].
  intros (i & t & Hi & Hf)%Exists_lookup sys' Hrtc'.
  assert (1 ≤ count failed_task (tasks (runner sys))) as Hone
    by (by eapply count_pos).
  assert (∀ sys1 sys2, step env sys1 sys2 →
            count failed_task (tasks (runner sys1))
            ≤ count failed_task (tasks (runner sys2))) as Hmono.
  { clear. intros sys1 sys2 Hstep.
    inversion Hstep as [i sys4 s' Ht|sys4 sys5 Hms]; subst.
    - destruct (task_step_cases _ _ _ _ Ht)
        as (t & Hi & Hst & [[Hmc ->]|(Hmc & r & s1 & Hres & ->)]);
        destruct t as [nm p mc st]; simpl in *; subst st; set_tasks_simpl.
      + death_counts. lia.
      + destruct (resume_frame _ _ _ _ _ Hres) as [-> _].
        destruct r; death_counts; lia.
    - destruct sys1 as [s pc]. unfold main_step in Hms. cbn [runner main] in *.
      destruct pc; repeat case_match; simplify_eq; try done.
      rewrite clean_up_eq. simpl.
      by rewrite count_map_request_cancel by apply failed_request_cancel. }
  assert (1 ≤ count failed_task (tasks (runner sys'))) as Hone'.
  { clear -Hone Hmono Hrtc'. induction Hrtc' as [|sys1 sys2 sys3 Hstep _ IH]; [done|].
    apply IH. specialize (Hmono _ _ Hstep). lia. }
  destruct (mourned_rtc _ _ _ Hm Hrtc') as [[_ _ _ _ _ H3 Hc] Hres _].
  assert (1 ≤ unfinished_tasks (results_queue (runner sys'))) as Hun by lia.
  assert (main_rank (main sys') ≤ 2) as Hrank.
  { destruct (decide (3 ≤ main_rank (main sys'))) as [Hge|]; [|lia].
    specialize (H3 Hge). lia. }
  split; [done|]. split; [done|]. split.
  - intros Hret. rewrite Hret in Hrank. simpl in Hrank. lia.
  - apply Hc. lia.
Qed.

(** X17: a pool size of zero.  No worker is created, so nothing ever
    changes in the runner: [run] returns, after its three joins, exactly
    when the seeding queued nothing, and waits for ever at a join as
    soon as one account or one ARN was queued. *)
Theorem X17_no_worker_no_progress
    (env : Env) (registered : list RetrieverPlugin)
    (accounts arns : option (list string)) (sys0 sys : System) :
  num_workers env = 0 →
  start env registered accounts arns = RunStarted sys0 →
  rtc (step env) sys0 sys →
  tasks (runner sys0) = []
  ∧ runner sys = runner sys0
  ∧ (main sys = Returned →
       items (account_queue (runner sys0)) = []
       ∧ items (arn_queue (runner sys0)) = [])
  ∧ (items (account_queue (runner sys0)) = [] →
     items (arn_queue (runner sys0)) = [] →
     run_schedule env [None; None; None; None; None] sys0
     = Some (mkSystem (runner sys0) Returned)).
Proof.
  intros HN Hstart Hrtc.
  pose proof (safe_rtc _ _ _ (safe_start _ _ _ _ _ Hstart) Hrtc)
    as [_ _ _ Hja Hjn _ _].
  apply start_started in Hstart as (Hm & Ht & _ & Hr & Hf & Ha & Hn & _).
  assert (tasks (runner sys0) = []) as Hnil.
  { rewrite Ht. unfold launched, workers. rewrite HN. simpl. by destruct (is_given arns). }
  assert (∀ s, tasks s = [] → failure_queue s = Queue.new → (clean_up s).2 = s) as Hclean.
  { intros s Hts Hfs. rewrite clean_up_eq. destruct s; simpl in *. subst.
    simpl. by rewrite app_nil_r. }
  assert (runner sys = runner sys0) as Hsame.
  { clear Hja Hjn.
    apply (rtc_ind_r (R := step env) (λ z, runner z = runner sys0) sys0);
      [done| |exact Hrtc].
    intros sys1 sys2 _ Hstep IH.
    inversion Hstep as [i sys4 s' Hts|sys4 sys5 Hms]; subst.
    - unfold task_step in Hts. by rewrite IH, Hnil in Hts.
    - destruct sys1 as [s pc]. unfold main_step in Hms. cbn [runner main] in *.
      destruct pc; repeat case_match; simplify_eq; try done.
      simpl. by rewrite Hclean. }
  split; [done|]. split; [done|]. split.
  - intros Hret. rewrite Hret, Hsame in *. simpl in *.
    split; apply length_zero_iff_nil; [rewrite <- Ha; apply Hja|rewrite <- Hn; apply Hjn];
      lia.
  - intros Hia Hin. destruct sys0 as [s pc]. cbn [runner main] in *. subst pc.
    rewrite Hia in Ha. rewrite Hin in Hn. simpl in Ha, Hn.
    cbn [run_schedule turn]. unfold main_step at 1. cbn [runner main].
    unfold Queue.joinable at 1. rewrite Ha. cbn [Nat.eqb].
    unfold main_step at 1. cbn [runner main].
    unfold Queue.joinable at 1. rewrite Hn. cbn [Nat.eqb].
    unfold main_step at 1. cbn [runner main].
    unfold Queue.joinable at 1. rewrite Hr. cbn [Nat.eqb Queue.new unfinished_tasks].
    unfold main_step at 1. cbn [runner main]. rewrite Hclean by done.
    unfold main_step at 1. cbn [runner main]. by rewrite Hnil.
Qed.

(** ** The trace of the ARNs *)

Lemma arns_failed_app h1 h2 : arns_failed (h1 ++ h2) = arns_failed h1 ++ arns_failed h2.
Proof. apply omap_app. Qed.

Lemma results_put_app h1 h2 : results_put (h1 ++ h2) = results_put h1 ++ results_put h2.
Proof. apply omap_app. Qed.

Lemma arns_put_app h1 h2 : arns_put (h1 ++ h2) = arns_put h1 ++ arns_put h2.
Proof. apply omap_app. Qed.

Lemma inert_nil evs :
  Forall inert evs →
  arns_put evs = [] ∧ results_put evs = [] ∧ arns_failed evs = [].
Proof.
  induction 1 as [|e evs He _ (IH1 & IH2 & IH3)]; [done|].
  replace (e :: evs) with ([e] ++ evs) by done.
  rewrite arns_put_app, results_put_app, arns_failed_app, IH1, IH2, IH3, !app_nil_r.
  by destruct e as [[] ?| | | |[]| |].
Qed.

Section adds.
Context (P : event → Prop).

Lemma adds_ret {A} (a : A) : adds P (ret a).
Proof. intros s. repeat split. exists []. by rewrite app_nil_r. Qed.

Lemma adds_lift {A} (r : result A) : adds P (lift r).
Proof. intros s. repeat split. exists []. by rewrite app_nil_r. Qed.

Lemma adds_raise {A} (e : exn) : adds P (@raise A e).
Proof. intros s. repeat split. exists []. by rewrite app_nil_r. Qed.

Lemma adds_gets {A} (f : Runner → A) : adds P (gets f).
Proof. intros s. repeat split. exists []. by rewrite app_nil_r. Qed.

Lemma adds_bind {A B} (m : M A) (k : A → M B) :
  adds P m → (∀ a, adds P (k a)) → adds P (bind m k).
Proof.
  intros Hm Hk s. destruct (Hm s) as (Hf & Hi & evs & Hh & He). unfold bind.
  destruct (m s) as [[a|e] s1]; simpl in *; [|eauto].
  destruct (Hk a s1) as (Hf' & Hi' & evs' & Hh' & He').
  split; [congruence|]. split; [congruence|].
  exists (evs ++ evs'). split; [by rewrite Hh', Hh, app_assoc|by apply Forall_app].
Qed.

Lemma adds_try_except {A} (m : M A) (h : exn → M A) :
  adds P m → (∀ e, adds P (h e)) → adds P (try_except m h).
Proof.
  intros Hm Hk s. destruct (Hm s) as (Hf & Hi & evs & Hh & He). unfold try_except.
  destruct (m s) as [[a|e] s1]; simpl in *; [eauto|].
  destruct (Hk e s1) as (Hf' & Hi' & evs' & Hh' & He').
  split; [congruence|]. split; [congruence|].
  exists (evs ++ evs'). split; [by rewrite Hh', Hh, app_assoc|by apply Forall_app].
Qed.

Lemma adds_modify (f : Runner → Runner) :
  (∀ s, history (f s) = history s ∧ failed_arns (f s) = failed_arns s
        ∧ items (arn_queue (f s)) = items (arn_queue s)) →
  adds P (modify f).
Proof.
  intros Hf s. destruct (Hf s) as (Hh & Hfa & Hi). unfold modify. simpl.
  repeat split; try done. exists []. by rewrite app_nil_r.
Qed.

Lemma adds_emit e : P e → adds P (emit e).
Proof.
  intros He s. unfold emit, modify. destruct s; simpl. repeat split.
  exists [e]. split; [done|by constructor].
Qed.

End adds.

Ltac adds_step :=
  first
    [ apply adds_ret | apply adds_lift | apply adds_raise
    | apply adds_gets
    | apply adds_emit; exact I
    | apply adds_modify; intros []; by simpl
    | apply adds_bind; [|intros ?]
    | apply adds_try_except; [|intros ?]
    | match goal with |- adds _ (match ?x with _ => _ end) => destruct x end
    | match goal with |- adds _ (if ?x then _ else _) => destruct x end ].

Ltac adds_solve := repeat adds_step.

Lemma adds_inert_lookup_finish a failed : adds inert (lookup_finish a failed).
Proof.
  unfold lookup_finish, arn_lookup_except, account_queue_task_done, failure_queue_put,
    log_error.
  adds_solve.
Qed.

Lemma adds_inert_results_begin data : adds inert (results_begin data).
Proof.
  unfold results_begin, results_prepare, results_except, results_queue_task_done,
    failure_queue_put, log_error.
  adds_solve.
Qed.

Lemma adds_inert_results_resume env data m : adds inert (results_resume env data m).
Proof.
  unfold results_resume, results_store, results_except, results_queue_task_done,
    failure_queue_put, log_error.
  adds_solve.
Qed.

Lemma chain_events_inert arn rs data : Forall inert (chain_events arn rs data).
Proof.
  revert data. induction rs as [|r rs IH]; intros data; simpl; [constructor|].
  constructor; [done|]. destruct (run_plugin r arn data); [apply IH|by repeat constructor].
Qed.

Lemma chain_events_quiet arn rs data : Forall quiet (chain_events arn rs data).
Proof.
  revert data. induction rs as [|r rs IH]; intros data; simpl; [constructor|].
  constructor; [done|]. destruct (run_plugin r arn data); [apply IH|by repeat constructor].
Qed.

Lemma put_events_trace l :
  results_put (map put_event l) = [] ∧ arns_failed (map put_event l) = []
  ∧ failures_put (map put_event l) = [].
Proof. induction l as [|a l IH]; simpl; [done|]. exact IH. Qed.

Lemma phase_events_trace env a p :
  arns_put (phase_events env a p) = (phase_outcome env p a).1
  ∧ results_put (phase_events env a p) = []
  ∧ arns_failed (phase_events env a p) = [].
Proof.
  unfold phase_events.
  change (ECall (phase_call p a) :: ?l) with ([ECall (phase_call p a)] ++ l).
  rewrite arns_put_app, results_put_app, arns_failed_app, arns_put_put_events.
  destruct (put_events_trace (phase_outcome env p a).1) as (-> & -> & _). done.
Qed.

(** What one turn of a worker adds to the trace. *)
Lemma resume_trace env p s r s' :
  resume env p s = Some (r, s') →
  (holds_arn p = 1 → 1 ≤ unfinished_tasks (arn_queue s)) →
  ∃ evs,
    history s' = history s ++ evs
    ∧ failed_arns s' = failed_arns s ++ arns_failed evs
    ∧ map IStr (arns_failed evs) `sublist_of` failures_put evs
    ∧ length (arns_put evs) + length (items (arn_queue s)) + holds_arn p
      = length (items (arn_queue s')) + holds_arn_after r
        + length (results_put evs) + length (arns_failed evs).
Proof.
  destruct p; cbn [resume holds_arn]; intros Hres Hun.
  - unfold account_queue_get, Queue.get in Hres.
    destruct (items (account_queue s)) as [|a rest]; [done|]. injection Hres as <- <-.
    exists [EGet AccountQ (IStr a)]. destruct s; simpl. rewrite app_nil_r.
    repeat split; try done. lia.
  - injection Hres as Hres. rewrite lookup_resume_eq in Hres. cbn zeta in Hres.
    destruct (phase_events_trace env account p) as (Hp1 & Hp2 & Hp3).
    set (s1 := queued (phase_outcome env p account).1 (phase_events env account p) s)
      in *.
    assert (∀ failed, lookup_finish account failed s1 = (r, s') →
              ∃ evs, history s' = history s ++ evs
                ∧ failed_arns s' = failed_arns s ++ arns_failed evs
                ∧ map IStr (arns_failed evs) `sublist_of` failures_put evs
                ∧ length (arns_put evs) + length (items (arn_queue s)) + 0
                  = length (items (arn_queue s')) + holds_arn_after r
                    + length (results_put evs) + length (arns_failed evs)) as Hfin.
    { intros failed Hf.
      destruct (adds_inert_lookup_finish account failed s1) as (Hfa & Hit & evs & Hh & He).
      rewrite Hf in Hfa, Hit, Hh. simpl in Hfa, Hit, Hh.
      destruct (inert_nil _ He) as (He1 & He2 & He3).
      exists (phase_events env account p ++ evs).
      rewrite arns_put_app, results_put_app, arns_failed_app, Hp1, Hp2, Hp3, He1, He2, He3.
      rewrite Hh, Hfa, Hit, !app_nil_r, <- app_assoc.
      split; [done|]. split; [done|]. split; [apply sublist_nil_l|].
      rewrite length_app. cbn [length].
      assert (holds_arn_after r = 0); [|lia].
      unfold lookup_finish, bind, ret in Hf. by repeat (case_match; simplify_eq). }
    destruct (phase_outcome env p account).2 as [e|] eqn:He;
      [by apply (Hfin (Some e))|].
    destruct (next_phase p) as [p'|]; [|by apply (Hfin None)].
    injection Hres as <- <-. exists (phase_events env account p).
    rewrite Hp1, Hp2, Hp3. unfold s1, queued.
    cbn [history failed_arns arn_queue items map length holds_arn_after holds_arn].
    rewrite !app_nil_r.
    split; [done|]. split; [done|]. split; [apply sublist_nil_l|].
    rewrite length_app. lia.
  - unfold arn_queue_get, Queue.get in Hres.
    destruct (items (arn_queue s)) as [|a rest] eqn:Hit; [done|]. injection Hres as <- <-.
    exists [EGet ArnQ (IStr a)]. destruct s; simpl in *. rewrite app_nil_r.
    repeat split; try done. lia.
  - injection Hres as Hres. unfold retriever_resume, bind in Hres.
    destruct (unfinished_tasks (arn_queue s)) as [|n] eqn:Hn; [specialize (Hun eq_refl); lia|].
    destruct (chain arn (retrievers s) {["arn" := VStr arn]}) as [data|e] eqn:Hc.
    + rewrite (retriever_body_ok _ _ _ _ Hc Hn) in Hres. injection Hres as <- <-.
      eexists. simpl. split; [reflexivity|].
      rewrite arns_put_app, results_put_app, arns_failed_app, failures_put_app.
      assert (Forall inert (map (retriever_call arn) (retrievers s))) as Hin.
      { rewrite <- (chain_events_ok _ _ _ _ Hc). apply chain_events_inert. }
      destruct (inert_nil _ Hin) as (-> & -> & ->). simpl.
      rewrite app_nil_r. repeat split; try done; [apply sublist_nil_l|]. lia.
    + rewrite (retriever_body_raise _ _ _ _ Hc Hn) in Hres. injection Hres as <- <-.
      eexists. simpl. split; [reflexivity|].
      rewrite arns_put_app, results_put_app, arns_failed_app, failures_put_app.
      destruct (inert_nil _ (chain_events_inert arn (retrievers s) {["arn" := VStr arn]}))
        as (-> & -> & ->).
      rewrite (quiet_put _ (chain_events_quiet arn (retrievers s) {["arn" := VStr arn]})).
      simpl. repeat split; try done. lia.
  - unfold results_queue_get, Queue.get in Hres.
    destruct (items (results_queue s)) as [|d rest] eqn:Hit; [done|].
    injection Hres as Hres.
    match type of Hres with results_begin d ?s1 = _ =>
      destruct (adds_inert_results_begin d s1) as (Hfa & Hia & evs & Hh & He);
      pose proof (results_begin_effect _ _ _ _ Hres) as (_ & _ & _ & _ & _ & Hcase)
    end.
    rewrite Hres in Hfa, Hia, Hh. simpl in Hfa, Hia, Hh.
    destruct (inert_nil _ He) as (He1 & He2 & He3).
    exists (EGet ResultsQ (IDict d) :: evs).
    change (EGet ResultsQ (IDict d) :: evs) with ([EGet ResultsQ (IDict d)] ++ evs).
    rewrite arns_put_app, results_put_app, arns_failed_app, He1, He2, He3.
    rewrite Hh, Hfa, Hia. destruct s; simpl. rewrite !app_nil_r, <- app_assoc.
    repeat split; try done; [apply sublist_nil_l|].
    assert (holds_arn_after r = 0); [|lia].
    destruct Hcase as [(m & -> & _)|[[-> _]|(e & -> & _)]]; done.
  - injection Hres as Hres.
    destruct (adds_inert_results_resume env data m s) as (Hfa & Hia & evs & Hh & He).
    pose proof (results_resume_effect _ _ _ _ _ _ Hres) as (_ & _ & _ & _ & _ & Hcase).
    rewrite Hres in Hfa, Hia, Hh. simpl in Hfa, Hia, Hh.
    destruct (inert_nil _ He) as (He1 & He2 & He3).
    exists evs. rewrite He1, He2, He3, Hh, Hfa, Hia, app_nil_r.
    repeat split; try done; [apply sublist_nil_l|].
    assert (holds_arn_after r = 0); [|simpl; lia].
    destruct Hcase as [[-> _]|(e & -> & _)]; done.
Qed.

Lemma traced_task_step env i sys s2 :
  traced sys →
  task_step env i (runner sys) = Some s2 →
  traced (mkSystem s2 (main sys)).
Proof.
  intros [Hsafe Hfa Hrep Harn] Hstep.
  pose proof (safe_task_step env i sys s2 Hsafe Hstep) as Hsafe'.
  destruct Hsafe as [_ Hn _ _ Hjn _ Hc].
  destruct sys as [s pc]. cbn [runner main] in *.
  destruct (task_step_cases _ _ _ _ Hstep)
    as (t & Hi & Hst & [[Hmc ->]|(Hmc & r & s1 & Hres & ->)]);
    destruct t as [nm p mc st]; cbn [task_status must_cancel task_pos task_name] in *;
    subst st.
  - assert (count busy_retriever (tasks s) = 0) as Hzero.
    { destruct (decide (main_rank pc ≤ 3)) as [Hle|Hgt].
      - specialize (Hc Hle). rewrite Forall_lookup in Hc.
        specialize (Hc _ _ Hi). simpl in Hc. congruence.
      - specialize (Hjn ltac:(lia)). lia. }
    constructor; [done| | |]; cbn [runner]; destruct s; simpl in *; try done.
    pose proof (count_insert busy_retriever _ _ _
                  (mkTask nm p true Cancelled) Hi) as Hcount.
    pose proof (count_ge busy_retriever _ _ _ Hi) as Hge.
    busy_eval. lia.
  - clear Hstep. destruct (resume_frame _ _ _ _ _ Hres) as [Ht _].
    pose proof (count_ge busy_retriever _ _ _ Hi) as Hge.
    pose proof (count_insert busy_retriever _ _ _
                  (match r with
                   | Ok p0 => mkTask nm p0 false Pending
                   | Raise e => mkTask nm p false (Failed e)
                   end) Hi) as Hcount.
    assert ((if busy_retriever (mkTask nm p mc Pending) then 1 else 0) = holds_arn p)
      as Hold by (by destruct p).
    assert ((if busy_retriever (match r with
                                | Ok p0 => mkTask nm p0 false Pending
                                | Raise e => mkTask nm p false (Failed e)
                                end) then 1 else 0) = holds_arn_after r)
      as Hnew by (by destruct r as [[]|]).
    rewrite Hold in Hge, Hcount. rewrite Hnew in Hcount.
    destruct (resume_trace env p s r s1 Hres) as (evs & Hh & Hf & Hsub & Hlen); [lia|].
    constructor; [done| | |]; cbn [runner]; set_tasks_simpl.
    + destruct s1; simpl in *. by rewrite Hf, Hh, arns_failed_app, Hfa.
    + destruct s1; simpl in *. rewrite Hf, Hh, failures_put_app, map_app.
      by apply sublist_app.
    + rewrite Ht. destruct s1; simpl in *.
      rewrite Hh, Hf, arns_put_app, results_put_app, !length_app. lia.
Qed.

Lemma cancels_inert (ts : list Task) :
  Forall inert (map (λ t, ECancel (task_name t)) ts).
Proof. apply Forall_forall. by intros e (t & -> & _)%list_elem_of_fmap. Qed.

Lemma reported_inert xs : Forall inert (reported xs).
Proof. induction xs as [|x xs IH]; simpl; [constructor|]. by repeat constructor. Qed.

Lemma traced_main_step sys sys' :
  traced sys → main_step sys = Some sys' → traced sys'.
Proof.
  intros [Hsafe Hfa Hrep Harn] Hstep.
  pose proof (safe_main_step sys sys' Hsafe Hstep) as Hsafe'.
  destruct sys as [s pc]. unfold main_step in Hstep. cbn [runner main] in *.
  destruct pc; repeat case_match; simplify_eq; try (by constructor).
  rewrite clean_up_eq in *.
  destruct (inert_nil _ (cancels_inert (tasks s))) as (Hc1 & Hc2 & Hc3).
  destruct (inert_nil _ (reported_inert (items (failure_queue s)))) as (Hr1 & Hr2 & Hr3).
  constructor; [done| | |]; simpl.
  - by rewrite !arns_failed_app, Hc3, Hr3, !app_nil_r.
  - rewrite !failures_put_app, (quiet_put _ (cancels_quiet (tasks s))), reported_put.
    by rewrite !app_nil_r.
  - rewrite !arns_put_app, !results_put_app, Hc1, Hc2, Hr1, Hr2, !app_nil_r.
    by rewrite count_map_request_cancel by (intros t; apply busy_request_cancel).
Qed.

Lemma traced_rtc env sys sys' : traced sys → rtc (step env) sys sys' → traced sys'.
Proof.
  intros Hs Hrtc. induction Hrtc as [|sys1 sys2 sys3 Hstep _ IH]; [done|].
  apply IH. inversion Hstep as [i sys4 s' Ht|sys4 sys5 Hm]; subst.
  - by eapply traced_task_step.
  - by eapply traced_main_step.
Qed.

Lemma seed_event_inert e : seed_event e → inert e.
Proof. by destruct e as [[] ?| | | |[]| |]. Qed.

Lemma created_inert ts : Forall inert (created ts).
Proof. apply Forall_forall. by intros e (t & -> & _)%list_elem_of_fmap. Qed.

Lemma traced_start env registered accounts arns sys0 :
  start env registered accounts arns = RunStarted sys0 → traced sys0.
Proof.
  intros Hstart. pose proof (safe_start _ _ _ _ _ Hstart) as Hsafe.
  pose proof (start_started _ _ _ _ _ Hstart) as (_ & Ht & _ & _ & _ & _ & _ & _ & Hq).
  assert (count busy_retriever (tasks (runner sys0)) = 0) as Hzero.
  { apply count_zero, Forall_forall. intros t Hin. rewrite Ht in Hin.
    apply launched_idle in Hin as (Hp & _ & Hst). destruct t as [? p ? st].
    simpl in *. subst st. rewrite busy_retriever_mk. by destruct Hp as [->|[->| ->]]. }
  assert (failed_arns (runner sys0) = []
          ∧ arns_failed (history (runner sys0)) = []
          ∧ results_put (history (runner sys0)) = []
          ∧ arns_put (history (runner sys0)) = items (arn_queue (runner sys0)))
    as (Hf & Haf & Hrp & Hap).
  { unfold start in Hstart. destruct (is_given arns) eqn:Hg.
    - rewrite (run_start_given env accounts arns _ Hg) in Hstart.
      injection Hstart as <-. simpl.
      rewrite arns_failed_app, results_put_app, arns_put_app, arns_put_put_events.
      destruct (put_events_trace (given arns)) as (-> & -> & _).
      destruct (inert_nil _ (created_inert (launched env arns))) as (-> & -> & ->).
      by rewrite !app_nil_r.
    - destruct (run_start_lookup env accounts arns
                  (set_retrievers (λ _, registered) init) Hg) as (accts & evs & Hev & Heq).
      rewrite Heq in Hstart. destruct (swag_lookup env); [|done].
      injection Hstart as <-. simpl.
      rewrite arns_failed_app, results_put_app, arns_put_app.
      assert (Forall inert evs) as Hin
        by (eapply Forall_impl; [exact Hev|apply seed_event_inert]).
      destruct (inert_nil _ Hin) as (-> & -> & ->).
      by destruct (inert_nil _ (created_inert (launched env arns))) as (-> & -> & ->). }
  constructor; [done| | |].
  - by rewrite Hf, Haf.
  - rewrite Hf. apply sublist_nil_l.
  - rewrite Hap, Hzero, Hrp, Hf. simpl. lia.
Qed.

(** X18: [failed_arns] is a faithful record of the failures of the
    retriever chain.  In every state of a run it lists, in the order in
    which they happened, the ARNs for which [_retriever_loop] logged a
    failure, once per failure; each of them was put on the failure
    queue, and when [run] has returned each of them was written by the
    final report. *)
Theorem X18_failed_arns_records_chain_failures
    (env : Env) (registered : list RetrieverPlugin)
    (accounts arns : option (list string)) (sys0 sys : System) :
  start env registered accounts arns = RunStarted sys0 →
  rtc (step env) sys0 sys →
  failed_arns (runner sys) = arns_failed (history (runner sys))
  ∧ map IStr (failed_arns (runner sys)) `sublist_of` failures_put (history (runner sys))
  ∧ (main sys = Returned →
     map IStr (failed_arns (runner sys))
       `sublist_of` failures_logged (history (runner sys))).
Proof.
  intros Hstart Hrtc.
  destruct (traced_rtc _ _ _ (traced_start _ _ _ _ _ Hstart) Hrtc) as [_ Hf Hsub _].
  split; [done|]. split; [done|].
  intros Hret.
  destruct (tidy_rtc _ _ _ (tidy_start _ _ _ _ _ Hstart) Hrtc) as [Hacc Hlog _ _].
  rewrite Hret in Hlog. specialize (Hlog ltac:(simpl; lia)).
  unfold accounted in Hacc. rewrite Hlog, app_nil_r in Hacc. by rewrite <- Hacc.
Qed.


(** ** The trace of the records *)

Lemma records_failed_app h1 h2 :
  records_failed (h1 ++ h2) = records_failed h1 ++ records_failed h2.
Proof. apply omap_app. Qed.

Lemma results_acked_app h1 h2 :
  results_acked (h1 ++ h2) = results_acked h1 ++ results_acked h2.
Proof. apply omap_app. Qed.

Lemma apart_nil evs :
  Forall apart evs →
  results_put evs = [] ∧ records_failed evs = [] ∧ results_acked evs = []
  ∧ stored evs = [].
Proof.
  induction 1 as [|e evs He _ (IH1 & IH2 & IH3 & IH4)]; [done|].
  replace (e :: evs) with ([e] ++ evs) by done.
  rewrite results_put_app, records_failed_app, results_acked_app, stored_app,
    IH1, IH2, IH3, IH4, !app_nil_r.
  by destruct e as [[] []|[] ?|[]|[]|[]| |].
Qed.

Lemma adds_for (P : event → Prop) {A} (l : list A) (body : A → M unit) :
  (∀ x, adds P (body x)) → adds P (for_ l body).
Proof.
  intros Hb. induction l as [|x l IH]; simpl.
  - apply adds_ret.
  - apply adds_bind; auto.
Qed.

Lemma adds_apart_account_queue_put x : adds apart (account_queue_put x).
Proof. unfold account_queue_put. adds_solve. Qed.

Lemma adds_apart_queue_account_ids n i accounts :
  length accounts - i ≤ n → adds apart (queue_account_ids i accounts).
Proof.
  revert i accounts. induction n as [|n IH]; intros i accounts Hn;
    rewrite queue_account_ids_step;
    destruct (accounts !! i) as [account|] eqn:Hi; try apply adds_ret.
  - apply lookup_lt_Some in Hi. lia.
  - pose proof (lookup_lt_Some _ _ _ Hi) as Hil.
    destruct (re_account_id_match account).
    + apply adds_bind; [apply adds_apart_account_queue_put|]. intros _.
      apply IH.
      assert (account ∈ accounts) as Hin by (by eapply list_elem_of_lookup_2).
      pose proof (Permutation_length (list_remove_perm _ _ Hin)) as Hlen.
      simpl in Hlen. lia.
    + apply IH. lia.
Qed.

Lemma adds_apart__get_swag_accounts env : adds apart (_get_swag_accounts env).
Proof. unfold _get_swag_accounts, log_error. adds_solve. Qed.

Lemma adds_apart_seeding env accounts :
  adds apart (if is_given accounts
              then _queue_accounts env (given accounts)
              else _queue_all_accounts env).
Proof.
  destruct (is_given accounts).
  - unfold _queue_accounts.
    apply adds_bind;
      [apply (adds_apart_queue_account_ids (length (given accounts))); lia|].
    intros rest. apply adds_bind; [apply adds_apart__get_swag_accounts|].
    intros all_accounts. apply adds_for. intros a.
    destruct (name_in a rest); [apply adds_apart_account_queue_put|].
    apply adds_for. intros al. case_bool_decide;
      [apply adds_apart_account_queue_put|apply adds_ret].
  - unfold _queue_all_accounts.
    apply adds_bind; [apply adds_apart__get_swag_accounts|].
    intros all_accounts. apply adds_for. intros a. apply adds_apart_account_queue_put.
Qed.

(** The history of [run] up to its first [join] has nothing to do with
    the results. *)
Lemma run_start_apart env accounts arns s s' :
  run_start env accounts arns s = (Ok (), s') →
  ∃ evs, history s' = history s ++ evs ∧ Forall apart evs.
Proof.
  destruct (is_given arns) eqn:Hg.
  - rewrite (run_start_given env accounts arns s Hg). intros [= <-]. simpl.
    eexists. split; [done|]. apply Forall_app. split.
    + apply Forall_forall. by intros e (a & -> & _)%list_elem_of_fmap.
    + apply Forall_forall. by intros e (a & -> & _)%list_elem_of_fmap.
  - unfold run_start, register_retriever.
    unfold bind at 1 2 3 4 5 6. unfold modify, ret. rewrite Hg.
    match goal with |- context [bind ?m ?k ?s0] =>
      assert (adds apart (bind m k)) as Hadds; [|destruct (Hadds s0) as (_ & _ & evs & Hh & He)]
    end.
    { apply adds_bind.
      - apply adds_bind; [apply adds_apart_seeding|]. intros _.
        unfold create_workers. apply adds_for. intros i. unfold create_task. adds_solve.
      - intros _. apply adds_bind; [|intros _];
          unfold create_workers; apply adds_for; intros i; unfold create_task;
          adds_solve. }
    intros Hrun. rewrite Hrun in Hh. simpl in Hh. exists evs. split; [|done].
    rewrite Hh. by destruct s.
Qed.

Lemma adds_apart_lookup_finish a failed : adds apart (lookup_finish a failed).
Proof.
  unfold lookup_finish, arn_lookup_except, account_queue_task_done, failure_queue_put,
    log_error.
  adds_solve.
Qed.

Lemma phase_events_apart env a p : Forall apart (phase_events env a p).
Proof.
  unfold phase_events. constructor; [by destruct p|].
  apply Forall_forall. by intros e (x & -> & _)%list_elem_of_fmap.
Qed.

Lemma chain_events_apart arn rs data : Forall apart (chain_events arn rs data).
Proof.
  revert data. induction rs as [|r rs IH]; intros data; simpl; [constructor|].
  constructor; [done|]. destruct (run_plugin r arn data); [apply IH|by repeat constructor].
Qed.

(** What one turn of a worker adds to the trace of the records. *)
Lemma resume_results_trace env p s r s' :
  resume env p s = Some (r, s') →
  (∀ e, r = Raise e → p = ResultsGet) →
  ∃ evs,
    history s' = history s ++ evs
    ∧ length (results_put evs) + length (items (results_queue s)) + holds_result p
      = length (items (results_queue s')) + holds_result_after r + ended r
        + length (results_acked evs)
    ∧ length (stored evs) ≤ length (results_acked evs)
    ∧ length (results_acked evs) ≤ length (stored evs) + length (records_failed evs).
Proof.
  destruct p; cbn [resume holds_result]; intros Hres Hraise.
  - unfold account_queue_get, Queue.get in Hres.
    destruct (items (account_queue s)) as [|a rest]; [done|]. injection Hres as <- <-.
    exists [EGet AccountQ (IStr a)]. destruct s; simpl. repeat split; try done. lia.
  - injection Hres as Hres.
    pose proof (lookup_resume_effect _ _ _ _ _ _ Hres) as (_ & _ & Hrq & _ & _ & _ & Hcase).
    assert (holds_result_after r = 0 ∧ ended r = 0) as [Hr1 Hr2].
    { destruct Hcase as [(ph' & -> & _)|[[-> _]|(e & -> & _)]]; try done.
      by specialize (Hraise e eq_refl). }
    rewrite lookup_resume_eq in Hres. cbn zeta in Hres.
    set (s1 := queued (phase_outcome env p account).1 (phase_events env account p) s)
      in *.
    destruct (apart_nil _ (phase_events_apart env account p)) as (Hp1 & Hp2 & Hp3 & Hp4).
    assert (∀ failed, lookup_finish account failed s1 = (r, s') →
              ∃ evs, history s' = history s ++ evs
                ∧ results_put evs = [] ∧ records_failed evs = []
                ∧ results_acked evs = [] ∧ stored evs = []) as Hfin.
    { intros failed Hf.
      destruct (adds_apart_lookup_finish account failed s1) as (_ & _ & evs & Hh & He).
      rewrite Hf in Hh. simpl in Hh.
      destruct (apart_nil _ He) as (He1 & He2 & He3 & He4).
      exists (phase_events env account p ++ evs).
      rewrite results_put_app, records_failed_app, results_acked_app, stored_app.
      rewrite Hp1, Hp2, Hp3, Hp4, He1, He2, He3, He4, Hh, <- app_assoc. done. }
    assert (∃ evs, history s' = history s ++ evs
              ∧ results_put evs = [] ∧ records_failed evs = []
              ∧ results_acked evs = [] ∧ stored evs = [])
      as (evs & Hh & He1 & He2 & He3 & He4).
    { destruct (phase_outcome env p account).2 as [e|] eqn:He;
        [by apply (Hfin (Some e))|].
      destruct (next_phase p) as [p'|]; [|by apply (Hfin None)].
      injection Hres as <- <-. exists (phase_events env account p). done. }
    exists evs. rewrite He1, He2, He3, He4, Hrq, Hr1, Hr2. simpl.
    repeat split; try done; lia.
  - unfold arn_queue_get, Queue.get in Hres.
    destruct (items (arn_queue s)) as [|a rest] eqn:Hit; [done|]. injection Hres as <- <-.
    exists [EGet ArnQ (IStr a)]. destruct s; simpl in *. repeat split; try done. lia.
  - injection Hres as Hres.
    pose proof (retriever_resume_effect _ _ _ _ Hres) as (_ & _ & _ & _ & _ & Hcase).
    destruct Hcase as [[-> Hn]|(e & -> & _)]; [|by specialize (Hraise e eq_refl)].
    unfold retriever_resume, bind in Hres.
    destruct (chain arn (retrievers s) {["arn" := VStr arn]}) as [data|e] eqn:Hc.
    + rewrite (retriever_body_ok _ _ _ (unfinished_tasks (arn_queue s') ) Hc) in Hres
        by done.
      injection Hres as Hres. rewrite <- Hres. simpl.
      eexists. split; [reflexivity|].
      rewrite results_put_app, records_failed_app, results_acked_app, stored_app.
      assert (Forall apart (map (retriever_call arn) (retrievers s))) as Hin.
      { rewrite <- (chain_events_ok _ _ _ _ Hc). apply chain_events_apart. }
      destruct (apart_nil _ Hin) as (-> & -> & -> & ->). simpl.
      rewrite length_app. simpl. repeat split; try done; lia.
    + rewrite (retriever_body_raise _ _ _ (unfinished_tasks (arn_queue s')) Hc) in Hres
        by done.
      injection Hres as Hres. rewrite <- Hres. simpl.
      eexists. split; [reflexivity|].
      rewrite results_put_app, records_failed_app, results_acked_app, stored_app.
      destruct (apart_nil _ (chain_events_apart arn (retrievers s) {["arn" := VStr arn]}))
        as (-> & -> & -> & ->).
      simpl. repeat split; try done; lia.
  - unfold results_queue_get, Queue.get in Hres.
    destruct (items (results_queue s)) as [|d rest] eqn:Hit; [done|].
    injection Hres as Hres.
    unfold results_begin, results_prepare, results_except, getitem, dict1 in Hres.
    destruct s as [? [] [] [? [|n]] ? ? ? ?]; munfold;
      repeat (case_match; simplify_eq; munfold);
      simpl; rewrite <- ?app_assoc;
      (eexists; split; [reflexivity|]); simpl; repeat split; try done; lia.
  - injection Hres as Hres.
    unfold results_resume, results_store, results_except in Hres.
    destruct s as [? [] [] [? [|n]] ? ? ? ?]; munfold;
      repeat (case_match; simplify_eq; munfold);
      try (by specialize (Hraise _ eq_refl));
      simpl; rewrite <- ?app_assoc;
      (eexists; split; [reflexivity|]); simpl; repeat split; try done; lia.
Qed.

Lemma settled_task_step env i sys s2 :
  settled sys →
  task_step env i (runner sys) = Some s2 →
  settled (mkSystem s2 (main sys)).
Proof.
  intros [Hm Hres Hsto Hack] Hstep.
  pose proof (mourned_task_step env i sys s2 Hm Hstep) as Hm'.
  destruct Hm as [[_ _ Hr _ _ Hjr Hc] _ _].
  destruct sys as [s pc]. cbn [runner main] in *.
  destruct (task_step_cases _ _ _ _ Hstep)
    as (t & Hi & Hst & [[Hmc ->]|(Hmc & r & s1 & Hres1 & ->)]);
    destruct t as [nm p mc st]; cbn [task_status must_cancel task_pos task_name] in *;
    subst st.
  - assert (count busy_results (tasks s) = 0) as Hzero.
    { destruct (decide (main_rank pc ≤ 3)) as [Hle|Hgt].
      - specialize (Hc Hle). rewrite Forall_lookup in Hc.
        specialize (Hc _ _ Hi). simpl in Hc. congruence.
      - specialize (Hjr ltac:(lia)). lia. }
    constructor; [done| | |]; cbn [runner]; destruct s; simpl in *; try done.
    death_counts. lia.
  - clear Hstep. destruct (resume_frame _ _ _ _ _ Hres1) as [Ht _].
    assert (∀ e, r = Raise e → p = ResultsGet) as Hraise.
    { intros e ->. destruct Hm' as [_ _ Hcause]. cbn [runner] in Hcause.
      rewrite tasks_set_tasks, Ht, Forall_lookup in Hcause.
      specialize (Hcause i _ (list_lookup_insert_eq _ _ _ (lookup_lt_Some _ _ _ Hi)) e).
      by destruct Hcause. }
    pose proof (count_insert busy_results _ _ _
                  (match r with
                   | Ok p0 => mkTask nm p0 false Pending
                   | Raise e => mkTask nm p false (Failed e)
                   end) Hi) as Hcount.
    pose proof (count_insert failed_task _ _ _
                  (match r with
                   | Ok p0 => mkTask nm p0 false Pending
                   | Raise e => mkTask nm p false (Failed e)
                   end) Hi) as Hcountf.
    assert ((if busy_results (mkTask nm p mc Pending) then 1 else 0) = holds_result p)
      as Hold by (by destruct p).
    assert ((if busy_results (match r with
                              | Ok p0 => mkTask nm p0 false Pending
                              | Raise e => mkTask nm p false (Failed e)
                              end) then 1 else 0) = holds_result_after r)
      as Hnew by (by destruct r as [[]|]).
    assert ((if failed_task (match r with
                             | Ok p0 => mkTask nm p0 false Pending
                             | Raise e => mkTask nm p false (Failed e)
                             end) then 1 else 0) = ended r)
      as Hnewf by (by destruct r).
    rewrite Hold, Hnew in Hcount. rewrite Hnewf in Hcountf.
    rewrite failed_task_mk in Hcountf.
    destruct (resume_results_trace env p s r s1 Hres1 Hraise)
      as (evs & Hh & Hlen & Hs1 & Hs2).
    constructor; [done| | |]; cbn [runner]; set_tasks_simpl.
    + rewrite Ht. destruct s1; simpl in *.
      rewrite Hh, results_put_app, results_acked_app, !length_app. lia.
    + destruct s1; simpl in *. rewrite Hh, stored_app, results_acked_app, !length_app.
      lia.
    + destruct s1; simpl in *.
      rewrite Hh, stored_app, results_acked_app, records_failed_app, !length_app. lia.
Qed.

Lemma cancels_apart (ts : list Task) :
  Forall apart (map (λ t, ECancel (task_name t)) ts).
Proof. apply Forall_forall. by intros e (t & -> & _)%list_elem_of_fmap. Qed.

Lemma reported_apart xs : Forall apart (reported xs).
Proof. induction xs as [|x xs IH]; simpl; [constructor|]. by repeat constructor. Qed.

Lemma settled_main_step sys sys' :
  settled sys → main_step sys = Some sys' → settled sys'.
Proof.
  intros [Hm Hres Hsto Hack] Hstep.
  pose proof (mourned_main_step sys sys' Hm Hstep) as Hm'.
  destruct sys as [s pc]. unfold main_step in Hstep. cbn [runner main] in *.
  destruct pc; repeat case_match; simplify_eq; try (by constructor).
  rewrite clean_up_eq in *.
  destruct (apart_nil _ (cancels_apart (tasks s))) as (Hc1 & Hc2 & Hc3 & Hc4).
  destruct (apart_nil _ (reported_apart (items (failure_queue s))))
    as (Hr1 & Hr2 & Hr3 & Hr4).
  constructor; [done| | |]; simpl;
    rewrite ?results_put_app, ?results_acked_app, ?stored_app, ?records_failed_app,
      ?Hc1, ?Hc2, ?Hc3, ?Hc4, ?Hr1, ?Hr2, ?Hr3, ?Hr4, ?app_nil_r; try done.
  rewrite !count_map_request_cancel;
    [done|apply failed_request_cancel|intros t; apply busy_request_cancel].
Qed.

Lemma settled_rtc env sys sys' : settled sys → rtc (step env) sys sys' → settled sys'.
Proof.
  intros Hs Hrtc. induction Hrtc as [|sys1 sys2 sys3 Hstep _ IH]; [done|].
  apply IH. inversion Hstep as [i sys4 s' Ht|sys4 sys5 Hm]; subst.
  - by eapply settled_task_step.
  - by eapply settled_main_step.
Qed.

Lemma settled_start env registered accounts arns sys0 :
  start env registered accounts arns = RunStarted sys0 → settled sys0.
Proof.
  intros Hstart. pose proof (mourned_start _ _ _ _ _ Hstart) as Hm.
  pose proof (start_started _ _ _ _ _ Hstart) as (_ & Ht & _ & Hr & _).
  assert (Forall (λ t, task_status t = Pending ∧ holds_result (task_pos t) = 0)
            (tasks (runner sys0))) as Hidle.
  { rewrite Ht. apply Forall_forall. intros t Hin.
    apply launched_idle in Hin as (Hp & _ & Hst).
    split; [done|]. by destruct Hp as [->|[->| ->]]. }
  assert (count busy_results (tasks (runner sys0)) = 0) as Hb.
  { apply count_zero. eapply Forall_impl; [exact Hidle|]. intros t (Hst & Hh).
    unfold busy_results. rewrite Hst. by destruct (task_pos t). }
  assert (count failed_task (tasks (runner sys0)) = 0) as Hf.
  { apply count_zero. eapply Forall_impl; [exact Hidle|]. intros t (Hst & _).
    unfold failed_task. by rewrite Hst. }
  unfold start in Hstart.
  destruct (run_start env accounts arns (set_retrievers (λ _, registered) init))
    as [[[]|e] s'] eqn:Hrun; [|done].
  injection Hstart as <-. cbn [runner] in *.
  destruct (run_start_apart _ _ _ _ _ Hrun) as (evs & Hh & He).
  destruct (apart_nil _ He) as (H1 & H2 & H3 & H4).
  constructor; [done| | |]; cbn [runner]; rewrite Hh; simpl;
    rewrite ?H1, ?H2, ?H3, ?H4, ?Hb, ?Hf, ?Hr; simpl; lia.
Qed.


(** ** From the ARNs to the persistence plugin *)

Lemma records_failed_put h :
  records_failed h
  = omap (λ x, match x with IDict d => Some d | IStr _ => None end) (failures_put h).
Proof.
  induction h as [|e h IH]; [done|].
  replace (e :: h) with ([e] ++ h) by done.
  rewrite records_failed_app, failures_put_app, omap_app, IH. f_equal.
  by destruct e as [[] []| | | | | |].
Qed.

Lemma strings_and_records (l : list string) (fp : list item) :
  map IStr l `sublist_of` fp →
  length l
  + length (omap (λ x, match x with IDict d => Some d | IStr _ => None end) fp)
  ≤ length fp.
Proof.
  revert l. induction fp as [|x fp IH]; intros l Hsub.
  - apply sublist_nil_r in Hsub. destruct l; [simpl; lia|done].
  - apply sublist_cons_r in Hsub as [Hsub|(l' & Heq & Hsub)].
    + specialize (IH l Hsub). destruct x; csimpl in *; lia.
    + destruct l as [|a l0]; [done|]. injection Heq as <- <-.
      specialize (IH l0 Hsub). csimpl in *. lia.
Qed.


(** ** More scenarios *)

Lemma X1_witness :
  ∃ s, arn_queue_get (Examples.with_arn "id:alpha" Examples.alpha_runner)
       = Some ("id:alpha", s)
       ∧ (_retriever_loop_body "id:alpha" s).1 = Ok ()
       ∧ results_queue (_retriever_loop_body "id:alpha" s).2
         = Queue.put alpha_record (results_queue s).
Proof.
  eexists. split; [reflexivity|].
  epose proof (X1_chain_success_reaches_results "id:alpha"
                 (Examples.with_arn "id:alpha" Examples.alpha_runner) _ alpha_record) as H.
  destruct H as (_ & H1 & _ & H2 & _).
  - unfold queue_ok. simpl. lia.
  - reflexivity.
  - reflexivity.
  - split; [exact H1|exact H2].
Defined.

Lemma X2_witness :
  ∃ s, results_queue_get (Examples.with_result Cases.anonymous_record init)
       = Some (Cases.anonymous_record, s)
       ∧ _results_loop_body (Examples.env 1 (Ok [])) Cases.anonymous_record s
         = (Raise (KeyError "arn"), s).
Proof.
  eexists. split; [reflexivity|].
  refine (proj1 (X2_record_without_arn_ends_the_worker (Examples.env 1 (Ok []))
                   Cases.anonymous_record
                   (Examples.with_result Cases.anonymous_record init) _ _ _));
    reflexivity.
Defined.

Lemma X3_witness :
  ∃ s, results_queue_get (Examples.with_result Examples.advised_record init)
       = Some (Examples.advised_record, s)
       ∧ (_results_loop_body Cases.env_store_fails Examples.advised_record s).1 = Ok ()
       ∧ failure_queue (_results_loop_body Cases.env_store_fails
                          Examples.advised_record s).2
         = Queue.put (IDict Examples.advised_record) (failure_queue s).
Proof.
  eexists. split; [reflexivity|].
  epose proof (X3_store_failure_is_caught Cases.env_store_fails Examples.advised_record
                 "id:alpha" (VDict ∅) (OtherException "database is down")
                 (Examples.with_result Examples.advised_record init) _) as H.
  destruct H as (H1 & _ & H2 & _).
  - split; [unfold queue_ok; simpl; lia|reflexivity].
  - reflexivity.
  - reflexivity.
  - reflexivity.
  - split; [exact H1|exact H2].
Defined.

Lemma X4_witness :
  items (arn_queue (_get_arns_for_account Cases.env_entities "111111111111" init).2)
  = ["r1"; "r2"; "u1"; "p1"; "p2"; "p3"; "g1"].
Proof.
  refine (proj1 (proj2 (X4_enumeration_order Cases.env_entities "111111111111"
                          ["r1"; "r2"] ["u1"] init _ _ _ _ _)));
    reflexivity.
Defined.

Lemma X5_witness :
  ∃ s, account_queue_get (Examples.with_account "111111111111" init)
       = Some ("111111111111", s)
       ∧ _get_arns_for_account Cases.env_no_connection "111111111111" s
         = (Raise (ClientError "AccessDenied"),
            set_history (λ h, h ++ [ECall (CConn "111111111111")]) s).
Proof.
  eexists. split; [reflexivity|].
  refine (proj1 (X5_connection_failure_stops_the_enumeration Cases.env_no_connection
                   "111111111111" (ClientError "AccessDenied")
                   (Examples.with_account "111111111111" init) _ _ _)).
  - split; [unfold queue_ok; simpl; lia|reflexivity].
  - reflexivity.
Defined.

Lemma X7_witness :
  _get_swag_accounts (Examples.env 1 (Ok [Examples.prod_account])) init
  = (Ok [Examples.prod_account],
     set_history (λ h, h ++ [ECall (CSwagGetAll (VStr "")); ECall (CSwagGetAll (VStr ""))])
       init).
Proof.
  refine (proj1 (X7_swag_lookup_calls (Examples.env 1 (Ok [Examples.prod_account]))
                   (VStr "") VNone [Examples.prod_account] init _ _ _) _);
    reflexivity.
Defined.

Lemma X8_witness :
  ∃ sys0,
    start (Examples.env 1 (Ok [Examples.prod_account])) [] None None = RunStarted sys0
    ∧ account_queue (runner sys0) = mkQueue ["222222222222"] 1.
Proof.
  destruct (X8_every_swag_account_is_queued
              (Examples.env 1 (Ok [Examples.prod_account])) [] None None
              [Examples.prod_account]) as (sys0 & H1 & H2 & _);
    [reflexivity|reflexivity|reflexivity|].
  exists sys0. split; [exact H1|exact H2].
Defined.

Lemma X9_witness :
  ∃ sys0,
    start (Examples.env 1 (Raise InvalidSWAGDataException)) [] (Some ["prod"])
      (Some ["a"; "b"; "a"])
    = RunStarted sys0
    ∧ arn_queue (runner sys0) = mkQueue ["a"; "b"; "a"] 3
    ∧ account_queue (runner sys0) = Queue.new.
Proof.
  destruct (X9_given_arns_skip_the_lookup
              (Examples.env 1 (Raise InvalidSWAGDataException)) [] (Some ["prod"])
              (Some ["a"; "b"; "a"])) as (sys0 & H1 & H2 & H3 & _); [reflexivity|].
  exists sys0. split; [exact H1|]. split; [exact H2|exact H3].
Defined.

Lemma X10_witness :
  let env := Examples.env 1 (Ok []) in
  let s1 := (run_start env None (Some ["a"]) init).2 in
  let s2 := (run_start env None (Some ["b"]) s1).2 in
  retrievers s1 = [Examples.access_advisor]
  ∧ retrievers s2 = [Examples.access_advisor; Examples.access_advisor]
  ∧ tasks s2 = launched env (Some ["a"]) ++ launched env (Some ["b"]).
Proof.
  intros env s1 s2.
  assert (run_start env None (Some ["a"]) init = (Ok (), s1)) as H1
    by (vm_compute; reflexivity).
  assert (run_start env None (Some ["b"]) s1 = (Ok (), s2)) as H2
    by (vm_compute; reflexivity).
  destruct (X10_run_again_registers_again env None (Some ["a"]) init s1 H1)
    as (Hr & _ & _ & _ & _ & _ & _ & Hagain).
  destruct (Hagain None (Some ["b"]) s2 H2) as [Hr2 Ht2].
  split; [exact Hr|]. split; [exact Hr2|exact Ht2].
Defined.

Lemma X13_witness :
  queue_account_ids 0 ["111111111111"; "prod"; "222222222222"] init
  = (Ok ["prod"],
     seeded ["111111111111"; "222222222222"] []
       (account_puts ["111111111111"; "222222222222"]) init).
Proof.
  refine (proj1 (X13_spaced_account_ids_are_all_queued
                   ["111111111111"; "prod"; "222222222222"] init _)).
  reflexivity.
Defined.



Lemma X16_witness :
  let env := Examples.env 1 (Ok []) in
  let sys0 := started (start env [Cases.drop_arn] None (Some ["a"])) in
  let sys := after env Cases.lost_run sys0 in
  start env [Cases.drop_arn] None (Some ["a"]) = RunStarted sys0
  ∧ run_schedule env Cases.lost_run sys0 = Some sys
  ∧ Exists (λ t, failed_task t = true) (tasks (runner sys))
  ∧ main_rank (main sys) ≤ 2
  ∧ main sys ≠ Returned.
Proof.
  intros env sys0 sys.
  assert (start env [Cases.drop_arn] None (Some ["a"]) = RunStarted sys0) as Hstart
    by (vm_compute; reflexivity).
  assert (run_schedule env Cases.lost_run sys0 = Some sys) as Hrun
    by (vm_compute; reflexivity).
  assert (Exists (λ t, failed_task t = true) (tasks (runner sys))) as Hex.
  { apply Exists_exists.
    exists (mkTask "results-worker-0" ResultsGet false (Failed (KeyError "arn"))).
    split; [|reflexivity]. apply list_elem_of_lookup. exists 1. vm_compute. reflexivity. }
  split; [exact Hstart|]. split; [exact Hrun|]. split; [exact Hex|].
  destruct (proj2 (X16_a_lost_record_blocks_run env [Cases.drop_arn] None (Some ["a"])
                     sys0 sys Hstart (run_schedule_rtc env Cases.lost_run sys0 sys Hrun))
              Hex sys (rtc_refl _ _)) as (_ & H1 & H2 & _).
  split; [exact H1|exact H2].
Defined.

Lemma X17_witness :
  let env := Examples.env 0 (Ok []) in
  let sys0 := started (start env [] None (Some ["a"])) in
  let sys := after env [None] sys0 in
  start env [] None (Some ["a"]) = RunStarted sys0
  ∧ run_schedule env [None] sys0 = Some sys
  ∧ main sys = JoinArns
  ∧ tasks (runner sys0) = []
  ∧ runner sys = runner sys0.
Proof.
  intros env sys0 sys.
  assert (start env [] None (Some ["a"]) = RunStarted sys0) as Hstart
    by (vm_compute; reflexivity).
  assert (run_schedule env [None] sys0 = Some sys) as Hrun
    by (vm_compute; reflexivity).
  split; [exact Hstart|]. split; [exact Hrun|]. split; [vm_compute; reflexivity|].
  destruct (X17_no_worker_no_progress env [] None (Some ["a"]) sys0 sys eq_refl Hstart
              (run_schedule_rtc env [None] sys0 sys Hrun)) as (H1 & H2 & _).
  split; [exact H1|exact H2].
Defined.

Lemma X18_witness :
  let env := Examples.env 1 (Ok []) in
  let registered := [failing (OtherException "boom")] in
  let sys0 := started (start env registered None (Some ["a"])) in
  let sys := after env failed_run sys0 in
  start env registered None (Some ["a"]) = RunStarted sys0
  ∧ run_schedule env failed_run sys0 = Some sys
  ∧ failed_arns (runner sys) = ["a"]
  ∧ failed_arns (runner sys) = arns_failed (history (runner sys)).
Proof.
  intros env registered sys0 sys.
  assert (start env registered None (Some ["a"]) = RunStarted sys0) as Hstart
    by (vm_compute; reflexivity).
  assert (run_schedule env failed_run sys0 = Some sys) as Hrun
    by (vm_compute; reflexivity).
  split; [exact Hstart|]. split; [exact Hrun|]. split; [vm_compute; reflexivity|].
  exact (proj1 (X18_failed_arns_records_chain_failures env registered None (Some ["a"])
                  sys0 sys Hstart (run_schedule_rtc env failed_run sys0 sys Hrun))).
Defined.




(** ** The trace of the accounts *)

Lemma accounts_put_app h1 h2 : accounts_put (h1 ++ h2) = accounts_put h1 ++ accounts_put h2.
Proof. apply omap_app. Qed.

Lemma connections_app h1 h2 : connections (h1 ++ h2) = connections h1 ++ connections h2.
Proof. apply omap_app. Qed.

Lemma offline_nil evs : Forall offline evs → accounts_put evs = [] ∧ connections evs = [].
Proof.
  induction 1 as [|e evs He _ (IH1 & IH2)]; [done|].
  replace (e :: evs) with ([e] ++ evs) by done.
  rewrite accounts_put_app, connections_app, IH1, IH2, !app_nil_r.
  by destruct e as [[] ?| | |[]| | |].
Qed.

Lemma accounts_put_puts ids : accounts_put (account_puts ids) = ids.
Proof.
  induction ids as [|a ids IH]; [done|].
  change (account_puts (a :: ids)) with ([EPut AccountQ (IStr a)] ++ account_puts ids).
  by rewrite accounts_put_app, IH.
Qed.

Lemma connections_puts ids : connections (account_puts ids) = [].
Proof. induction ids as [|a ids IH]; [done|]. exact IH. Qed.

Lemma flat_map_insert_perm {A B} (f : A → list B) (l : list A) i x y :
  l !! i = Some x →
  flat_map f (<[i := y]> l) ++ f x ≡ₚ flat_map f l ++ f y.
Proof.
  revert i. induction l as [|z l IH]; intros [|i]; simpl; try done.
  - intros [= ->]. solve_Permutation.
  - intros Hi. rewrite <- !app_assoc. apply Permutation_app_head. by apply IH.
Qed.

Lemma perm_exchange {A} (a a' f f' w w' c e : list A) :
  a ++ w ≡ₚ a' ++ w' ++ e →
  f' ++ w ≡ₚ f ++ w' →
  a ++ f ++ c ≡ₚ a' ++ f' ++ c ++ e.
Proof.
  intros H1 H2. apply (Permutation_app_inv_r (w ++ w')).
  trans ((a ++ w) ++ (f ++ w') ++ c); [solve_Permutation|].
  rewrite H1, <- H2. solve_Permutation.
Qed.

Lemma waiting_none ts : count busy_lookup ts = 0 → flat_map waiting ts = [].
Proof.
  unfold count. induction ts as [|t ts IH]; simpl; [done|].
  destruct t as [? p ? st]. unfold waiting, busy_lookup at 1. simpl.
  destruct st, p; simpl; try (intros; apply IH; lia); lia.
Qed.

Lemma waiting_request_cancel ts :
  flat_map waiting (map request_cancel ts) = flat_map waiting ts.
Proof.
  induction ts as [|t ts IH]; simpl; [done|]. rewrite IH. f_equal.
  by destruct t as [? ? ? []].
Qed.

Lemma adds_offline_lookup_finish a failed : adds offline (lookup_finish a failed).
Proof.
  unfold lookup_finish, arn_lookup_except, account_queue_task_done, failure_queue_put,
    log_error.
  adds_solve.
Qed.

Lemma adds_offline_results_begin data : adds offline (results_begin data).
Proof.
  unfold results_begin, results_prepare, results_except, results_queue_task_done,
    failure_queue_put, log_error.
  adds_solve.
Qed.

Lemma adds_offline_results_resume env data m : adds offline (results_resume env data m).
Proof.
  unfold results_resume, results_store, results_except, results_queue_task_done,
    failure_queue_put, log_error.
  adds_solve.
Qed.

Lemma adds_offline__get_swag_accounts env : adds offline (_get_swag_accounts env).
Proof. unfold _get_swag_accounts, log_error. adds_solve. Qed.

Lemma chain_events_offline arn rs data : Forall offline (chain_events arn rs data).
Proof.
  revert data. induction rs as [|r rs IH]; intros data; simpl; [constructor|].
  constructor; [done|]. destruct (run_plugin r arn data); [apply IH|by repeat constructor].
Qed.

Lemma phase_events_accounts env a p :
  accounts_put (phase_events env a p) = []
  ∧ connections (phase_events env a p) = waiting_at (LookupPhase a p).
Proof.
  unfold phase_events.
  change (ECall (phase_call p a) :: ?l) with ([ECall (phase_call p a)] ++ l).
  rewrite accounts_put_app, connections_app.
  assert (Forall offline (map put_event (phase_outcome env p a).1)) as Hoff.
  { apply Forall_forall. by intros e (x & -> & _)%list_elem_of_fmap. }
  destruct (offline_nil _ Hoff) as [-> ->]. by destruct p.
Qed.

(** What one turn of a worker adds to the trace of the accounts. *)
Lemma resume_accounts_trace env p s r s' :
  resume env p s = Some (r, s') →
  (∀ e, r = Raise e → p = ResultsGet) →
  ∃ evs,
    history s' = history s ++ evs
    ∧ accounts_put evs = []
    ∧ items (account_queue s) ++ waiting_at p
      ≡ₚ items (account_queue s') ++ waiting_after r ++ connections evs.
Proof.
  destruct p; cbn [resume]; intros Hres Hraise.
  - unfold account_queue_get, Queue.get in Hres.
    destruct (items (account_queue s)) as [|a rest] eqn:Hit; [done|].
    injection Hres as <- <-.
    exists [EGet AccountQ (IStr a)]. destruct s; simpl in *.
    split; [done|]. split; [done|]. rewrite !app_nil_r. apply Permutation_cons_append.
  - injection Hres as Hres.
    pose proof (lookup_resume_effect _ _ _ _ _ _ Hres) as (_ & _ & _ & Hit & _ & _ & Hcase).
    assert (waiting_after r = []) as Hr.
    { destruct Hcase as [(ph' & -> & Hnext & _)|[[-> _]|(e & -> & _)]]; try done.
      destruct p; simpl in Hnext; simplify_eq; done. }
    rewrite lookup_resume_eq in Hres. cbn zeta in Hres.
    set (s1 := queued (phase_outcome env p account).1 (phase_events env account p) s)
      in *.
    destruct (phase_events_accounts env account p) as (Hp1 & Hp2).
    assert (∀ failed, lookup_finish account failed s1 = (r, s') →
              ∃ evs, history s' = history s ++ evs
                ∧ accounts_put evs = []
                ∧ connections evs = waiting_at (LookupPhase account p)) as Hfin.
    { intros failed Hf.
      destruct (adds_offline_lookup_finish account failed s1) as (_ & _ & evs & Hh & He).
      rewrite Hf in Hh. simpl in Hh.
      destruct (offline_nil _ He) as (He1 & He2).
      exists (phase_events env account p ++ evs).
      rewrite accounts_put_app, connections_app, Hp1, Hp2, He1, He2, Hh, <- app_assoc.
      by rewrite !app_nil_r. }
    assert (∃ evs, history s' = history s ++ evs
              ∧ accounts_put evs = []
              ∧ connections evs = waiting_at (LookupPhase account p))
      as (evs & Hh & He1 & He2).
    { destruct (phase_outcome env p account).2 as [e|] eqn:He;
        [by apply (Hfin (Some e))|].
      destruct (next_phase p) as [p'|]; [|by apply (Hfin None)].
      injection Hres as <- <-. exists (phase_events env account p). done. }
    exists evs. rewrite He1, He2, Hr, Hit. done.
  - unfold arn_queue_get, Queue.get in Hres.
    destruct (items (arn_queue s)) as [|a rest] eqn:Hit; [done|]. injection Hres as <- <-.
    exists [EGet ArnQ (IStr a)]. destruct s; simpl in *. by rewrite !app_nil_r.
  - injection Hres as Hres.
    pose proof (retriever_resume_effect _ _ _ _ Hres) as (_ & _ & Haq & _ & _ & Hcase).
    destruct Hcase as [[-> Hn]|(e & -> & _)]; [|by specialize (Hraise e eq_refl)].
    unfold retriever_resume, bind in Hres.
    destruct (chain arn (retrievers s) {["arn" := VStr arn]}) as [data|e] eqn:Hc.
    + rewrite (retriever_body_ok _ _ _ (unfinished_tasks (arn_queue s') ) Hc) in Hres
        by done.
      injection Hres as Hres. rewrite <- Hres. simpl.
      eexists. split; [reflexivity|].
      rewrite accounts_put_app, connections_app.
      assert (Forall offline (map (retriever_call arn) (retrievers s))) as Hin.
      { rewrite <- (chain_events_ok _ _ _ _ Hc). apply chain_events_offline. }
      destruct (offline_nil _ Hin) as (-> & ->). simpl. by rewrite !app_nil_r.
    + rewrite (retriever_body_raise _ _ _ (unfinished_tasks (arn_queue s')) Hc) in Hres
        by done.
      injection Hres as Hres. rewrite <- Hres. simpl.
      eexists. split; [reflexivity|].
      rewrite accounts_put_app, connections_app.
      destruct (offline_nil _ (chain_events_offline arn (retrievers s)
                                 {["arn" := VStr arn]})) as (-> & ->).
      simpl. by rewrite !app_nil_r.
  - unfold results_queue_get, Queue.get in Hres.
    destruct (items (results_queue s)) as [|d rest] eqn:Hit; [done|].
    injection Hres as Hres.
    match type of Hres with results_begin d ?s1 = _ =>
      destruct (adds_offline_results_begin d s1) as (_ & _ & evs & Hh & He);
      pose proof (results_begin_effect _ _ _ _ Hres) as (_ & _ & Haq & _ & _ & Hcase)
    end.
    rewrite Hres in Hh. simpl in Hh.
    destruct (offline_nil _ He) as (He1 & He2).
    exists (EGet ResultsQ (IDict d) :: evs).
    change (EGet ResultsQ (IDict d) :: evs) with ([EGet ResultsQ (IDict d)] ++ evs).
    rewrite accounts_put_app, connections_app, He1, He2, Hh, Haq.
    assert (waiting_after r = []) as ->.
    { destruct Hcase as [(m & -> & _)|[[-> _]|(e & -> & _)]]; done. }
    destruct s; simpl. rewrite !app_nil_r, <- app_assoc. done.
  - injection Hres as Hres.
    destruct (adds_offline_results_resume env data m s) as (_ & _ & evs & Hh & He).
    pose proof (results_resume_effect _ _ _ _ _ _ Hres) as (_ & _ & Haq & _ & _ & Hcase).
    rewrite Hres in Hh. simpl in Hh.
    destruct (offline_nil _ He) as (He1 & He2).
    exists evs. rewrite He1, He2, Hh, Haq.
    assert (waiting_after r = []) as ->.
    { destruct Hcase as [[-> _]|(e & -> & _)]; done. }
    by rewrite !app_nil_r.
Qed.

Lemma enrolled_task_step env seed i sys s2 :
  enrolled seed sys →
  task_step env i (runner sys) = Some s2 →
  enrolled seed (mkSystem s2 (main sys)).
Proof.
  intros [Hm Hput Hacc] Hstep.
  pose proof (mourned_task_step env i sys s2 Hm Hstep) as Hm'.
  destruct Hm as [[Ha _ _ Hja _ _ Hc] _ _].
  destruct sys as [s pc]. cbn [runner main] in *.
  destruct (task_step_cases _ _ _ _ Hstep)
    as (t & Hi & Hst & [[Hmc ->]|(Hmc & r & s1 & Hres & ->)]);
    destruct t as [nm p mc st]; cbn [task_status must_cancel task_pos task_name] in *;
    subst st.
  - assert (count busy_lookup (tasks s) = 0) as Hzero.
    { destruct (decide (main_rank pc ≤ 3)) as [Hle|Hgt].
      - specialize (Hc Hle). rewrite Forall_lookup in Hc.
        specialize (Hc _ _ Hi). simpl in Hc. congruence.
      - specialize (Hja ltac:(lia)). lia. }
    pose proof (count_insert busy_lookup _ _ _ (mkTask nm p true Cancelled) Hi) as Hcount.
    rewrite !busy_lookup_mk in Hcount. simpl in Hcount.
    constructor; [done|by destruct s|]. cbn [runner]. set_tasks_simpl.
    rewrite (waiting_none (tasks s)) in Hacc by done.
    rewrite waiting_none by lia. by destruct s.
  - clear Hstep. destruct (resume_frame _ _ _ _ _ Hres) as [Ht _].
    assert (∀ e, r = Raise e → p = ResultsGet) as Hraise.
    { intros e ->. destruct Hm' as [_ _ Hcause]. cbn [runner] in Hcause.
      rewrite tasks_set_tasks, Ht, Forall_lookup in Hcause.
      specialize (Hcause i _ (list_lookup_insert_eq _ _ _ (lookup_lt_Some _ _ _ Hi)) e).
      by destruct Hcause. }
    destruct (resume_accounts_trace env p s r s1 Hres Hraise) as (evs & Hh & Hap & Hperm).
    pose proof (flat_map_insert_perm waiting (tasks s) i _
                  (match r with
                   | Ok p0 => mkTask nm p0 false Pending
                   | Raise e => mkTask nm p false (Failed e)
                   end) Hi) as Hfm.
    assert (waiting (mkTask nm p mc Pending) = waiting_at p) as Hold by done.
    assert (waiting (match r with
                     | Ok p0 => mkTask nm p0 false Pending
                     | Raise e => mkTask nm p false (Failed e)
                     end) = waiting_after r) as Hnew by (by destruct r).
    rewrite Hold, Hnew in Hfm.
    assert (∀ f, history (set_tasks f s1) = history s ++ evs) as Hh'
      by (intros; by destruct s1).
    constructor; [done| |]; cbn [runner]; set_tasks_simpl; rewrite Hh'.
    + by rewrite accounts_put_app, Hap, app_nil_r.
    + rewrite Ht, connections_app, Hacc.
      by apply perm_exchange with (w := waiting_at p) (w' := waiting_after r).
Qed.

Lemma cancels_offline (ts : list Task) :
  Forall offline (map (λ t, ECancel (task_name t)) ts).
Proof. apply Forall_forall. by intros e (t & -> & _)%list_elem_of_fmap. Qed.

Lemma reported_offline xs : Forall offline (reported xs).
Proof. induction xs as [|x xs IH]; simpl; [constructor|]. by repeat constructor. Qed.

Lemma enrolled_main_step seed sys sys' :
  enrolled seed sys → main_step sys = Some sys' → enrolled seed sys'.
Proof.
  intros [Hm Hput Hacc] Hstep.
  pose proof (mourned_main_step sys sys' Hm Hstep) as Hm'.
  destruct sys as [s pc]. unfold main_step in Hstep. cbn [runner main] in *.
  destruct pc; repeat case_match; simplify_eq; try (by constructor).
  rewrite clean_up_eq in *.
  destruct (offline_nil _ (cancels_offline (tasks s))) as (Hc1 & Hc2).
  destruct (offline_nil _ (reported_offline (items (failure_queue s)))) as (Hr1 & Hr2).
  constructor; [done| |]; simpl.
  - by rewrite !accounts_put_app, Hc1, Hr1, !app_nil_r.
  - by rewrite !connections_app, Hc2, Hr2, !app_nil_r, waiting_request_cancel.
Qed.

Lemma enrolled_rtc env seed sys sys' :
  enrolled seed sys → rtc (step env) sys sys' → enrolled seed sys'.
Proof.
  intros Hs Hrtc. induction Hrtc as [|sys1 sys2 sys3 Hstep _ IH]; [done|].
  apply IH. inversion Hstep as [i sys4 s' Ht|sys4 sys5 Hm]; subst.
  - by eapply enrolled_task_step.
  - by eapply enrolled_main_step.
Qed.

Lemma swag_events_offline env : Forall offline (swag_events env).
Proof.
  destruct (adds_offline__get_swag_accounts env init) as (_ & _ & evs & Hh & He).
  unfold swag_events. by rewrite Hh.
Qed.

Lemma created_offline ts : Forall offline (created ts).
Proof. apply Forall_forall. by intros e (t & -> & _)%list_elem_of_fmap. Qed.

(** The account queue when [run] reaches its first [join] holds the
    accounts that the history shows as put, in that order. *)
Lemma run_start_accounts env accounts arns s s' :
  run_start env accounts arns s = (Ok (), s') →
  ∃ evs,
    history s' = history s ++ evs
    ∧ accounts_put evs = items (account_queue s')
    ∧ connections evs = [].
Proof.
  destruct (is_given arns) eqn:Hg.
  - rewrite (run_start_given env accounts arns s Hg). intros [= <-]. simpl.
    eexists. split; [done|].
    assert (Forall offline (map put_event (given arns) ++ created (launched env arns)))
      as Hoff.
    { apply Forall_app. split; [|apply created_offline].
      apply Forall_forall. by intros e (a & -> & _)%list_elem_of_fmap. }
    by destruct (offline_nil _ Hoff) as [-> ->].
  - unfold run_start, register_retriever.
    unfold bind at 1 2 3 4 5 6. unfold modify, ret. rewrite Hg.
    destruct s as [rs aq nq rq fq fa ts h].
    unfold set_retrievers, set_arn_queue, set_account_queue, set_results_queue,
      set_failure_queue. simpl.
    set (s1 := mkRunner (rs ++ [AccessAdvisorRetriever env]) Queue.new Queue.new
                 Queue.new Queue.new fa ts h).
    destruct (offline_nil _ (swag_events_offline env)) as (Hs1 & Hs2).
    assert (∀ s0, set_history (λ h0, h0 ++ swag_events env) s0
                  = seeded [] [] (swag_events env) s0) as Hset.
    { intros [? [] [] ? ? ? ? ?]. unfold seeded. simpl. by rewrite !app_nil_r. }
    assert (∃ r ids evs,
              (if is_given accounts
               then _queue_accounts env (given accounts)
               else _queue_all_accounts env) s1 = (r, seeded ids [] evs s1)
              ∧ accounts_put evs = ids ∧ connections evs = [])
      as (r & ids & evs & Hseed & Hap & Hco).
    { destruct (is_given accounts).
      - unfold _queue_accounts, bind.
        destruct (queue_account_ids_spec (length (given accounts)) 0 (given accounts) s1)
          as (ids & rest & -> & _); [lia|].
        rewrite _get_swag_accounts_eq, Hset, seeded_seeded.
        destruct (swag_lookup env) as [all|e].
        + rewrite for_found, seeded_seeded. eexists _, _, _. split; [reflexivity|].
          rewrite !accounts_put_app, !connections_app, !accounts_put_puts,
            !connections_puts, Hs1, Hs2. by rewrite ?app_nil_r.
        + eexists _, _, _. split; [reflexivity|].
          rewrite !accounts_put_app, !connections_app, !accounts_put_puts,
            !connections_puts, Hs1, Hs2. by rewrite ?app_nil_r.
      - unfold _queue_all_accounts, bind. rewrite _get_swag_accounts_eq, Hset.
        destruct (swag_lookup env) as [all|e].
        + rewrite for_account_queue_put, seeded_seeded.
          eexists _, _, _. split; [reflexivity|].
          assert (map (λ a, EPut AccountQ (IStr (id a))) all = account_puts (map id all))
            as -> by (unfold account_puts; by rewrite map_map).
          rewrite !accounts_put_app, !connections_app, !accounts_put_puts,
            !connections_puts, Hs1, Hs2. by rewrite ?app_nil_r.
        + eexists _, _, _. split; [reflexivity|]. by rewrite Hs1, Hs2. }
    intros Hrun. unfold bind in Hrun. rewrite Hseed in Hrun.
    destruct r as [[]|e]; [|done].
    rewrite !create_workers_eq in Hrun. injection Hrun as <-. simpl.
    eexists. rewrite <- !app_assoc. split; [reflexivity|].
    rewrite !accounts_put_app, !connections_app, Hap, Hco.
    assert (∀ pre p, accounts_put (created (workers pre p (num_workers env))) = []
                     ∧ connections (created (workers pre p (num_workers env))) = [])
      as Hw by (intros; apply offline_nil, created_offline).
    destruct (Hw "arn-lookup-worker-" LookupGet) as [-> ->].
    destruct (Hw "retriever-worker-" RetrieverGet) as [-> ->].
    destruct (Hw "results-worker-" ResultsGet) as [-> ->].
    by rewrite !app_nil_r.
Qed.

Lemma enrolled_start env registered accounts arns sys0 :
  start env registered accounts arns = RunStarted sys0 →
  enrolled (items (account_queue (runner sys0))) sys0.
Proof.
  intros Hstart. pose proof (mourned_start _ _ _ _ _ Hstart) as Hm.
  pose proof (start_started _ _ _ _ _ Hstart) as (_ & Ht & _).
  assert (count busy_lookup (tasks (runner sys0)) = 0) as Hzero.
  { apply count_zero, Forall_forall. intros t Hin. rewrite Ht in Hin.
    apply launched_idle in Hin as (Hp & _ & Hst). destruct t as [? p ? st].
    simpl in *. subst st. rewrite busy_lookup_mk. by destruct Hp as [->|[->| ->]]. }
  unfold start in Hstart.
  destruct (run_start env accounts arns (set_retrievers (λ _, registered) init))
    as [[[]|e] s'] eqn:Hrun; [|done].
  injection Hstart as <-. cbn [runner] in *.
  destruct (run_start_accounts _ _ _ _ _ Hrun) as (evs & Hh & Hap & Hco).
  simpl in Hh.
  constructor; [done| |]; cbn [runner]; rewrite Hh.
  - done.
  - by rewrite Hco, waiting_none, !app_nil_r.
Qed.

(** X22: every account of the seeding is looked up, once.  The workers
    put nothing on the account queue; in every state of a run the
    accounts that the seeding queued are those still on the queue, those
    taken by a worker that has not yet asked for the connection, and
    those for which [boto3_cached_conn] was called; once [run] is past
    the join of the account queue the connection was asked exactly once
    for each queued account, as often as the account was queued. *)
Theorem X22_every_account_is_connected_once
    (env : Env) (registered : list RetrieverPlugin)
    (accounts arns : option (list string)) (sys0 sys : System) :
  start env registered accounts arns = RunStarted sys0 →
  rtc (step env) sys0 sys →
  accounts_put (history (runner sys)) = items (account_queue (runner sys0))
  ∧ items (account_queue (runner sys0))
    ≡ₚ items (account_queue (runner sys))
       ++ flat_map waiting (tasks (runner sys))
       ++ connections (history (runner sys))
  ∧ (1 ≤ main_rank (main sys) →
     connections (history (runner sys)) ≡ₚ items (account_queue (runner sys0))).
Proof.
  intros Hstart Hrtc.
  destruct (enrolled_rtc _ _ _ _ (enrolled_start _ _ _ _ _ Hstart) Hrtc)
    as [[[Ha _ _ Hja _ _ _] _ _] Hput Hacc].
  split; [done|]. split; [done|].
  intros Hrank. specialize (Hja Hrank).
  assert (items (account_queue (runner sys)) = []) as Hnil
    by (apply length_zero_iff_nil; lia).
  rewrite Hnil, waiting_none in Hacc by lia. by rewrite Hacc.
Qed.

Lemma X22_witness :
  let env := Examples.env 1 (Ok [Examples.prod_account]) in
  let sys0 := started (start env [] None None) in
  let sys := after env Cases.enumeration_run sys0 in
  start env [] None None = RunStarted sys0
  ∧ run_schedule env Cases.enumeration_run sys0 = Some sys
  ∧ main sys = JoinArns
  ∧ items (account_queue (runner sys0)) = ["222222222222"]
  ∧ connections (history (runner sys)) ≡ₚ ["222222222222"].
Proof.
  intros env sys0 sys.
  assert (start env [] None None = RunStarted sys0) as Hstart
    by (vm_compute; reflexivity).
  assert (run_schedule env Cases.enumeration_run sys0 = Some sys) as Hrun
    by (vm_compute; reflexivity).
  assert (main sys = JoinArns) as Hmain by (vm_compute; reflexivity).
  split; [exact Hstart|]. split; [exact Hrun|]. split; [exact Hmain|].
  split; [vm_compute; reflexivity|].
  apply (proj2 (proj2 (X22_every_account_is_connected_once env [] None None sys0 sys
                         Hstart
                         (run_schedule_rtc env Cases.enumeration_run sys0 sys Hrun)))).
  rewrite Hmain. simpl. lia.
Defined.

(** ** The enumeration in a run *)

Lemma taken_app h1 h2 : taken (h1 ++ h2) = taken h1 ++ taken h2.
Proof. apply omap_app. Qed.

Lemma unlisted_nil evs : Forall unlisted evs → arns_put evs = [] ∧ taken evs = [].
Proof.
  induction 1 as [|e evs He _ (IH1 & IH2)]; [done|].
  replace (e :: evs) with ([e] ++ evs) by done.
  rewrite arns_put_app, taken_app, IH1, IH2, !app_nil_r.
  by destruct e as [[] ?|[] ?| | | | |].
Qed.

Lemma adds_unlisted_lookup_finish a failed : adds unlisted (lookup_finish a failed).
Proof.
  unfold lookup_finish, arn_lookup_except, account_queue_task_done, failure_queue_put,
    log_error.
  adds_solve.
Qed.

Lemma adds_unlisted_results_begin data : adds unlisted (results_begin data).
Proof.
  unfold results_begin, results_prepare, results_except, results_queue_task_done,
    failure_queue_put, log_error.
  adds_solve.
Qed.

Lemma adds_unlisted_results_resume env data m : adds unlisted (results_resume env data m).
Proof.
  unfold results_resume, results_store, results_except, results_queue_task_done,
    failure_queue_put, log_error.
  adds_solve.
Qed.

Lemma chain_events_unlisted arn rs data : Forall unlisted (chain_events arn rs data).
Proof.
  revert data. induction rs as [|r rs IH]; intros data; simpl; [constructor|].
  constructor; [done|]. destruct (run_plugin r arn data); [apply IH|by repeat constructor].
Qed.

Lemma phase_events_taken env a p : taken (phase_events env a p) = [].
Proof.
  unfold phase_events.
  change (ECall (phase_call p a) :: ?l) with ([ECall (phase_call p a)] ++ l).
  rewrite taken_app. simpl.
  induction (phase_outcome env p a).1 as [|x l IH]; [done|]. exact IH.
Qed.

(** The ARNs still to come, one step of the enumeration further. *)
Lemma remaining_step env a p :
  remaining env (LookupPhase a p)
  = (phase_outcome env p a).1
    ++ match (phase_outcome env p a).2, next_phase p with
       | None, Some p' => remaining env (LookupPhase a p')
       | _, _ => []
       end.
Proof.
  unfold remaining. rewrite (phases_from_next p). cbn [enum_run].
  destruct (phase_outcome env p a) as [l [e|]] eqn:E; cbn [fst snd].
  - unfold emitted_by. simpl. by rewrite E.
  - unfold emitted_by. cbn [flat_map]. rewrite E. cbn [fst]. f_equal.
    by destruct (next_phase p).
Qed.

(** What one turn of a worker adds to the trace of the enumeration. *)
Lemma resume_listing_trace env p s r s' :
  resume env p s = Some (r, s') →
  (∀ e, r = Raise e → p = ResultsGet) →
  ∃ evs,
    history s' = history s ++ evs
    ∧ taken evs ++ items (account_queue s') = items (account_queue s)
    ∧ arns_put evs ++ remaining_after env r
      = remaining env p ++ flat_map (emitted env) (taken evs).
Proof.
  destruct p; cbn [resume]; intros Hres Hraise.
  - unfold account_queue_get, Queue.get in Hres.
    destruct (items (account_queue s)) as [|a rest] eqn:Hit; [done|].
    injection Hres as <- <-.
    exists [EGet AccountQ (IStr a)]. destruct s; simpl in *.
    split; [done|]. split; [done|]. by rewrite app_nil_r.
  - injection Hres as Hres.
    pose proof (lookup_resume_effect _ _ _ _ _ _ Hres) as (_ & _ & _ & Hit & _ & _ & Hcase).
    rewrite lookup_resume_eq in Hres. cbn zeta in Hres.
    set (s1 := queued (phase_outcome env p account).1 (phase_events env account p) s)
      in *.
    destruct (phase_events_trace env account p) as (Hp1 & _).
    pose proof (phase_events_taken env account p) as Hp2.
    rewrite (remaining_step env account p).
    assert (∀ failed, lookup_finish account failed s1 = (r, s') →
              ∃ evs, history s' = history s ++ evs
                ∧ taken evs = []
                ∧ arns_put evs = (phase_outcome env p account).1
                ∧ remaining_after env r = []) as Hfin.
    { intros failed Hf.
      destruct (adds_unlisted_lookup_finish account failed s1) as (_ & _ & evs & Hh & He).
      rewrite Hf in Hh. simpl in Hh.
      destruct (unlisted_nil _ He) as (He1 & He2).
      exists (phase_events env account p ++ evs).
      rewrite arns_put_app, taken_app, Hp1, Hp2, He1, He2, Hh, <- app_assoc, !app_nil_r.
      repeat split; try done.
      unfold lookup_finish, bind, ret in Hf. by repeat (case_match; simplify_eq). }
    destruct (phase_outcome env p account).2 as [e|] eqn:He.
    { destruct (Hfin (Some e) Hres) as (evs & Hh & Ht & Hap & Hr).
      exists evs. rewrite Ht, Hap, Hr, Hit. by rewrite !app_nil_r. }
    destruct (next_phase p) as [p'|].
    + injection Hres as <- <-. exists (phase_events env account p).
      rewrite Hp1, Hp2. unfold s1, queued. simpl. by rewrite !app_nil_r.
    + destruct (Hfin None Hres) as (evs & Hh & Ht & Hap & Hr).
      exists evs. rewrite Ht, Hap, Hr, Hit. by rewrite !app_nil_r.
  - unfold arn_queue_get, Queue.get in Hres.
    destruct (items (arn_queue s)) as [|a rest] eqn:Hit; [done|]. injection Hres as <- <-.
    exists [EGet ArnQ (IStr a)]. destruct s; simpl in *. done.
  - injection Hres as Hres.
    pose proof (retriever_resume_effect _ _ _ _ Hres) as (_ & _ & Haq & _ & _ & Hcase).
    destruct Hcase as [[-> Hn]|(e & -> & _)]; [|by specialize (Hraise e eq_refl)].
    unfold retriever_resume, bind in Hres.
    destruct (chain arn (retrievers s) {["arn" := VStr arn]}) as [data|e] eqn:Hc.
    + rewrite (retriever_body_ok _ _ _ (unfinished_tasks (arn_queue s') ) Hc) in Hres
        by done.
      injection Hres as Hres. rewrite <- Hres. simpl.
      eexists. split; [reflexivity|].
      rewrite arns_put_app, taken_app.
      assert (Forall unlisted (map (retriever_call arn) (retrievers s))) as Hin.
      { rewrite <- (chain_events_ok _ _ _ _ Hc). apply chain_events_unlisted. }
      destruct (unlisted_nil _ Hin) as (-> & ->). done.
    + rewrite (retriever_body_raise _ _ _ (unfinished_tasks (arn_queue s')) Hc) in Hres
        by done.
      injection Hres as Hres. rewrite <- Hres. simpl.
      eexists. split; [reflexivity|].
      rewrite arns_put_app, taken_app.
      destruct (unlisted_nil _ (chain_events_unlisted arn (retrievers s)
                                  {["arn" := VStr arn]})) as (-> & ->).
      done.
  - unfold results_queue_get, Queue.get in Hres.
    destruct (items (results_queue s)) as [|d rest] eqn:Hit; [done|].
    injection Hres as Hres.
    match type of Hres with results_begin d ?s1 = _ =>
      destruct (adds_unlisted_results_begin d s1) as (_ & _ & evs & Hh & He);
      pose proof (results_begin_effect _ _ _ _ Hres) as (_ & _ & Haq & _ & _ & Hcase)
    end.
    rewrite Hres in Hh. simpl in Hh.
    destruct (unlisted_nil _ He) as (He1 & He2).
    exists (EGet ResultsQ (IDict d) :: evs).
    change (EGet ResultsQ (IDict d) :: evs) with ([EGet ResultsQ (IDict d)] ++ evs).
    rewrite arns_put_app, taken_app, He1, He2, Hh, Haq.
    assert (remaining_after env r = []) as ->.
    { destruct Hcase as [(m & -> & _)|[[-> _]|(e & -> & _)]]; done. }
    destruct s; simpl. by rewrite <- app_assoc.
  - injection Hres as Hres.
    destruct (adds_unlisted_results_resume env data m s) as (_ & _ & evs & Hh & He).
    pose proof (results_resume_effect _ _ _ _ _ _ Hres) as (_ & _ & Haq & _ & _ & Hcase).
    rewrite Hres in Hh. simpl in Hh.
    destruct (unlisted_nil _ He) as (He1 & He2).
    exists evs. rewrite He1, He2, Hh, Haq.
    assert (remaining_after env r = []) as ->.
    { destruct Hcase as [[-> _]|(e & -> & _)]; done. }
    done.
Qed.

Lemma perm_relay {A} (a a' f f' w w' g e e' : list A) :
  a ++ f ≡ₚ g ++ e →
  a' ++ w' = w ++ e' →
  f' ++ w ≡ₚ f ++ w' →
  (a ++ a') ++ f' ≡ₚ g ++ e ++ e'.
Proof.
  intros H1 H2 H3. apply (Permutation_app_inv_r w).
  trans ((a ++ a') ++ (f' ++ w)); [solve_Permutation|].
  rewrite H3. trans ((a ++ f) ++ (a' ++ w')); [solve_Permutation|].
  rewrite H1, H2. solve_Permutation.
Qed.

Lemma remaining_none env ts :
  count busy_lookup ts = 0 → flat_map (remaining_of env) ts = [].
Proof.
  unfold count. induction ts as [|t ts IH]; simpl; [done|].
  destruct t as [? p ? st]. unfold remaining_of, busy_lookup at 1. simpl.
  destruct st, p; simpl; try (intros; apply IH; lia); lia.
Qed.

Lemma remaining_request_cancel env ts :
  flat_map (remaining_of env) (map request_cancel ts)
  = flat_map (remaining_of env) ts.
Proof.
  induction ts as [|t ts IH]; simpl; [done|]. rewrite IH. f_equal.
  by destruct t as [? ? ? []].
Qed.

Lemma enumerated_task_step env seed given i sys s2 :
  enumerated env seed given sys →
  task_step env i (runner sys) = Some s2 →
  enumerated env seed given (mkSystem s2 (main sys)).
Proof.
  intros [Hm Htk Harn] Hstep.
  pose proof (mourned_task_step env i sys s2 Hm Hstep) as Hm'.
  destruct Hm as [[Ha _ _ Hja _ _ Hc] _ _].
  destruct sys as [s pc]. cbn [runner main] in *.
  destruct (task_step_cases _ _ _ _ Hstep)
    as (t & Hi & Hst & [[Hmc ->]|(Hmc & r & s1 & Hres & ->)]);
    destruct t as [nm p mc st]; cbn [task_status must_cancel task_pos task_name] in *;
    subst st.
  - assert (count busy_lookup (tasks s) = 0) as Hzero.
    { destruct (decide (main_rank pc ≤ 3)) as [Hle|Hgt].
      - specialize (Hc Hle). rewrite Forall_lookup in Hc.
        specialize (Hc _ _ Hi). simpl in Hc. congruence.
      - specialize (Hja ltac:(lia)). lia. }
    pose proof (count_insert busy_lookup _ _ _ (mkTask nm p true Cancelled) Hi) as Hcount.
    rewrite !busy_lookup_mk in Hcount. simpl in Hcount.
    constructor; [done|by destruct s|]. cbn [runner]. set_tasks_simpl.
    rewrite (remaining_none env (tasks s)) in Harn by done.
    rewrite remaining_none by lia. by destruct s.
  - clear Hstep. destruct (resume_frame _ _ _ _ _ Hres) as [Ht _].
    assert (∀ e, r = Raise e → p = ResultsGet) as Hraise.
    { intros e ->. destruct Hm' as [_ _ Hcause]. cbn [runner] in Hcause.
      rewrite tasks_set_tasks, Ht, Forall_lookup in Hcause.
      specialize (Hcause i _ (list_lookup_insert_eq _ _ _ (lookup_lt_Some _ _ _ Hi)) e).
      by destruct Hcause. }
    destruct (resume_listing_trace env p s r s1 Hres Hraise) as (evs & Hh & Hq & Hl).
    pose proof (flat_map_insert_perm (remaining_of env) (tasks s) i _
                  (match r with
                   | Ok p0 => mkTask nm p0 false Pending
                   | Raise e => mkTask nm p false (Failed e)
                   end) Hi) as Hfm.
    assert (remaining_of env (mkTask nm p mc Pending) = remaining env p) as Hold by done.
    assert (remaining_of env (match r with
                     | Ok p0 => mkTask nm p0 false Pending
                     | Raise e => mkTask nm p false (Failed e)
                     end) = remaining_after env r) as Hnew by (by destruct r).
    rewrite Hold, Hnew in Hfm.
    assert (∀ f, history (set_tasks f s1) = history s ++ evs) as Hh'
      by (intros; by destruct s1).
    constructor; [done| |]; cbn [runner]; set_tasks_simpl; rewrite Hh'.
    + by rewrite taken_app, <- app_assoc, Hq.
    + rewrite Ht, arns_put_app, taken_app, flat_map_app.
      by apply perm_relay with (f := flat_map (remaining_of env) (tasks s))
                               (w := remaining env p) (w' := remaining_after env r).
Qed.

Lemma cancels_unlisted (ts : list Task) :
  Forall unlisted (map (λ t, ECancel (task_name t)) ts).
Proof. apply Forall_forall. by intros e (t & -> & _)%list_elem_of_fmap. Qed.

Lemma reported_unlisted xs : Forall unlisted (reported xs).
Proof. induction xs as [|x xs IH]; simpl; [constructor|]. by repeat constructor. Qed.

Lemma enumerated_main_step env seed given sys sys' :
  enumerated env seed given sys → main_step sys = Some sys' →
  enumerated env seed given sys'.
Proof.
  intros [Hm Htk Harn] Hstep.
  pose proof (mourned_main_step sys sys' Hm Hstep) as Hm'.
  destruct sys as [s pc]. unfold main_step in Hstep. cbn [runner main] in *.
  destruct pc; repeat case_match; simplify_eq; try (by constructor).
  rewrite clean_up_eq in *.
  destruct (unlisted_nil _ (cancels_unlisted (tasks s))) as (Hc1 & Hc2).
  destruct (unlisted_nil _ (reported_unlisted (items (failure_queue s)))) as (Hr1 & Hr2).
  constructor; [done| |]; simpl.
  - by rewrite !taken_app, Hc2, Hr2, !app_nil_r.
  - by rewrite !arns_put_app, !taken_app, Hc1, Hc2, Hr1, Hr2, !app_nil_r,
      remaining_request_cancel.
Qed.

Lemma enumerated_rtc env seed given sys sys' :
  enumerated env seed given sys → rtc (step env) sys sys' →
  enumerated env seed given sys'.
Proof.
  intros Hs Hrtc. induction Hrtc as [|sys1 sys2 sys3 Hstep _ IH]; [done|].
  apply IH. inversion Hstep as [i sys4 s' Ht|sys4 sys5 Hm]; subst.
  - by eapply enumerated_task_step.
  - by eapply enumerated_main_step.
Qed.

Lemma seed_event_unlisted e : seed_event e → unlisted e.
Proof. by destruct e as [[] ?|[] ?| | | | |]. Qed.

Lemma created_unlisted ts : Forall unlisted (created ts).
Proof. apply Forall_forall. by intros e (t & -> & _)%list_elem_of_fmap. Qed.

Lemma taken_put_events l : taken (map put_event l) = [].
Proof. induction l as [|a l IH]; simpl; [done|]. exact IH. Qed.

Lemma enumerated_start env registered accounts arns sys0 :
  start env registered accounts arns = RunStarted sys0 →
  enumerated env (items (account_queue (runner sys0)))
    (items (arn_queue (runner sys0))) sys0.
Proof.
  intros Hstart. pose proof (mourned_start _ _ _ _ _ Hstart) as Hm.
  pose proof (start_started _ _ _ _ _ Hstart) as (_ & Ht & _).
  assert (count busy_lookup (tasks (runner sys0)) = 0) as Hzero.
  { apply count_zero, Forall_forall. intros t Hin. rewrite Ht in Hin.
    apply launched_idle in Hin as (Hp & _ & Hst). destruct t as [? p ? st].
    simpl in *. subst st. rewrite busy_lookup_mk. by destruct Hp as [->|[->| ->]]. }
  assert (taken (history (runner sys0)) = []
          ∧ arns_put (history (runner sys0)) = items (arn_queue (runner sys0)))
    as (Htk & Hap).
  { unfold start in Hstart. destruct (is_given arns) eqn:Hg.
    - rewrite (run_start_given env accounts arns _ Hg) in Hstart.
      injection Hstart as <-. simpl.
      rewrite taken_app, arns_put_app, arns_put_put_events, taken_put_events.
      destruct (unlisted_nil _ (created_unlisted (launched env arns))) as (-> & ->).
      by rewrite !app_nil_r.
    - destruct (run_start_lookup env accounts arns
                  (set_retrievers (λ _, registered) init) Hg) as (accts & evs & Hev & Heq).
      rewrite Heq in Hstart. destruct (swag_lookup env); [|done].
      injection Hstart as <-. simpl.
      rewrite taken_app, arns_put_app.
      assert (Forall unlisted evs) as Hin
        by (eapply Forall_impl; [exact Hev|apply seed_event_unlisted]).
      destruct (unlisted_nil _ Hin) as (-> & ->).
      by destruct (unlisted_nil _ (created_unlisted (launched env arns))) as (-> & ->). }
  constructor; [done| |]; rewrite Htk; simpl.
  - done.
  - by rewrite Hap, remaining_none, !app_nil_r.
Qed.

(** X23: the ARNs that enter the pipeline are those of the accounts.
    The enumeration of one account puts on the ARN queue the ARNs
    [emitted env account]: those that the listings yield up to the first
    call that raises.  In every state of a run the accounts taken from
    the account queue and those still on it are the accounts of the
    seeding, and the ARNs put so far, with those that the workers in the
    middle of an enumeration will still put, are the ARNs given to
    [run] and the ARNs of the accounts taken.  Once [run] is past the
    join of the account queue, the ARNs put on the ARN queue are the
    given ARNs and the ARNs of every account of the seeding. *)
Theorem X23_the_arns_are_those_of_the_accounts
    (env : Env) (registered : list RetrieverPlugin)
    (accounts arns : option (list string)) (sys0 sys : System) :
  start env registered accounts arns = RunStarted sys0 →
  rtc (step env) sys0 sys →
  (∀ account s,
     items (arn_queue (_get_arns_for_account env account s).2)
     = items (arn_queue s) ++ emitted env account)
  ∧ items (account_queue (runner sys0))
    ≡ₚ taken (history (runner sys)) ++ items (account_queue (runner sys))
  ∧ arns_put (history (runner sys))
      ++ flat_map (remaining_of env) (tasks (runner sys))
    ≡ₚ items (arn_queue (runner sys0))
       ++ flat_map (emitted env) (taken (history (runner sys)))
  ∧ (1 ≤ main_rank (main sys) →
     arns_put (history (runner sys))
     ≡ₚ items (arn_queue (runner sys0))
        ++ flat_map (emitted env) (items (account_queue (runner sys0)))).
Proof.
  intros Hstart Hrtc.
  destruct (enumerated_rtc _ _ _ _ _ (enumerated_start _ _ _ _ _ Hstart) Hrtc)
    as [[[Ha _ _ Hja _ _ _] _ _] Htk Harn].
  split.
  { intros account s. rewrite _get_arns_for_account_eq. by destruct s as [? ? [] ? ? ? ? ?]. }
  split; [done|]. split; [done|].
  intros Hrank. specialize (Hja Hrank).
  assert (items (account_queue (runner sys)) = []) as Hnil
    by (apply length_zero_iff_nil; lia).
  rewrite Hnil, app_nil_r in Htk.
  rewrite remaining_none, app_nil_r in Harn by lia.
  rewrite Harn. apply Permutation_app_head.
  symmetry. clear -Htk. induction Htk; simpl; try done.
  - by apply Permutation_app_head.
  - solve_Permutation.
  - etrans; eauto.
Qed.

Lemma X23_witness :
  let env := Cases.env_entities in
  let sys0 := started (start env [] (Some ["123456789012"]) None) in
  let sys := after env Cases.enumeration_run sys0 in
  start env [] (Some ["123456789012"]) None = RunStarted sys0
  ∧ run_schedule env Cases.enumeration_run sys0 = Some sys
  ∧ main sys = JoinArns
  ∧ items (account_queue (runner sys0)) = ["123456789012"]
  ∧ emitted env "123456789012" = ["r1"; "r2"; "u1"; "p1"; "p2"; "p3"; "g1"]
  ∧ arns_put (history (runner sys))
    ≡ₚ items (arn_queue (runner sys0))
       ++ flat_map (emitted env) (items (account_queue (runner sys0))).
Proof.
  intros env sys0 sys.
  assert (start env [] (Some ["123456789012"]) None = RunStarted sys0) as Hstart
    by (vm_compute; reflexivity).
  assert (run_schedule env Cases.enumeration_run sys0 = Some sys) as Hrun
    by (vm_compute; reflexivity).
  assert (main sys = JoinArns) as Hmain by (vm_compute; reflexivity).
  split; [exact Hstart|]. split; [exact Hrun|]. split; [exact Hmain|].
  split; [vm_compute; reflexivity|]. split; [vm_compute; reflexivity|].
  apply (proj2 (proj2 (proj2
           (X23_the_arns_are_those_of_the_accounts env [] (Some ["123456789012"]) None
              sys0 sys Hstart
              (run_schedule_rtc env Cases.enumeration_run sys0 sys Hrun))))).
  rewrite Hmain. simpl. lia.
Defined.
